(** * Sprout compiler: tokenizer, parser, code generator and driver

    A shallow embedding of the TypeScript sources of the Sprout compiler
    (tokenizer.ts, ast.ts, parser.ts, codegen.ts, index.ts) together
    with the properties of it that the specification states.

    Conventions of the embedding.
    - A JavaScript string is a [string] of the Standard Library; source
      text is taken to be ASCII, which is what the tokenizer accepts
      outside string literals.
    - The tokenizer's private fields [source] and [index] are kept as
      the unread suffix [source.slice(index)]; [peek] is its first
      character, [advance] drops one character and [isEOF] holds when
      the suffix is empty.
    - A thrown [Error] is a value carrying the message and the line and
      column that the source interpolates into the message text. *)

From Stdlib Require Import String Ascii List Arith PeanoNat Bool Lia.
Import ListNotations.

Local Open Scope list_scope.
Local Open Scope string_scope.

Set Implicit Arguments.

(** ** Results of fallible code *)

Record Error := mkError {
  message : string;
  errLine : nat;
  errColumn : nat
}.

Inductive Result (A : Type) : Type :=
| Ok (a : A)
| Throw (e : Error).

Arguments Ok {A} a.
Arguments Throw {A} e.

(** ** Tokens (tokenizer.ts) *)

Inductive TokenType : Type :=
| T_identifier
| T_number
| T_string
| T_operator
| T_punctuation
| T_newline
| T_eof.

Record Token := mkToken {
  type : TokenType;
  value : string;
  line : nat;
  column : nat
}.

Definition TokenType_eqb (a b : TokenType) : bool :=
  match a, b with
  | T_identifier, T_identifier
  | T_number, T_number
  | T_string, T_string
  | T_operator, T_operator
  | T_punctuation, T_punctuation
  | T_newline, T_newline
  | T_eof, T_eof => true
  | _, _ => false
  end.

(** The tokenizer's position in the source: the unread suffix and the
    line and column counters. *)
Record Tokenizer := mkTokenizer {
  unread : string;
  curLine : nat;
  curColumn : nat
}.

Definition char (c : ascii) : string := String c EmptyString.

(** The double quote, as a one-character string. *)
Definition DQ : string := char "034".

Definition inRange (lo hi c : ascii) : bool :=
  Nat.leb (nat_of_ascii lo) (nat_of_ascii c)
  && Nat.leb (nat_of_ascii c) (nat_of_ascii hi).

Definition isLetter (c : ascii) : bool :=
  inRange "A" "Z" c || inRange "a" "z" c.

Definition isWhitespace (c : ascii) : bool :=
  Ascii.eqb c " " || Ascii.eqb c "009" || Ascii.eqb c "013".

Definition isDigit (c : ascii) : bool := inRange "0" "9" c.

(** /[A-Za-z_#]/ *)
Definition isIdentifierStart (c : ascii) : bool :=
  isLetter c || Ascii.eqb c "_" || Ascii.eqb c "#".

(** /[A-Za-z0-9_#.-]/ *)
Definition isIdentifierPart (c : ascii) : bool :=
  isLetter c || isDigit c || Ascii.eqb c "_" || Ascii.eqb c "#"
  || Ascii.eqb c "." || Ascii.eqb c "-".

Definition isQuote (c : ascii) : bool :=
  Ascii.eqb c "034" || Ascii.eqb c "'".

Definition punctuationChars : list ascii :=
  ["("; ")"; "{"; "}"; "["; "]"; ","; "."; ":"]%char.

Definition singleCharOperators : list ascii :=
  ["+"; "-"; "*"; "/"; "%"; "!"; "="; "<"; ">"; "?"]%char.

Definition pairedOperators : list string :=
  ["=="; "!="; ">="; "<="; "&&"; "||"].

Definition hasChar (set : list ascii) (c : ascii) : bool :=
  existsb (Ascii.eqb c) set.

Definition hasString (set : list string) (s : string) : bool :=
  existsb (String.eqb s) set.

(** [peekAhead(1)] seen from a position whose current character has
    already been taken off: the next character, or the empty string
    past the end of the input. *)
Definition peekAhead1 (rest : string) : string :=
  match rest with
  | EmptyString => ""
  | String c _ => char c
  end.

(** Two calls of [advance] after the current character was taken off:
    the second one steps over one more character, if there is one. *)
Definition advance (rest : string) : string :=
  match rest with
  | EmptyString => ""
  | String _ rest' => rest'
  end.

Definition createToken (ty : TokenType) (v : string) (ln col : nat) : Token :=
  mkToken ty v ln col.

(** The body of the [while] loop of [readString]; [src] is the unread
    input after the opening quote. *)
Fixpoint readStringLoop (quote : ascii) (val : string)
    (startLine startColumn : nat) (src : string) (col : nat)
    : Result (Token * Tokenizer) :=
  match src with
  | EmptyString =>
      Throw (mkError "Unterminated string literal" startLine startColumn)
  | String c rest =>
      if Ascii.eqb c "\" then
        match rest with
        | EmptyString =>
            (* value += char + ''; index runs past the end; loop exits *)
            Throw (mkError "Unterminated string literal" startLine startColumn)
        | String next rest' =>
            readStringLoop quote (val ++ char c ++ char next)
              startLine startColumn rest' (col + 2)
        end
      else if Ascii.eqb c quote then
        Ok (mkToken T_string (char quote ++ val ++ char quote)
              startLine startColumn,
            mkTokenizer rest startLine (col + 1))
      else
        readStringLoop quote (val ++ char c) startLine startColumn rest (col + 1)
  end.

(** [readString], entered with the opening quote [quote] as current
    character and [rest] after it. *)
Definition readString (quote : ascii) (rest : string) (ln col : nat)
    : Result (Token * Tokenizer) :=
  readStringLoop quote "" ln col rest col.

(** [while (!isEOF() && p(peek())) { value += peek(); advance(); column += 1 }]:
    the characters read and the unread input left. *)
Fixpoint readWhile (p : ascii -> bool) (src : string) : string * string :=
  match src with
  | EmptyString => ("", "")
  | String c rest =>
      if p c then
        let (v, r) := readWhile p rest in (String c v, r)
      else ("", src)
  end.

Definition readNumber (src : string) (ln col : nat) : Token * Tokenizer :=
  let (intPart, r1) := readWhile isDigit src in
  let col1 := col + String.length intPart in
  match r1 with
  | String "." r2 =>
      let (fracPart, r3) := readWhile isDigit r2 in
      (mkToken T_number (intPart ++ "." ++ fracPart) ln col,
       mkTokenizer r3 ln (col1 + 1 + String.length fracPart))
  | _ =>
      (mkToken T_number intPart ln col, mkTokenizer r1 ln col1)
  end.

Definition readIdentifier (src : string) (ln col : nat) : Token * Tokenizer :=
  let (v, r) := readWhile isIdentifierPart src in
  (mkToken T_identifier v ln col, mkTokenizer r ln (col + String.length v)).

(** One iteration of the [while] loop of [tokenize] on a non-empty
    input: either the token pushed (if any) and the next position, or
    the error thrown. *)
Definition scanStep (c : ascii) (rest : string) (ln col : nat)
    : Result (option Token * Tokenizer) :=
  if Ascii.eqb c "010" then
    Ok (Some (createToken T_newline (char "010") ln col),
        mkTokenizer rest (ln + 1) 1)
  else if isWhitespace c then
    Ok (None, mkTokenizer rest ln col)
  else if isQuote c then
    match readString c rest ln col with
    | Ok (tok, t) => Ok (Some tok, t)
    | Throw e => Throw e
    end
  else if isDigit c then
    let (tok, t) := readNumber (String c rest) ln col in Ok (Some tok, t)
  else if isIdentifierStart c then
    let (tok, t) := readIdentifier (String c rest) ln col in Ok (Some tok, t)
  else if Ascii.eqb c "-" && String.eqb (peekAhead1 rest) ">" then
    Ok (Some (createToken T_operator "->" ln col),
        mkTokenizer (advance rest) ln (col + 2))
  else
    let twoChar := char c ++ peekAhead1 rest in
    if hasString pairedOperators twoChar then
      Ok (Some (createToken T_operator twoChar ln col),
          mkTokenizer (advance rest) ln (col + 2))
    else if hasChar punctuationChars c then
      Ok (Some (createToken T_punctuation (char c) ln col),
          mkTokenizer rest ln (col + 1))
    else if hasChar singleCharOperators c then
      Ok (Some (createToken T_operator (char c) ln col),
          mkTokenizer rest ln (col + 1))
    else
      Throw (mkError ("Unexpected character '" ++ char c ++ "'") ln col).

Definition pushToken (tokens : list Token) (tok : option Token) : list Token :=
  match tok with
  | Some t => (tokens ++ [t])%list
  | None => tokens
  end.

(** The [while (!this.isEOF())] loop of [tokenize].  [fuel] bounds the
    number of iterations; [None] means that the bound was reached. *)
Fixpoint tokenizeLoop (fuel : nat) (t : Tokenizer) (tokens : list Token)
    : option (Result (list Token)) :=
  match fuel with
  | O => None
  | S fuel' =>
      match unread t with
      | EmptyString =>
          Some (Ok (tokens ++ [createToken T_eof "" (curLine t) (curColumn t)])%list)
      | String c rest =>
          match scanStep c rest (curLine t) (curColumn t) with
          | Throw e => Some (Throw e)
          | Ok (tok, t') => tokenizeLoop fuel' t' (pushToken tokens tok)
          end
      end
  end.

(** [new Tokenizer(source).tokenize()]: every iteration consumes at
    least one character, so [length source + 1] iterations suffice. *)
Definition tokenize (source : string) : option (Result (list Token)) :=
  tokenizeLoop (S (String.length source)) (mkTokenizer source 1 1) [].


(** *** What the tokenizer is specified to do

    The character classes that the specification lists, seen at a
    character [c] followed by [rest]. *)
Definition recognized (c : ascii) (rest : string) : bool :=
  Ascii.eqb c "010" || isWhitespace c || isQuote c || isDigit c
  || isIdentifierStart c
  || (Ascii.eqb c "-" && String.eqb (peekAhead1 rest) ">")
  || hasString pairedOperators (char c ++ peekAhead1 rest)
  || hasChar punctuationChars c
  || hasChar singleCharOperators c.

(** The string literal opened by [quote] is closed in [src]: a
    character [quote] appears that no backslash escapes. *)
Fixpoint hasClosingQuote (quote : ascii) (src : string) : bool :=
  match src with
  | EmptyString => false
  | String c rest =>
      if Ascii.eqb c "\" then
        match rest with
        | EmptyString => false
        | String _ rest' => hasClosingQuote quote rest'
        end
      else if Ascii.eqb c quote then true
      else hasClosingQuote quote rest
  end.

(** Line and column of the character at [index], counted as the
    specification words it: every character advances the column, a
    newline resets the column and advances the line. *)
Fixpoint lineColumnFrom (src : string) (index ln col : nat) : nat * nat :=
  match index, src with
  | S i, String c rest =>
      if Ascii.eqb c "010" then lineColumnFrom rest i (ln + 1) 1
      else lineColumnFrom rest i ln (col + 1)
  | _, _ => (ln, col)
  end.

Definition lineColumnAt (source : string) (index : nat) : nat * nat :=
  lineColumnFrom source index 1 1.

Definition notEOF (token : Token) : Prop := type token <> T_eof.

(** ** Abstract syntax (ast.ts)

    JavaScript numbers are IEEE doubles; the compiler only converts a
    numeric lexeme to a number ([Number]) and a number back to text
    ([String]).  Both conversions are parameters of the development. *)

Section Compiler.

Context {number : Type}.
Variable Number : string -> number.
Variable String_number : number -> string.

(** [LiteralExpression]: the [literalType] tag and the [value] it
    governs ('number' | 'text' | 'bool'). *)
Inductive LiteralValue : Type :=
| LNumber (n : number)
| LText (s : string)
| LBool (b : bool).

(** '&&' | '||' *)
Inductive LogicalOperator : Type := OpAnd | OpOr.

(** 'class' | 'show' | 'hide' *)
Inductive ToggleMode : Type := ModeClass | ModeShow | ModeHide.

#[local] Unset Elimination Schemes.

Inductive Expression : Type :=
| Identifier (name : string)
| Literal (lit : LiteralValue)
| BinaryExpression (operator : string) (left right : Expression)
| LogicalExpression (operator : LogicalOperator) (left right : Expression)
| UnaryExpression (operator : string) (argument : Expression)
| CallExpression (callee : Expression) (arguments : list Expression)
| MemberExpression (object : Expression) (property : string)
| ListExpression (elements : list Expression)
| MapExpression (entries : list (string * Expression))
| LambdaExpression (params : list string) (body : LambdaBody)
| RenderExpression (template : string) (val : Expression)
| GetExpression (target : Expression) (property : string)
    (extra : option Expression)
| Group (expression : Expression)
with LambdaBody : Type :=
| BlockBody (block : BlockStatement)
| ExpressionBody (expression : Expression)
with BlockStatement : Type :=
| Block (body : list Statement)
with Statement : Type :=
| LetStatement (name : string) (val : Expression)
| AssignmentStatement (target val : Expression)
| ListenStatement (selector : Expression) (event : string)
    (body : BlockStatement)
| SetStatement (target : Expression) (property : string) (val : Expression)
    (extra : option Expression)
| AddStatement (target : Expression) (property : string) (val : Expression)
| ToggleStatement (target : Expression) (mode : ToggleMode)
    (argument : option Expression)
| SendStatement (url : Expression) (method : string) (payload : Expression)
    (chain : list ThenClause)
| TemplateStatement (name template : string)
| BindStatement (source selector : Expression) (property : string)
| CallJsStatement (functionName : Expression) (payload : option Expression)
| IfStatement (node : IfNode)
| ForStatement (variable : string) (iterable : Expression)
    (body : BlockStatement)
| ExpressionStatement (expression : Expression)
with IfNode : Type :=
| If (test : Expression) (consequent : BlockStatement) (alternate : Alternate)
with Alternate : Type :=
| NoAlternate
| ElseBlock (block : BlockStatement)
| ElseIf (node : IfNode)
with ThenClause : Type :=
| Then (params : list string) (body : BlockStatement).

#[local] Set Elimination Schemes.

Record Program := mkProgram { programBody : list Statement }.

Definition logicalOperatorText (op : LogicalOperator) : string :=
  match op with OpAnd => "&&" | OpOr => "||" end.

Definition toggleModeText (m : ToggleMode) : string :=
  match m with ModeClass => "class" | ModeShow => "show" | ModeHide => "hide" end.

(** ** Parser (parser.ts)

    The parser reads the token array through [position]; a parsing
    method is a function of the position that returns its result with
    the new position, throws, or runs out of fuel ([None]). *)

Section Parser.

Variable tokens : list Token.

Definition Parser (A : Type) : Type := nat -> option (Result (A * nat)).

Definition ret {A} (a : A) : Parser A := fun pos => Some (Ok (a, pos)).

Definition bind {A B} (m : Parser A) (k : A -> Parser B) : Parser B :=
  fun pos =>
    match m pos with
    | None => None
    | Some (Throw e) => Some (Throw e)
    | Some (Ok (a, pos')) => k a pos'
    end.

Definition outOfFuel {A} : Parser A := fun _ => None.

Notation "x <- m ;; k" := (bind m (fun x => k))
  (at level 61, m at next level, right associativity).
Notation "m ;;; k" := (bind m (fun _ => k))
  (at level 61, right associativity).

(** [throw this.error(message, token)] *)
Definition errorAt {A} (msg : string) (token : Token) : Parser A :=
  fun _ => Some (Throw (mkError msg (line token) (column token))).

Definition lastToken : Token := last tokens (mkToken T_eof "" 0 0).

Definition peek : Parser Token :=
  fun pos =>
    match nth_error tokens pos with
    | Some token => Some (Ok (token, pos))
    | None =>
        Some (Throw (mkError "Unexpected end of input"
                       (line lastToken) (column lastToken)))
    end.

(** [throw this.error(message)]: the token defaults to [this.peek()]. *)
Definition errorHere {A} (msg : string) : Parser A :=
  token <- peek ;; errorAt msg token.

(** [this.position += 1] *)
Definition next : Parser unit := fun pos => Some (Ok (tt, S pos)).

Definition tokenTypeText (ty : TokenType) : string :=
  match ty with
  | T_identifier => "identifier"
  | T_number => "number"
  | T_string => "string"
  | T_operator => "operator"
  | T_punctuation => "punctuation"
  | T_newline => "newline"
  | T_eof => "eof"
  end.

Definition tokenIs (ty : TokenType) (v : string) (token : Token) : bool :=
  TokenType_eqb (type token) ty && String.eqb (value token) v.

(** [this.is(type)] *)
Definition isType (ty : TokenType) : Parser bool :=
  token <- peek ;; ret (TokenType_eqb (type token) ty).

Definition peekIdentifier (v : string) : Parser bool :=
  token <- peek ;; ret (tokenIs T_identifier v token).

Definition peekOperator (v : string) : Parser bool :=
  token <- peek ;; ret (tokenIs T_operator v token).

Definition peekPunctuation (v : string) : Parser bool :=
  token <- peek ;; ret (tokenIs T_punctuation v token).

Definition consumeIdentifierToken : Parser Token :=
  token <- peek ;;
  if TokenType_eqb (type token) T_identifier
  then next ;;; ret token
  else errorAt "Expected identifier" token.

Definition consumeIdentifier (v : string) : Parser unit :=
  token <- consumeIdentifierToken ;;
  if String.eqb (value token) v then ret tt
  else errorAt ("Expected '" ++ v ++ "'") token.

Definition consumeIdentifierValue : Parser string :=
  token <- consumeIdentifierToken ;; ret (value token).

Definition consumeOperator (v : string) : Parser unit :=
  token <- peek ;;
  if tokenIs T_operator v token then next
  else errorAt ("Expected operator '" ++ v ++ "'") token.

Definition consumeType (ty : TokenType) : Parser Token :=
  token <- peek ;;
  if TokenType_eqb (type token) ty then next ;;; ret token
  else errorAt ("Expected " ++ tokenTypeText ty) token.

Definition consumePunctuation (v : string) : Parser unit :=
  token <- peek ;;
  if tokenIs T_punctuation v token then next
  else errorAt ("Expected '" ++ v ++ "'") token.

Definition consumeIfPunctuation (v : string) : Parser bool :=
  token <- peek ;;
  if tokenIs T_punctuation v token then next ;;; ret true
  else ret false.

(** [while (this.peek().type === 'newline') this.position += 1], run
    over the tokens from the current position on. *)
Fixpoint skipNewlinesFrom (rest : list Token) : Parser unit :=
  match rest with
  | [] => token <- peek ;; ret tt
  | token :: rest' =>
      if TokenType_eqb (type token) T_newline
      then next ;;; skipNewlinesFrom rest'
      else ret tt
  end.

Definition skipNewlines : Parser unit :=
  fun pos => skipNewlinesFrom (skipn pos tokens) pos.

(** The loop of [looksLikeAssignment] over [tokens[index..]]. *)
Fixpoint looksLikeAssignmentFrom (rest : list Token) (depth : nat) : bool :=
  match rest with
  | [] => false
  | token :: rest' =>
      if TokenType_eqb (type token) T_newline then false
      else
        let v := value token in
        let isPunct := TokenType_eqb (type token) T_punctuation in
        let opens := isPunct && hasString ["("; "["; "{"] v in
        let closes := isPunct && negb opens && hasString [")"; "]"; "}"] v in
        if closes && Nat.eqb depth 0 then false
        else
          let depth' :=
            if opens then depth + 1
            else if closes then depth - 1
            else depth in
          if Nat.eqb depth' 0 && tokenIs T_operator "=" token then true
          else if TokenType_eqb (type token) T_eof then false
          else looksLikeAssignmentFrom rest' depth'
  end.

Definition looksLikeAssignment : Parser bool :=
  fun pos => Some (Ok (looksLikeAssignmentFrom (skipn pos tokens) 0, pos)).

(** [value.slice(1, -1)] *)
Definition dropLast (s : string) : string :=
  substring 0 (String.length s - 1) s.

Definition slice_1_m1 (s : string) : string :=
  match s with
  | EmptyString => ""
  | String _ s' => dropLast s'
  end.

(** [do { params.push(consumeIdentifierValue()) } while (consumeIfPunctuation(','))];
    [n] bounds the number of iterations. *)
Fixpoint identifierListLoop (n : nat) (params : list string)
    : Parser (list string) :=
  match n with
  | O => outOfFuel
  | S n' =>
      name <- consumeIdentifierValue ;;
      more <- consumeIfPunctuation "," ;;
      if more then identifierListLoop n' (params ++ [name])%list
      else ret (params ++ [name])%list
  end.

Definition parseLambdaParameters : Parser (list string) :=
  arrow <- peekOperator "->" ;;
  if arrow then ret []
  else
    paren <- peekPunctuation "(" ;;
    if paren then
      consumePunctuation "(" ;;;
      close <- peekPunctuation ")" ;;
      params <- (if close then ret []
                 else identifierListLoop (List.length tokens) []) ;;
      consumePunctuation ")" ;;;
      ret params
    else
      name <- consumeIdentifierValue ;; ret [name].

Fixpoint mapM {A B} (f : A -> Parser B) (l : list A) : Parser (list B) :=
  match l with
  | [] => ret []
  | a :: l' => b <- f a ;; bs <- mapM f l' ;; ret (b :: bs)
  end.

(** [extractParams(group)], on [group.expression]. *)
Fixpoint extractParams (expr : Expression) : Parser (list string) :=
  match expr with
  | Identifier name => ret [name]
  | CallExpression _ _ => errorHere "Unexpected call in lambda parameters"
  | BinaryExpression operator _ _ =>
      if String.eqb operator ","
      then errorHere "Comma operator is not supported"
      else errorHere "Unsupported lambda parameters"
  | ListExpression elements =>
      mapM (fun el =>
              match el with
              | Identifier name => ret name
              | _ => errorHere "Lambda parameters must be identifiers"
              end) elements
  | MapExpression _ => errorHere "Lambda parameters must be identifiers"
  | Group inner => extractParams inner
  | _ => errorHere "Unsupported lambda parameters"
  end.

Definition parseTemplate : Parser Statement :=
  consumeIdentifier "template" ;;;
  name <- consumeIdentifierValue ;;
  consumeOperator "=" ;;;
  templateToken <- consumeType T_string ;;
  ret (TemplateStatement name (slice_1_m1 (value templateToken))).

(** A left-associative operator level:
    [while (peekOperator(op1) || ...) { operator = consumeType('operator').value;
       right = operand(); left = node(operator, left, right) }]. *)
Fixpoint operatorLoop (n : nat) (ops : list string)
    (operand : Parser Expression)
    (node : string -> Expression -> Expression -> Expression)
    (left : Expression) : Parser Expression :=
  match n with
  | O => outOfFuel
  | S n' =>
      token <- peek ;;
      if TokenType_eqb (type token) T_operator && hasString ops (value token)
      then
        opToken <- consumeType T_operator ;;
        right <- operand ;;
        operatorLoop n' ops operand node (node (value opToken) left right)
      else ret left
  end.

Definition logicalNode (operator : string) (left right : Expression)
    : Expression :=
  LogicalExpression (if String.eqb operator "&&" then OpAnd else OpOr)
    left right.

Definition hasExtra (property : string) : bool :=
  hasString ["attr"; "css"; "data"] property.


(** Bound on the iterations of a loop of the parser: every iteration
    consumes a token, and [peek] throws past the last one. *)
Definition loopFuel : nat := S (List.length tokens).

(** The parsing methods.  They are mutually recursive through
    [parseExpression], [parseBlock] and [parseStatement]; in this
    section these three stand for the recursive calls, and the knot is
    tied below, where [fuel] bounds the depth of the recursion. *)
Section Methods.

Variable parseExpression : Parser Expression.
Variable parseBlock : Parser BlockStatement.
Variable parseStatement : Parser Statement.

Definition parseLet : Parser Statement :=
  consumeIdentifier "let" ;;;
  name <- consumeIdentifierValue ;;
  consumeOperator "=" ;;;
  val <- parseExpression ;;
  ret (LetStatement name val).

Definition parseAssignment : Parser Statement :=
  target <- parseExpression ;;
  consumeOperator "=" ;;;
  val <- parseExpression ;;
  ret (AssignmentStatement target val).

Definition parseListen : Parser Statement :=
  consumeIdentifier "listen" ;;;
  selector <- parseExpression ;;
  eventToken <- consumeIdentifierToken ;;
  body <- parseBlock ;;
  ret (ListenStatement selector (value eventToken) body).

Definition parseSet : Parser Statement :=
  consumeIdentifier "set" ;;;
  target <- parseExpression ;;
  property <- consumeIdentifierValue ;;
  extra <- (if hasExtra property
            then e <- parseExpression ;; ret (Some e)
            else ret None) ;;
  consumeIdentifier "to" ;;;
  val <- parseExpression ;;
  ret (SetStatement target property val extra).

Definition parseAdd : Parser Statement :=
  consumeIdentifier "add" ;;;
  target <- parseExpression ;;
  property <- consumeIdentifierValue ;;
  consumeIdentifier "with" ;;;
  val <- parseExpression ;;
  ret (AddStatement target property val).

Definition parseToggle : Parser Statement :=
  consumeIdentifier "toggle" ;;;
  target <- parseExpression ;;
  modeToken <- consumeIdentifierToken ;;
  if String.eqb (value modeToken) "class" then
    argument <- parseExpression ;;
    ret (ToggleStatement target ModeClass (Some argument))
  else if String.eqb (value modeToken) "show" then
    ret (ToggleStatement target ModeShow None)
  else if String.eqb (value modeToken) "hide" then
    ret (ToggleStatement target ModeHide None)
  else
    errorAt ("Unknown toggle mode '" ++ value modeToken ++ "'") modeToken.

(** [while (!peekPunctuation('}')) { body.push(parseStatement()); skipNewlines() }] *)
Fixpoint parseBlockLoop (n : nat) (body : list Statement)
    : Parser (list Statement) :=
  match n with
  | O => outOfFuel
  | S n' =>
      close <- peekPunctuation "}" ;;
      if close then ret body
      else
        statement <- parseStatement ;;
        skipNewlines ;;;
        parseBlockLoop n' (body ++ [statement])%list
  end.

(** The method [parseBlock] itself. *)
Definition parseBlock_body : Parser BlockStatement :=
  consumePunctuation "{" ;;;
  skipNewlines ;;;
  body <- parseBlockLoop loopFuel [] ;;
  consumePunctuation "}" ;;;
  ret (Block body).

Definition parseBlockBody : Parser BlockStatement :=
  skipNewlines ;;;
  body <- parseBlockLoop loopFuel [] ;;
  ret (Block body).

Definition parseLambdaBlock : Parser (list string * BlockStatement) :=
  consumePunctuation "{" ;;;
  skipNewlines ;;;
  params <- parseLambdaParameters ;;
  consumeOperator "->" ;;;
  body <- parseBlockBody ;;
  consumePunctuation "}" ;;;
  ret (params, body).

Definition parseThenClause : Parser ThenClause :=
  consumeIdentifier "then" ;;;
  body <- parseLambdaBlock ;;
  ret (Then (fst body) (snd body)).

(** [while (true) { skipNewlines(); if (!peekIdentifier('then')) break;
      chain.push(parseThenClause()) }] *)
Fixpoint parseSendChain (n : nat) (chain : list ThenClause)
    : Parser (list ThenClause) :=
  match n with
  | O => outOfFuel
  | S n' =>
      skipNewlines ;;;
      more <- peekIdentifier "then" ;;
      if more then
        clause <- parseThenClause ;;
        parseSendChain n' (chain ++ [clause])%list
      else ret chain
  end.

Definition parseSend : Parser Statement :=
  consumeIdentifier "send" ;;;
  url <- parseExpression ;;
  method <- consumeIdentifierValue ;;
  payload <- parseExpression ;;
  chain <- parseSendChain loopFuel [] ;;
  ret (SendStatement url method payload chain).

Definition parseBind : Parser Statement :=
  consumeIdentifier "bind" ;;;
  source <- parseExpression ;;
  consumeIdentifier "to" ;;;
  selector <- parseExpression ;;
  property <- consumeIdentifierValue ;;
  ret (BindStatement source selector property).

Definition parseCallJs : Parser Statement :=
  consumeIdentifier "call" ;;;
  consumeIdentifier "js" ;;;
  functionName <- parseExpression ;;
  hasPayload <- peekIdentifier "with" ;;
  if hasPayload then
    consumeIdentifier "with" ;;;
    payload <- parseExpression ;;
    ret (CallJsStatement functionName (Some payload))
  else ret (CallJsStatement functionName None).

(** [parseIf] calls itself on [else if]; [n] bounds the length of the
    chain. *)
Fixpoint parseIf (n : nat) : Parser IfNode :=
  match n with
  | O => outOfFuel
  | S n' =>
      consumeIdentifier "if" ;;;
      test <- parseExpression ;;
      consequent <- parseBlock ;;
      hasElse <- peekIdentifier "else" ;;
      if hasElse then
        consumeIdentifier "else" ;;;
        elseIf <- peekIdentifier "if" ;;
        if elseIf then
          alternate <- parseIf n' ;;
          ret (If test consequent (ElseIf alternate))
        else
          alternate <- parseBlock ;;
          ret (If test consequent (ElseBlock alternate))
      else ret (If test consequent NoAlternate)
  end.

Definition parseFor : Parser Statement :=
  consumeIdentifier "for" ;;;
  variable <- consumeIdentifierValue ;;
  consumeIdentifier "in" ;;;
  iterable <- parseExpression ;;
  body <- parseBlock ;;
  ret (ForStatement variable iterable body).

(** The method [parseStatement] itself. *)
Definition parseStatement_body : Parser Statement :=
  token <- peek ;;
  if tokenIs T_identifier "let" token then parseLet
  else if tokenIs T_identifier "listen" token then parseListen
  else if tokenIs T_identifier "set" token then parseSet
  else if tokenIs T_identifier "add" token then parseAdd
  else if tokenIs T_identifier "toggle" token then parseToggle
  else if tokenIs T_identifier "send" token then parseSend
  else if tokenIs T_identifier "template" token then parseTemplate
  else if tokenIs T_identifier "bind" token then parseBind
  else if tokenIs T_identifier "call" token then parseCallJs
  else if tokenIs T_identifier "if" token then
    node <- parseIf loopFuel ;; ret (IfStatement node)
  else if tokenIs T_identifier "for" token then parseFor
  else
    assignment <- looksLikeAssignment ;;
    if assignment then parseAssignment
    else
      expression <- parseExpression ;;
      ret (ExpressionStatement expression).

(** [do { items.push(parseExpression()) } while (consumeIfPunctuation(','))] *)
Fixpoint parseExpressionsLoop (n : nat) (items : list Expression)
    : Parser (list Expression) :=
  match n with
  | O => outOfFuel
  | S n' =>
      item <- parseExpression ;;
      more <- consumeIfPunctuation "," ;;
      if more then parseExpressionsLoop n' (items ++ [item])%list
      else ret (items ++ [item])%list
  end.

Definition parseList : Parser Expression :=
  consumePunctuation "[" ;;;
  close <- peekPunctuation "]" ;;
  elements <- (if close then ret []
               else parseExpressionsLoop loopFuel []) ;;
  consumePunctuation "]" ;;;
  ret (ListExpression elements).

(** The [do ... while (consumeIfPunctuation(','))] loop of [parseMap]. *)
Fixpoint parseMapEntriesLoop (n : nat) (entries : list (string * Expression))
    : Parser (list (string * Expression)) :=
  match n with
  | O => outOfFuel
  | S n' =>
      keyToken <- peek ;;
      key <- (if TokenType_eqb (type keyToken) T_identifier then
                next ;;; ret (value keyToken)
              else if TokenType_eqb (type keyToken) T_string then
                next ;;; ret (slice_1_m1 (value keyToken))
              else errorAt "Expected map key" keyToken) ;;
      consumePunctuation ":" ;;;
      val <- parseExpression ;;
      more <- consumeIfPunctuation "," ;;
      if more then parseMapEntriesLoop n' (entries ++ [(key, val)])%list
      else ret (entries ++ [(key, val)])%list
  end.

Definition parseMap : Parser Expression :=
  consumePunctuation "{" ;;;
  close <- peekPunctuation "}" ;;
  entries <- (if close then ret []
              else parseMapEntriesLoop loopFuel []) ;;
  consumePunctuation "}" ;;;
  ret (MapExpression entries).

Definition parseRender : Parser Expression :=
  consumeIdentifier "render" ;;;
  nameToken <- peek ;;
  name <- (if TokenType_eqb (type nameToken) T_identifier then
             next ;;; ret (value nameToken)
           else if TokenType_eqb (type nameToken) T_string then
             next ;;; ret (slice_1_m1 (value nameToken))
           else errorAt "Expected template name" nameToken) ;;
  consumeIdentifier "with" ;;;
  val <- parseExpression ;;
  ret (RenderExpression name val).

Definition parseGet : Parser Expression :=
  consumeIdentifier "get" ;;;
  target <- parseExpression ;;
  property <- consumeIdentifierValue ;;
  extra <- (if hasExtra property
            then e <- parseExpression ;; ret (Some e)
            else ret None) ;;
  ret (GetExpression target property extra).

Definition parsePrimaryExpression : Parser Expression :=
  token <- peek ;;
  if TokenType_eqb (type token) T_identifier then
    if String.eqb (value token) "true" then
      next ;;; ret (Literal (LBool true))
    else if String.eqb (value token) "false" then
      next ;;; ret (Literal (LBool false))
    else if String.eqb (value token) "render" then parseRender
    else if String.eqb (value token) "get" then parseGet
    else next ;;; ret (Identifier (value token))
  else if TokenType_eqb (type token) T_number then
    next ;;; ret (Literal (LNumber (Number (value token))))
  else if TokenType_eqb (type token) T_string then
    next ;;; ret (Literal (LText (slice_1_m1 (value token))))
  else if tokenIs T_punctuation "(" token then
    consumePunctuation "(" ;;;
    expression <- parseExpression ;;
    consumePunctuation ")" ;;;
    ret (Group expression)
  else if tokenIs T_punctuation "[" token then parseList
  else if tokenIs T_punctuation "{" token then parseMap
  else errorAt "Unexpected token in expression" token.

(** The [while (true)] loop of [parseCallMemberExpression]. *)
Fixpoint parseCallMemberLoop (n : nat) (expression : Expression)
    : Parser Expression :=
  match n with
  | O => outOfFuel
  | S n' =>
      dot <- peekPunctuation "." ;;
      if dot then
        consumePunctuation "." ;;;
        property <- consumeIdentifierValue ;;
        parseCallMemberLoop n' (MemberExpression expression property)
      else
        paren <- peekPunctuation "(" ;;
        if paren then
          consumePunctuation "(" ;;;
          close <- peekPunctuation ")" ;;
          args <- (if close then ret []
                   else parseExpressionsLoop loopFuel []) ;;
          consumePunctuation ")" ;;;
          parseCallMemberLoop n' (CallExpression expression args)
        else ret expression
  end.

Definition parseCallMemberExpression : Parser Expression :=
  expression <- parsePrimaryExpression ;;
  parseCallMemberLoop loopFuel expression.

(** [parseUnaryExpression] calls itself after a prefix operator; [n]
    bounds the number of prefix operators. *)
Fixpoint parseUnaryExpression (n : nat) : Parser Expression :=
  match n with
  | O => outOfFuel
  | S n' =>
      token <- peek ;;
      if tokenIs T_operator "!" token || tokenIs T_operator "-" token then
        opToken <- consumeType T_operator ;;
        argument <- parseUnaryExpression n' ;;
        ret (UnaryExpression (value opToken) argument)
      else parseCallMemberExpression
  end.

Definition parseMultiplicativeExpression : Parser Expression :=
  left <- parseUnaryExpression loopFuel ;;
  operatorLoop loopFuel ["*"; "/"; "%"] (parseUnaryExpression loopFuel)
    BinaryExpression left.

Definition parseAdditiveExpression : Parser Expression :=
  left <- parseMultiplicativeExpression ;;
  operatorLoop loopFuel ["+"; "-"] parseMultiplicativeExpression
    BinaryExpression left.

Definition parseRelationalExpression : Parser Expression :=
  left <- parseAdditiveExpression ;;
  operatorLoop loopFuel [">"; ">="; "<"; "<="] parseAdditiveExpression
    BinaryExpression left.

Definition parseEqualityExpression : Parser Expression :=
  left <- parseRelationalExpression ;;
  operatorLoop loopFuel ["=="; "!="] parseRelationalExpression
    BinaryExpression left.

Definition parseLogicalExpression : Parser Expression :=
  left <- parseEqualityExpression ;;
  operatorLoop loopFuel ["&&"; "||"] parseEqualityExpression logicalNode left.

Definition parseLambdaBody : Parser LambdaBody :=
  brace <- peekPunctuation "{" ;;
  if brace then block <- parseBlock ;; ret (BlockBody block)
  else expression <- parseExpression ;; ret (ExpressionBody expression).

Definition parseLambdaExpression : Parser Expression :=
  arrow <- peekOperator "->" ;;
  if arrow then
    consumeOperator "->" ;;;
    body <- parseLambdaBody ;;
    ret (LambdaExpression [] body)
  else
    expression <- parseLogicalExpression ;;
    arrow' <- peekOperator "->" ;;
    if arrow' then
      match expression with
      | Identifier paramName =>
          consumeOperator "->" ;;;
          body <- parseLambdaBody ;;
          ret (LambdaExpression [paramName] body)
      | Group inner =>
          params <- extractParams inner ;;
          consumeOperator "->" ;;;
          body <- parseLambdaBody ;;
          ret (LambdaExpression params body)
      | _ => errorHere "Invalid lambda parameters"
      end
    else ret expression.

End Methods.

(** The knot: [parseExpression] is [parseLambdaExpression], and the
    three methods call each other one level down. *)
Fixpoint parseExpression (fuel : nat) : Parser Expression :=
  match fuel with
  | O => outOfFuel
  | S f =>
      parseLambdaExpression
        (fun pos => parseExpression f pos) (fun pos => parseBlock f pos)
  end
with parseBlock (fuel : nat) : Parser BlockStatement :=
  match fuel with
  | O => outOfFuel
  | S f => parseBlock_body (fun pos => parseStatement f pos)
  end
with parseStatement (fuel : nat) : Parser Statement :=
  match fuel with
  | O => outOfFuel
  | S f =>
      parseStatement_body
        (fun pos => parseExpression f pos) (fun pos => parseBlock f pos)
        (fun pos => parseStatement f pos)
  end.

(** The [while (!this.is(EOF))] loop of [parse]. *)
Fixpoint parseLoop (fuel : nat) (body : list Statement)
    : Parser (list Statement) :=
  match fuel with
  | O => outOfFuel
  | S f =>
      eof <- isType T_eof ;;
      if eof then ret body
      else
        skipNewlines ;;;
        eof' <- isType T_eof ;;
        if eof' then ret body
        else
          statement <- parseStatement f ;;
          skipNewlines ;;;
          parseLoop f (body ++ [statement])%list
  end.

(** Depth that covers every chain of nested calls on [tokens]: between
    two nested calls of [parseExpression] or [parseStatement] at least
    one token is consumed or one of the three methods is entered. *)
Definition parserFuel : nat := 3 * (List.length tokens + 1).

Definition run {A} (m : Parser A) : option (Result A) :=
  match m 0 with
  | None => None
  | Some (Throw e) => Some (Throw e)
  | Some (Ok (a, _)) => Some (Ok a)
  end.

End Parser.

(** [new Parser(source).parse()] *)
Definition parse (source : string) : option (Result Program) :=
  match tokenize source with
  | None => None
  | Some (Throw e) => Some (Throw e)
  | Some (Ok tokens) =>
      match run (parseLoop tokens (parserFuel tokens) []) with
      | None => None
      | Some (Throw e) => Some (Throw e)
      | Some (Ok body) => Some (Ok (mkProgram body))
      end
  end.

(** [parseExpression] on the tokens of [source], from the first token. *)
Definition parseExpressionOf (source : string) : option (Result Expression) :=
  match tokenize source with
  | None => None
  | Some (Throw e) => Some (Throw e)
  | Some (Ok tokens) => run (parseExpression tokens (parserFuel tokens))
  end.

(** ** JavaScript built-ins used by the generator and the driver *)

Definition LF : string := char "010".

(** [items.join(sep)] *)
Fixpoint join (sep : string) (items : list string) : string :=
  match items with
  | [] => ""
  | [x] => x
  | x :: rest => x ++ sep ++ join sep rest
  end.

(** ['  '.repeat(level)] *)
Fixpoint repeatString (s : string) (count : nat) : string :=
  match count with
  | O => ""
  | S n => s ++ repeatString s n
  end.

Definition hexDigit (n : nat) : string :=
  substring n 1 "0123456789abcdef".

(** [JSON.stringify] of a string: the quoted string, with the quote,
    the backslash and control characters escaped. *)
Definition quoteJSONChar (c : ascii) : string :=
  if Ascii.eqb c "008" then "\b"
  else if Ascii.eqb c "009" then "\t"
  else if Ascii.eqb c "010" then "\n"
  else if Ascii.eqb c "012" then "\f"
  else if Ascii.eqb c "013" then "\r"
  else if Ascii.eqb c "034" then "\" ++ DQ
  else if Ascii.eqb c "\" then "\\"
  else if Nat.ltb (nat_of_ascii c) 32 then
    "\u00" ++ hexDigit (nat_of_ascii c / 16) ++ hexDigit (nat_of_ascii c mod 16)
  else char c.

Fixpoint quoteJSONChars (s : string) : string :=
  match s with
  | EmptyString => ""
  | String c rest => quoteJSONChar c ++ quoteJSONChars rest
  end.

Definition JSON_stringify (s : string) : string :=
  DQ ++ quoteJSONChars s ++ DQ.

Definition upperChar (c : ascii) : ascii :=
  if inRange "a" "z" c then ascii_of_nat (nat_of_ascii c - 32) else c.

(** [s.toUpperCase()] on ASCII text. *)
Fixpoint toUpperCase (s : string) : string :=
  match s with
  | EmptyString => ""
  | String c rest => String (upperChar c) (toUpperCase rest)
  end.

(** [charMap[x] || x] for the characters matched by
    /[<>\b\f\n\r\t\0  /\\]/ (U+2028 and U+2029 are not ASCII). *)
Definition escapeUnsafeChar (c : ascii) : string :=
  if Ascii.eqb c "<" then "\u003C"
  else if Ascii.eqb c ">" then "\u003E"
  else if Ascii.eqb c "/" then "\u002F"
  else if Ascii.eqb c "\" then "\\"
  else if Ascii.eqb c "008" then "\b"
  else if Ascii.eqb c "012" then "\f"
  else if Ascii.eqb c "010" then "\n"
  else if Ascii.eqb c "013" then "\r"
  else if Ascii.eqb c "009" then "\t"
  else if Ascii.eqb c "000" then "\0"
  else char c.

Fixpoint escapeUnsafeChars (s : string) : string :=
  match s with
  | EmptyString => ""
  | String c rest => escapeUnsafeChar c ++ escapeUnsafeChars rest
  end.

Fixpoint allChars (p : ascii -> bool) (s : string) : bool :=
  match s with
  | EmptyString => true
  | String c rest => p c && allChars p rest
  end.

(** /^[A-Za-z_][A-Za-z0-9_]*$/.test(key) ? key : JSON.stringify(key) *)
Definition formatObjectKey (key : string) : string :=
  match key with
  | String c rest =>
      if (isLetter c || Ascii.eqb c "_")
         && allChars (fun d => isLetter d || isDigit d || Ascii.eqb d "_") rest
      then key
      else JSON_stringify key
  | EmptyString => JSON_stringify key
  end.

(** [text.split('\n')] *)
Fixpoint splitLines (text : string) : list string :=
  match text with
  | EmptyString => [""]
  | String c rest =>
      if Ascii.eqb c "010" then "" :: splitLines rest
      else
        match splitLines rest with
        | first :: others => String c first :: others
        | [] => [char c]
        end
  end.

(** ** Code generator (codegen.ts)

    The generator object: its output buffer and indentation level.  A
    method is a function of the generator that returns its result and
    the generator it leaves. *)

Record CodeGenerator := mkCodeGenerator {
  output : list string;
  indentLevel : nat
}.

Definition Gen (A : Type) : Type := CodeGenerator -> A * CodeGenerator.

Definition gret {A} (a : A) : Gen A := fun g => (a, g).

Definition gbind {A B} (m : Gen A) (k : A -> Gen B) : Gen B :=
  fun g => let (a, g') := m g in k a g'.

Notation "x <- m ;; k" := (gbind m (fun x => k))
  (at level 61, m at next level, right associativity).
Notation "m ;;; k" := (gbind m (fun _ => k))
  (at level 61, right associativity).

Definition getIndentLevel : Gen nat := fun g => (indentLevel g, g).

Definition setIndentLevel (level : nat) : Gen unit :=
  fun g => (tt, mkCodeGenerator (output g) level).

Definition indentString (level : nat) : string := repeatString "  " level.

Definition emitRaw (text : string) : Gen unit :=
  fun g => (tt, mkCodeGenerator (output g ++ [text])%list (indentLevel g)).

Definition emitLine (ln : string) : Gen unit :=
  level <- getIndentLevel ;;
  emitRaw (indentString level ++ ln ++ LF).

Definition capture (indent : nat) (fn : Gen unit) : Gen string :=
  fun g =>
    let previousOutput := output g in
    let previousIndent := indentLevel g in
    let (_, g') := fn (mkCodeGenerator [] indent) in
    let result := join "" (output g') in
    (result, mkCodeGenerator previousOutput previousIndent).

Definition emitCaptured (indent : nat) (fn : Gen unit) : Gen unit :=
  text <- capture indent fn ;; emitRaw text.

(** [for (const x of xs) f(x)] and [xs.map(f)] over generator methods. *)
Fixpoint forEach (actions : list (Gen unit)) : Gen unit :=
  match actions with
  | [] => gret tt
  | a :: rest => a ;;; forEach rest
  end.

Fixpoint mapGen {A} (actions : list (Gen A)) : Gen (list A) :=
  match actions with
  | [] => gret []
  | a :: rest => x <- a ;; xs <- mapGen rest ;; gret (x :: xs)
  end.

Definition precedenceForOperator (operator : string) : nat :=
  if hasString ["*"; "/"; "%"] operator then 6
  else if hasString ["+"; "-"] operator then 5
  else if hasString [">"; ">="; "<"; "<="] operator then 4
  else if hasString ["=="; "!="] operator then 3
  else 0.

Definition generateLiteral (lit : LiteralValue) : string :=
  match lit with
  | LText s => JSON_stringify s
  | LNumber n => String_number n
  | LBool true => "true"
  | LBool false => "false"
  end.

(** The methods of the generator take the generation of their
    sub-terms as arguments: [left p] is
    [this.generateExpression(expression.left, p)]. *)
Definition runtimeCall (fn : string) (left right : nat -> Gen string)
    : Gen string :=
  l <- left 0 ;;
  r <- right 0 ;;
  gret ("sprout.ops." ++ fn ++ "(" ++ l ++ ", " ++ r ++ ")").

Definition parenthesize (wrap : bool) (result : string) : string :=
  if wrap then "(" ++ result ++ ")" else result.

Definition generateBinary (operator : string) (left right : nat -> Gen string)
    (parentPrecedence : nat) : Gen string :=
  if String.eqb operator "+" then runtimeCall "add" left right
  else if String.eqb operator "-" then runtimeCall "subtract" left right
  else if String.eqb operator "==" then runtimeCall "equals" left right
  else if String.eqb operator "!=" then runtimeCall "notEquals" left right
  else
    let precedence := precedenceForOperator operator in
    l <- left precedence ;;
    r <- right (precedence + 1) ;;
    let result := l ++ " " ++ operator ++ " " ++ r in
    gret (parenthesize (Nat.ltb precedence parentPrecedence) result).

Definition generateLogical (operator : LogicalOperator)
    (left right : nat -> Gen string) (parentPrecedence : nat) : Gen string :=
  let precedence := match operator with OpOr => 1 | OpAnd => 2 end in
  l <- left precedence ;;
  r <- right (precedence + 1) ;;
  let result := l ++ " " ++ logicalOperatorText operator ++ " " ++ r in
  gret (parenthesize (Nat.ltb precedence parentPrecedence) result).

Definition generateUnary (operator : string) (argument : nat -> Gen string)
    : Gen string :=
  if String.eqb operator "-" then
    a <- argument 0 ;; gret ("sprout.ops.negate(" ++ a ++ ")")
  else if String.eqb operator "!" then
    a <- argument 0 ;; gret ("!(" ++ a ++ ")")
  else
    a <- argument 0 ;; gret (operator ++ a).

(** [generateLambda]: [block] generates the block body, [expression]
    the expression body, whichever the lambda has. *)
Definition generateLambda (params : list string)
    (body : Gen unit + Gen string) : Gen string :=
  let params := join ", " params in
  match body with
  | inl generateBlock =>
      level <- getIndentLevel ;;
      text <- capture (level + 1) generateBlock ;;
      level' <- getIndentLevel ;;
      gret ("(" ++ params ++ ") => {" ++ LF ++ text ++ indentString level' ++ "}")
  | inr generateBody =>
      text <- generateBody ;;
      gret ("(" ++ params ++ ") => " ++ text)
  end.

Definition generateGet (target : Gen string) (property : string)
    (extra : option (Gen string)) : Gen string :=
  t <- target ;;
  let property := JSON_stringify property in
  match extra with
  | Some generateExtra =>
      e <- generateExtra ;;
      gret ("sprout.get(" ++ t ++ ", " ++ property ++ ", " ++ e ++ ")")
  | None => gret ("sprout.get(" ++ t ++ ", " ++ property ++ ")")
  end.

Definition generateListen (selector : Gen string) (event : string)
    (body : Gen unit) : Gen unit :=
  sel <- selector ;;
  emitLine ("sprout.listen(" ++ sel ++ ", " ++ JSON_stringify event
            ++ ", (event) => {") ;;;
  level <- getIndentLevel ;;
  emitCaptured (level + 1) body ;;;
  emitLine "});".

Definition generateSet (target : Gen string) (property : string)
    (val : Gen string) (extra : option (Gen string)) : Gen unit :=
  t <- target ;;
  v <- val ;;
  let args := [t; JSON_stringify property; v] in
  args <- match extra with
          | Some generateExtra =>
              e <- generateExtra ;; gret (args ++ [e])%list
          | None => gret args
          end ;;
  emitLine ("sprout.set(" ++ join ", " args ++ ");").

Definition generateAdd (target : Gen string) (property : string)
    (val : Gen string) : Gen unit :=
  t <- target ;;
  v <- val ;;
  emitLine ("sprout.add(" ++ t ++ ", " ++ JSON_stringify property ++ ", "
            ++ v ++ ");").

Definition generateToggle (target : Gen string) (mode : ToggleMode)
    (argument : option (Gen string)) : Gen unit :=
  t <- target ;;
  arg <- match argument with
         | Some generateArgument =>
             a <- generateArgument ;; gret (", " ++ a)
         | None => gret ""
         end ;;
  emitLine ("sprout.toggle(" ++ t ++ ", "
            ++ JSON_stringify (toggleModeText mode) ++ arg ++ ");").

(** The callback of [statement.chain.forEach] in [generateSend]. *)
Definition generateThen (chainIndent : nat) (isLast : bool)
    (params : list string) (body : Gen unit) : Gen unit :=
  let params := join ", " params in
  text <- capture (chainIndent + 1) body ;;
  emitRaw (LF ++ indentString chainIndent ++ ".then((" ++ params ++ ") => {"
           ++ LF ++ text ++ indentString chainIndent ++ "})") ;;;
  if isLast then emitRaw "" else gret tt.

Fixpoint generateChain (chainIndent : nat)
    (chain : list (list string * Gen unit)) : Gen unit :=
  match chain with
  | [] => gret tt
  | (params, body) :: rest =>
      generateThen chainIndent (match rest with [] => true | _ => false end)
        params body ;;;
      generateChain chainIndent rest
  end.

Definition generateSend (url : Gen string) (method : string)
    (payload : Gen string) (chain : list (list string * Gen unit))
    : Gen unit :=
  u <- url ;;
  let method := JSON_stringify (toUpperCase method) in
  p <- payload ;;
  match chain with
  | [] => emitLine ("sprout.send(" ++ u ++ ", " ++ method ++ ", " ++ p ++ ");")
  | _ =>
      baseIndent <- getIndentLevel ;;
      let chainIndent := baseIndent + 1 in
      emitRaw (indentString baseIndent ++ "sprout.send(" ++ u ++ ", "
               ++ method ++ ", " ++ p ++ ")") ;;;
      generateChain chainIndent chain ;;;
      emitRaw (";" ++ LF) ;;;
      setIndentLevel baseIndent
  end.

Definition generateBind (source selector : Gen string) (property : string)
    : Gen unit :=
  src <- source ;;
  sel <- selector ;;
  let property := escapeUnsafeChars (JSON_stringify property) in
  emitLine ("sprout.bind(() => " ++ src ++ ", " ++ sel ++ ", " ++ property
            ++ ");").

Definition generateCallJs (functionName : Gen string)
    (payload : option (Gen string)) : Gen unit :=
  fn <- functionName ;;
  p <- match payload with
       | Some generatePayload => x <- generatePayload ;; gret (", " ++ x)
       | None => gret ""
       end ;;
  emitLine ("sprout.callJs(" ++ fn ++ p ++ ");").

(** [generateIf] up to its alternate: [alternate] generates it. *)
Definition generateIfHead (test : Gen string) (isElse : bool)
    (consequent : Gen unit) : Gen unit :=
  t <- test ;;
  let prefix := if isElse then "else " else "" in
  emitLine (prefix ++ "if (" ++ t ++ ") {") ;;;
  level <- getIndentLevel ;;
  emitCaptured (level + 1) consequent ;;;
  emitLine "}".

Definition generateElse (alternate : Gen unit) : Gen unit :=
  emitLine "else {" ;;;
  level <- getIndentLevel ;;
  emitCaptured (level + 1) alternate ;;;
  emitLine "}".

Definition generateFor (variable : string) (iterable : Gen string)
    (body : Gen unit) : Gen unit :=
  it <- iterable ;;
  emitLine ("for (const " ++ variable ++ " of sprout.iter(" ++ it ++ ")) {") ;;;
  level <- getIndentLevel ;;
  emitCaptured (level + 1) body ;;;
  emitLine "}".

Fixpoint generateExpression (expression : Expression) (parentPrecedence : nat)
    {struct expression} : Gen string :=
  match expression with
  | Literal lit => gret (generateLiteral lit)
  | Identifier name => gret name
  | BinaryExpression operator lhs rhs =>
      generateBinary operator
        (fun p => generateExpression lhs p)
        (fun p => generateExpression rhs p) parentPrecedence
  | LogicalExpression operator lhs rhs =>
      generateLogical operator
        (fun p => generateExpression lhs p)
        (fun p => generateExpression rhs p) parentPrecedence
  | UnaryExpression operator argument =>
      generateUnary operator (fun p => generateExpression argument p)
  | CallExpression callee arguments =>
      c <- generateExpression callee 100 ;;
      args <- mapGen (map (fun arg => generateExpression arg 0) arguments) ;;
      gret (c ++ "(" ++ join ", " args ++ ")")
  | MemberExpression object property =>
      o <- generateExpression object 100 ;;
      gret (o ++ "." ++ property)
  | ListExpression elements =>
      els <- mapGen (map (fun el => generateExpression el 0) elements) ;;
      gret ("[" ++ join ", " els ++ "]")
  | MapExpression entries =>
      es <- mapGen (map (fun entry =>
                           match entry with
                           | (key, val) =>
                               v <- generateExpression val 0 ;;
                               gret (formatObjectKey key ++ ": " ++ v)
                           end) entries) ;;
      gret ("{" ++ join ", " es ++ "}")
  | LambdaExpression params body =>
      generateLambda params
        match body with
        | BlockBody block => inl (fun g => generateBlock block g)
        | ExpressionBody e => inr (fun g => generateExpression e 0 g)
        end
  | RenderExpression template val =>
      v <- generateExpression val 0 ;;
      gret ("sprout.render(" ++ JSON_stringify template ++ ", " ++ v ++ ")")
  | GetExpression target property extra =>
      generateGet (generateExpression target 0) property
        match extra with
        | Some e => Some (fun g => generateExpression e 0 g)
        | None => None
        end
  | Group inner =>
      e <- generateExpression inner 0 ;; gret ("(" ++ e ++ ")")
  end

with generateStatement (statement : Statement) {struct statement} : Gen unit :=
  match statement with
  | LetStatement name val =>
      v <- generateExpression val 0 ;;
      emitLine ("let " ++ name ++ " = " ++ v ++ ";")
  | AssignmentStatement target val =>
      t <- generateExpression target 0 ;;
      v <- generateExpression val 0 ;;
      emitLine (t ++ " = " ++ v ++ ";")
  | ListenStatement selector event body =>
      generateListen (fun g => generateExpression selector 0 g) event
        (fun g => generateBlock body g)
  | SetStatement target property val extra =>
      generateSet (fun g => generateExpression target 0 g) property
        (fun g => generateExpression val 0 g)
        match extra with
        | Some e => Some (fun g => generateExpression e 0 g)
        | None => None
        end
  | AddStatement target property val =>
      generateAdd (fun g => generateExpression target 0 g) property
        (fun g => generateExpression val 0 g)
  | ToggleStatement target mode argument =>
      generateToggle (fun g => generateExpression target 0 g) mode
        match argument with
        | Some a => Some (fun g => generateExpression a 0 g)
        | None => None
        end
  | SendStatement url method payload chain =>
      generateSend (fun g => generateExpression url 0 g) method
        (fun g => generateExpression payload 0 g)
        (map (fun clause =>
                match clause with
                | Then params body => (params, fun g => generateBlock body g)
                end) chain)
  | TemplateStatement name template =>
      emitLine ("sprout.defineTemplate(" ++ JSON_stringify name ++ ", "
                ++ JSON_stringify template ++ ");")
  | BindStatement source selector property =>
      generateBind (fun g => generateExpression source 0 g)
        (fun g => generateExpression selector 0 g) property
  | CallJsStatement functionName payload =>
      generateCallJs (fun g => generateExpression functionName 0 g)
        match payload with
        | Some p => Some (fun g => generateExpression p 0 g)
        | None => None
        end
  | IfStatement node => generateIf node false
  | ForStatement variable iterable body =>
      generateFor variable (fun g => generateExpression iterable 0 g)
        (fun g => generateBlock body g)
  | ExpressionStatement expression =>
      e <- generateExpression expression 0 ;;
      emitLine (e ++ ";")
  end

with generateBlock (block : BlockStatement) {struct block} : Gen unit :=
  match block with
  | Block body =>
      forEach (map (fun statement g => generateStatement statement g) body)
  end

with generateIf (node : IfNode) (isElse : bool) {struct node} : Gen unit :=
  match node with
  | If test consequent alternate =>
      generateIfHead (fun g => generateExpression test 0 g) isElse
        (fun g => generateBlock consequent g) ;;;
      match alternate with
      | NoAlternate => gret tt
      | ElseIf node' => generateIf node' true
      | ElseBlock block => generateElse (fun g => generateBlock block g)
      end
  end.

(** [new CodeGenerator().generate(program)] *)
Definition generate (program : Program) : string :=
  let (_, g) :=
    forEach (map (fun statement g => generateStatement statement g)
               (programBody program))
      (mkCodeGenerator [] 0) in
  join "" (output g).

(** ** Driver (index.ts) *)

Record CompileResult := mkCompileResult { code : string }.

Definition prelude : string :=
  join LF
    ["Sprout.run((sprout) => {";
     "  const state = sprout.state;";
     "  const std = sprout.std;";
     "  const { time, random, list, json, url } = std;";
     ""].

(** [(line, index, array) => !(line === '' && index === array.length - 1)] *)
Fixpoint dropTrailingEmpty (lines : list string) : list string :=
  match lines with
  | [] => []
  | [last] => if String.eqb last "" then [] else [last]
  | ln :: rest => ln :: dropTrailingEmpty rest
  end.

Definition indentLines (text : string) (level : nat) : string :=
  if String.eqb text "" then ""
  else
    let prefix := repeatString "  " level in
    join LF
      (map (fun ln => if String.eqb ln "" then ln else prefix ++ ln)
         (dropTrailingEmpty (splitLines text)))
    ++ LF.

Definition compileSprout (source : string) : option (Result CompileResult) :=
  match parse source with
  | None => None
  | Some (Throw e) => Some (Throw e)
  | Some (Ok program) =>
      let body := generate program in
      let indentedBody := indentLines body 1 in
      Some (Ok (mkCompileResult (prelude ++ indentedBody ++ "});" ++ LF)))
  end.

(** *** What the parser accepts as the parameters of a lambda

    The inner expression of a group reduces to a parameter list when it
    is an identifier, a list literal of identifiers, or a group that
    does. *)
Fixpoint identifierNames (elements : list Expression) : option (list string) :=
  match elements with
  | [] => Some []
  | Identifier name :: rest =>
      match identifierNames rest with
      | Some names => Some (name :: names)
      | None => None
      end
  | _ :: _ => None
  end.

Fixpoint lambdaParams (inner : Expression) : option (list string) :=
  match inner with
  | Identifier name => Some [name]
  | ListExpression elements => identifierNames elements
  | Group inner' => lambdaParams inner'
  | _ => None
  end.

(** *** Termination of the parser

    [p] at [pos] returns or throws (it does not run out of fuel), and
    a result satisfies [Q]. *)
Definition returns {A} (p : Parser A) (pos : nat) (Q : A -> nat -> Prop)
    : Prop :=
  exists r, p pos = Some r /\
    match r with
    | Ok (a, pos') => Q a pos'
    | Throw _ => True
    end.

(** [p] at [pos] returns or throws, and a result has consumed a token. *)
Definition advances (tokens : list Token) {A} (p : Parser A) (pos : nat)
    : Prop :=
  returns p pos (fun _ pos' => pos < pos' /\ pos' <= List.length tokens).

Definition advancesFrom (tokens : list Token) {A} (p : Parser A) (lo : nat)
    : Prop :=
  forall pos, lo <= pos -> advances tokens p pos.

(** [p] at [pos] returns or throws, and a result is at [pos] or after. *)
Definition proceeds (tokens : list Token) {A} (p : Parser A) (pos : nat)
    : Prop :=
  returns p pos (fun _ pos' => pos <= pos' /\ pos' <= List.length tokens).

(** *** What the generator is specified to emit *)


(** A method that leaves the generator as it found it. *)
Definition pure {A} (m : Gen A) : Prop := forall g, snd (m g) = g.

(** [m] only pushes text on the output buffer. *)
Definition appends (m : Gen unit) : Prop :=
  forall g, exists pieces,
    m g = (tt, mkCodeGenerator (output g ++ pieces)%list (indentLevel g)).

(** From [g] to [g'] the text [text] was pushed on the output buffer,
    in one or more pieces, and the indentation level is the same. *)
Definition emitted (g g' : CodeGenerator) (text : string) : Prop :=
  exists pieces,
    output g' = (output g ++ pieces)%list
    /\ join "" pieces = text
    /\ indentLevel g' = indentLevel g.

(** The text of [fn] rendered in a buffer of its own at [indent]. *)
Definition rendered (indent : nat) (fn : Gen unit) : string :=
  join "" (output (snd (fn (mkCodeGenerator [] indent)))).

(** A continuation clause at [chainIndent]. *)
Definition thenText (chainIndent : nat) (clause : ThenClause) : string :=
  match clause with
  | Then params body =>
      LF ++ indentString chainIndent ++ ".then((" ++ join ", " params
      ++ ") => {" ++ LF
      ++ rendered (chainIndent + 1) (generateBlock body)
      ++ indentString chainIndent ++ "})"
  end.

(** The call [sprout.send(url, METHOD, payload)], generated in [g]. *)
Definition sendCallText (g : CodeGenerator) (url : Expression)
    (method : string) (payload : Expression) : string :=
  "sprout.send(" ++ fst (generateExpression url 0 g) ++ ", "
  ++ JSON_stringify (toUpperCase method) ++ ", "
  ++ fst (generateExpression payload 0 g) ++ ")".

(** [text] ends a line. *)
Definition endsWithLF (text : string) : Prop := exists s, text = s ++ LF.

(** [m] only pushes text on the output buffer, and the text ends a
    line. *)
Definition appendsLine (m : Gen unit) : Prop :=
  forall g, exists pieces,
    m g = (tt, mkCodeGenerator (output g ++ pieces)%list (indentLevel g))
    /\ endsWithLF (join "" pieces).




(** The four lines of the prelude and the epilogue of the driver. *)
Definition preludeLines : list string :=
  ["Sprout.run((sprout) => {";
   "  const state = sprout.state;";
   "  const std = sprout.std;";
   "  const { time, random, list, json, url } = std;"].

Definition epilogue : string := "});" ++ LF.

(** Lines put back into a text, each followed by a newline. *)
Fixpoint unlines (lines : list string) : string :=
  match lines with
  | [] => ""
  | ln :: rest => ln ++ LF ++ unlines rest
  end.

Definition noNewline (s : string) : Prop := ~ In "010"%char (list_ascii_of_string s).

(** A line indented one level; an empty line stays empty. *)
Definition indentLine (ln : string) : string :=
  if String.eqb ln "" then ln else "  " ++ ln.

(** *** What the tokens keep of the source

    The token values in order, each after its gap: the text between
    two tokens that the tokenizer skipped. *)
Fixpoint weave (gaps : list string) (tokens : list Token) : string :=
  match gaps, tokens with
  | gap :: gaps', token :: tokens' => gap ++ value token ++ weave gaps' tokens'
  | _, _ => ""
  end.

(** A text of blanks, tabs and carriage returns. *)
Definition blank (s : string) : bool := allChars isWhitespace s.

(** The token values one after the other. *)
Definition tokenText (tokens : list Token) : string :=
  join "" (map value tokens).

Definition isNewlineToken (token : Token) : bool :=
  TokenType_eqb (type token) T_newline.

Definition isStringToken (token : Token) : bool :=
  TokenType_eqb (type token) T_string.

Definition newlinesIn (tokens : list Token) : nat :=
  List.length (filter isNewlineToken tokens).

(** [s] is not empty and its last character is [c]. *)
Fixpoint endsWith (c : ascii) (s : string) : bool :=
  match s with
  | EmptyString => false
  | String d EmptyString => Ascii.eqb d c
  | String _ rest => endsWith c rest
  end.

(** Digits, then nothing or a dot and digits. *)
Fixpoint fractionText (s : string) : bool :=
  match s with
  | EmptyString => true
  | String c rest =>
      if isDigit c then fractionText rest
      else Ascii.eqb c "." && allChars isDigit rest
  end.

Definition numberText (s : string) : bool :=
  match s with
  | EmptyString => false
  | String c rest => isDigit c && fractionText rest
  end.

Definition operatorTexts : list string :=
  "->" :: pairedOperators ++ map char singleCharOperators.

(** The text that a token of each type holds. *)
Definition tokenShape (token : Token) : bool :=
  let v := value token in
  match type token with
  | T_identifier =>
      match v with
      | String c rest => isIdentifierStart c && allChars isIdentifierPart rest
      | EmptyString => false
      end
  | T_number => numberText v
  | T_string =>
      match v with
      | String q rest => isQuote q && endsWith q rest
      | EmptyString => false
      end
  | T_operator => hasString operatorTexts v
  | T_punctuation =>
      match v with
      | String c EmptyString => hasChar punctuationChars c
      | _ => false
      end
  | T_newline => String.eqb v (char "010")
  | T_eof => String.eqb v ""
  end.

(** Where the line and column counters stand after a token pushed at
    [ln], [col]: a string literal counts one column less than its
    length, its opening quote. *)
Definition countersAfter (token : Token) (ln col : nat) : nat * nat :=
  if isNewlineToken token then (ln + 1, 1)
  else if isStringToken token then (ln, col + (String.length (value token) - 1))
  else (ln, col + String.length (value token)).

(** The counters after [tokens], pushed from line 1, column 1 on. *)
Definition positionAfter (tokens : list Token) : nat * nat :=
  fold_left (fun position token =>
               countersAfter token (fst position) (snd position))
    tokens (1, 1).

(** Neither a blank nor a quote. *)
Definition plainChar (c : ascii) : bool := negb (isWhitespace c || isQuote c).

Definition notLF (c : ascii) : bool := negb (Ascii.eqb c "010").

(** A blank or a newline. *)
Definition blankChar (c : ascii) : bool := Ascii.eqb c "010" || isWhitespace c.

(** Up to the position of [t] the source is the values of [tokens] one
    after the other, what is unread has neither blank nor quote, the
    line and column counters are those of the next character, and every
    token carries the line and column of its first character. *)
Definition exactSoFar (source : string) (t : Tokenizer) (tokens : list Token)
    : Prop :=
  source = tokenText tokens ++ unread t
  /\ allChars plainChar (unread t) = true
  /\ lineColumnFrom (tokenText tokens) (String.length (tokenText tokens)) 1 1
     = (curLine t, curColumn t)
  /\ forall pre token post,
       tokens = (pre ++ token :: post)%list ->
       lineColumnFrom (tokenText pre) (String.length (tokenText pre)) 1 1
       = (line token, column token).

(** The unread input starts with no character of the class [p]. *)
Definition stopsAt (p : ascii -> bool) (src : string) : bool :=
  match src with
  | EmptyString => true
  | String c _ => negb (p c)
  end.

(** *** Where a token ends

    A character that continues no token and completes no operator: it
    is no identifier character, so no digit and no dot, and it is
    neither [=] nor [>]. *)
Definition boundary (c : ascii) : bool :=
  negb (isIdentifierPart c || Ascii.eqb c "=" || Ascii.eqb c ">").

(** What a step of the tokenizer can make of the input that follows
    the characters it takes: the next character, unless the input ends
    there or goes on with a boundary. *)
Definition seen (src : string) : option ascii :=
  match src with
  | EmptyString => None
  | String c _ => if boundary c then None else Some c
  end.

(** *** Where the parser throws

    The error [e] carries the line and column of a token of [tokens],
    and it is not the error of [peek] past the last token. *)
Definition atToken (tokens : list Token) (e : Error) : Prop :=
  (exists token,
     In token tokens
     /\ errLine e = line token /\ errColumn e = column token)
  /\ message e <> "Unexpected end of input".

(** [p] at [pos]: a result satisfies [Q], and an error is at a token. *)
Definition sound (tokens : list Token) {A} (p : Parser A) (pos : nat)
    (Q : A -> nat -> Prop) : Prop :=
  forall r, p pos = Some r ->
    match r with
    | Ok (a, pos') => Q a pos'
    | Throw e => atToken tokens e
    end.

(** [p] at [pos] leaves the position on a token. *)
Definition staysInside (tokens : list Token) {A} (p : Parser A) (pos : nat)
    : Prop :=
  sound tokens p pos (fun _ pos' => pos' < List.length tokens).

(** [p] leaves the position on a token wherever it starts on one. *)
Definition keepsInside (tokens : list Token) {A} (p : Parser A) : Prop :=
  forall pos, pos < List.length tokens -> staysInside tokens p pos.

(** A token that is not the end-of-input token is not the last one. *)
Definition endsInEOF (tokens : list Token) : Prop :=
  forall i token,
    nth_error tokens i = Some token -> type token <> T_eof ->
    S i < List.length tokens.

(** *** Operators of one level

    The binary levels of the expression grammar, tightest first: the
    method, the method that parses its operands, its operators and the
    node it builds. *)
Record BinaryLevel := mkBinaryLevel {
  levelMethod : Parser Expression;
  levelOperand : Parser Expression;
  levelOperators : list string;
  levelNode : string -> Expression -> Expression -> Expression
}.

Definition binaryLevels (tokens : list Token)
    (parseExpression : Parser Expression) : list BinaryLevel :=
  [mkBinaryLevel
     (parseMultiplicativeExpression tokens parseExpression)
     (parseUnaryExpression tokens parseExpression (loopFuel tokens))
     ["*"; "/"; "%"] BinaryExpression;
   mkBinaryLevel
     (parseAdditiveExpression tokens parseExpression)
     (parseMultiplicativeExpression tokens parseExpression)
     ["+"; "-"] BinaryExpression;
   mkBinaryLevel
     (parseRelationalExpression tokens parseExpression)
     (parseAdditiveExpression tokens parseExpression)
     [">"; ">="; "<"; "<="] BinaryExpression;
   mkBinaryLevel
     (parseEqualityExpression tokens parseExpression)
     (parseRelationalExpression tokens parseExpression)
     ["=="; "!="] BinaryExpression;
   mkBinaryLevel
     (parseLogicalExpression tokens parseExpression)
     (parseEqualityExpression tokens parseExpression)
     ["&&"; "||"] logicalNode].

(** The token at [pos] is an operator of [ops]. *)
Definition operatorAt (tokens : list Token) (ops : list string) (pos : nat)
    (operator : string) : Prop :=
  exists token,
    nth_error tokens pos = Some token
    /\ type token = T_operator /\ value token = operator
    /\ In operator ops.

(** From [pos] to [pos'] the tokens are operators of [ops], each
    followed by an operand that [operand] returns, and the token at
    [pos'] is no operator of [ops]: [steps] are the operators with
    their operands. *)
Fixpoint operatorSteps (tokens : list Token) (ops : list string)
    (operand : Parser Expression) (pos : nat)
    (steps : list (string * Expression)) (pos' : nat) : Prop :=
  match steps with
  | [] =>
      pos' = pos
      /\ exists token,
           nth_error tokens pos = Some token
           /\ TokenType_eqb (type token) T_operator
              && hasString ops (value token) = false
  | (operator, rhs) :: steps' =>
      operatorAt tokens ops pos operator
      /\ exists next,
           operand (S pos) = Some (Ok (rhs, next))
           /\ operatorSteps tokens ops operand next steps' pos'
  end.

(** [node opn (... (node op1 first r1) ...) rn] *)
Definition chainLeft
    (node : string -> Expression -> Expression -> Expression)
    (first : Expression) (steps : list (string * Expression)) : Expression :=
  fold_left (fun acc step => node (fst step) acc (snd step)) steps first.

(** *** Parameters of a continuation clause

    The tokens [rest] start with the identifiers [names], separated by
    commas and followed by a closing parenthesis. *)
Fixpoint parameterList (names : list string) (rest : list Token) : bool :=
  match names, rest with
  | [name], identifier :: close :: _ =>
      tokenIs T_identifier name identifier && tokenIs T_punctuation ")" close
  | name :: (_ :: _) as names', identifier :: comma :: rest' =>
      tokenIs T_identifier name identifier && tokenIs T_punctuation "," comma
      && parameterList names' rest'
  | _, _ => false
  end.

(** *** What a parsed program is made of

    The text of an identifier token. *)
Definition identifierText (s : string) : bool :=
  match s with
  | String c rest => isIdentifierStart c && allChars isIdentifierPart rest
  | EmptyString => false
  end.

(** The operators of the five binary levels that build a
    [BinaryExpression], and the prefix operators. *)
Definition binaryOperators : list string :=
  ["*"; "/"; "%"; "+"; "-"; ">"; ">="; "<"; "<="; "=="; "!="].

Definition unaryOperators : list string := ["!"; "-"].

(** An expression as the parser builds it: every name is the text of
    an identifier token, every operator is one that the grammar reads,
    and a [get] carries an extra expression exactly when its property
    is [attr], [css] or [data].  Likewise for statements: a [set]
    carries an extra expression exactly for these properties, and a
    [toggle] carries an argument exactly in mode [class]. *)
Fixpoint wellFormedExpression (expression : Expression) : bool :=
  match expression with
  | Identifier name => identifierText name
  | Literal _ => true
  | BinaryExpression operator lhs rhs =>
      hasString binaryOperators operator
      && wellFormedExpression lhs && wellFormedExpression rhs
  | LogicalExpression _ lhs rhs =>
      wellFormedExpression lhs && wellFormedExpression rhs
  | UnaryExpression operator argument =>
      hasString unaryOperators operator && wellFormedExpression argument
  | CallExpression callee arguments =>
      wellFormedExpression callee
      && forallb (fun arg => wellFormedExpression arg) arguments
  | MemberExpression object property =>
      wellFormedExpression object && identifierText property
  | ListExpression elements =>
      forallb (fun el => wellFormedExpression el) elements
  | MapExpression entries =>
      forallb (fun entry =>
                 match entry with
                 | (_, val) => wellFormedExpression val
                 end) entries
  | LambdaExpression params body =>
      forallb identifierText params
      && match body with
         | BlockBody block => wellFormedBlock block
         | ExpressionBody e => wellFormedExpression e
         end
  | RenderExpression _ val => wellFormedExpression val
  | GetExpression target property extra =>
      wellFormedExpression target && identifierText property
      && match extra with
         | Some e => hasExtra property && wellFormedExpression e
         | None => negb (hasExtra property)
         end
  | Group inner => wellFormedExpression inner
  end

with wellFormedStatement (statement : Statement) : bool :=
  match statement with
  | LetStatement name val => identifierText name && wellFormedExpression val
  | AssignmentStatement target val =>
      wellFormedExpression target && wellFormedExpression val
  | ListenStatement selector event body =>
      wellFormedExpression selector && identifierText event
      && wellFormedBlock body
  | SetStatement target property val extra =>
      wellFormedExpression target && identifierText property
      && wellFormedExpression val
      && match extra with
         | Some e => hasExtra property && wellFormedExpression e
         | None => negb (hasExtra property)
         end
  | AddStatement target property val =>
      wellFormedExpression target && identifierText property
      && wellFormedExpression val
  | ToggleStatement target mode argument =>
      wellFormedExpression target
      && match mode, argument with
         | ModeClass, Some a => wellFormedExpression a
         | ModeShow, None | ModeHide, None => true
         | _, _ => false
         end
  | SendStatement url method payload chain =>
      wellFormedExpression url && identifierText method
      && wellFormedExpression payload
      && forallb (fun clause =>
                    match clause with
                    | Then params body =>
                        forallb identifierText params && wellFormedBlock body
                    end) chain
  | TemplateStatement name _ => identifierText name
  | BindStatement source selector property =>
      wellFormedExpression source && wellFormedExpression selector
      && identifierText property
  | CallJsStatement functionName payload =>
      wellFormedExpression functionName
      && match payload with
         | Some p => wellFormedExpression p
         | None => true
         end
  | IfStatement node => wellFormedIf node
  | ForStatement variable iterable body =>
      identifierText variable && wellFormedExpression iterable
      && wellFormedBlock body
  | ExpressionStatement expression => wellFormedExpression expression
  end

with wellFormedBlock (block : BlockStatement) : bool :=
  match block with
  | Block body => forallb (fun statement => wellFormedStatement statement) body
  end

with wellFormedIf (node : IfNode) : bool :=
  match node with
  | If test consequent alternate =>
      wellFormedExpression test && wellFormedBlock consequent
      && match alternate with
         | NoAlternate => true
         | ElseBlock block => wellFormedBlock block
         | ElseIf node' => wellFormedIf node'
         end
  end.

(** [p] at [pos]: a result satisfies [Q]. *)
Definition yields {A} (p : Parser A) (pos : nat) (Q : A -> nat -> Prop)
    : Prop :=
  forall a pos', p pos = Some (Ok (a, pos')) -> Q a pos'.

(** A [then] clause of a [send] statement, as [wellFormedStatement]
    checks it. *)
Definition wellFormedThen (clause : ThenClause) : bool :=
  match clause with
  | Then params body => forallb identifierText params && wellFormedBlock body
  end.

Definition wellFormedBody (body : LambdaBody) : bool :=
  match body with
  | BlockBody block => wellFormedBlock block
  | ExpressionBody e => wellFormedExpression e
  end.

(** The extra expression of [get] and [set]: there exactly when the
    property is [attr], [css] or [data]. *)
Definition wellFormedExtra (property : string) (extra : option Expression)
    : bool :=
  match extra with
  | Some e => hasExtra property && wellFormedExpression e
  | None => negb (hasExtra property)
  end.

(** *** What the generated text depends on

    The characters that [escapeUnsafeChars] takes out of a text. *)
Definition unsafeChar (c : ascii) : bool :=
  hasChar ["<"; ">"; "/"; "008"; "012"; "010"; "013"; "009"; "000"]%char c.

(** [m] returns what it returns on an empty buffer at the same
    indentation level, and leaves the generator as it found it. *)
Definition stateless {A} (m : Gen A) : Prop :=
  forall g, m g = (fst (m (mkCodeGenerator [] (indentLevel g))), g).

(** [m] pushes the text that it renders in a buffer of its own at the
    same indentation level, and nothing else. *)
Definition textOnly (m : Gen unit) : Prop :=
  forall g, exists pieces,
    m g = (tt, mkCodeGenerator (output g ++ pieces)%list (indentLevel g))
    /\ join "" pieces = rendered (indentLevel g) m.

(** *** Indentation by any level

    A line indented [level] levels; an empty line stays empty. *)
Definition indentBy (level : nat) (ln : string) : string :=
  if String.eqb ln "" then ln else repeatString "  " level ++ ln.

(** * Properties

    ** Strings *)

Lemma append_nil_r (s : string) : s ++ "" = s.
Proof. induction s; simpl; congruence. Qed.

Lemma append_assoc (a b c : string) : (a ++ b) ++ c = a ++ (b ++ c).
Proof. induction a; simpl; congruence. Qed.

Lemma length_append (a b : string) :
  String.length (a ++ b) = String.length a + String.length b.
Proof. induction a; simpl; congruence. Qed.

Lemma join_empty_app (a b : list string) :
  join "" (a ++ b) = join "" a ++ join "" b.
Proof.
  induction a as [|x a IH]; simpl; [reflexivity|].
  destruct a as [|y a].
  - simpl. destruct b; simpl; [now rewrite append_nil_r | reflexivity].
  - simpl in *. rewrite IH. now rewrite append_assoc.
Qed.

(** ** Tokenizer *)

Lemma readWhile_app p (s : string) :
  fst (readWhile p s) ++ snd (readWhile p s) = s.
Proof.
  induction s as [|c s IH]; simpl; [reflexivity|].
  destruct (p c); [|reflexivity].
  destruct (readWhile p s) as [v r]. simpl in *. congruence.
Qed.

Lemma readWhile_suffix p (s : string) :
  exists consumed, s = consumed ++ snd (readWhile p s).
Proof. exists (fst (readWhile p s)). symmetry. apply readWhile_app. Qed.

Lemma readWhile_head p c (rest : string) :
  p c = true -> snd (readWhile p (String c rest)) = snd (readWhile p rest).
Proof. intros H. simpl. rewrite H. now destruct (readWhile p rest). Qed.

(** [readString] succeeds exactly when the literal is closed; when it
    is not, the error carries the line and column held when the
    opening quote was met. *)
Lemma readStringLoop_spec quote startLine startColumn n :
  forall src, String.length src <= n -> forall val col,
    (hasClosingQuote quote src = true ->
       exists tok t consumed,
         readStringLoop quote val startLine startColumn src col = Ok (tok, t)
         /\ src = consumed ++ unread t /\ type tok = T_string)
    /\ (hasClosingQuote quote src = false ->
         readStringLoop quote val startLine startColumn src col
         = Throw (mkError "Unterminated string literal" startLine startColumn)).
Proof.
  induction n as [|n IH]; intros src Hlen val col.
  - destruct src; simpl in *; [|lia]. split; [discriminate | reflexivity].
  - destruct src as [|c rest]; simpl in *.
    + split; [discriminate | reflexivity].
    + destruct (Ascii.eqb c "\").
      * destruct rest as [|c' rest'].
        -- split; [discriminate | reflexivity].
        -- simpl in Hlen.
           destruct (IH rest' ltac:(lia) (val ++ char c ++ char c') (col + 2))
             as [Hok Hthrow].
           split; [|exact Hthrow].
           intros H. destruct (Hok H) as (tok & t & consumed & E & Hs & Ht).
           exists tok, t, (String c (String c' consumed)).
           simpl. now rewrite <- Hs.
      * destruct (Ascii.eqb c quote).
        -- split; [|discriminate]. intros _.
           eexists _, _, (char c). split; [reflexivity|]. now split.
        -- destruct (IH rest ltac:(lia) (val ++ char c) (col + 1))
             as [Hok Hthrow].
           split; [|exact Hthrow].
           intros H. destruct (Hok H) as (tok & t & consumed & E & Hs & Ht).
           exists tok, t, (String c consumed). simpl. now rewrite <- Hs.
Qed.

Lemma readString_closed quote rest ln col :
  hasClosingQuote quote rest = true ->
  exists tok t consumed,
    readString quote rest ln col = Ok (tok, t)
    /\ rest = consumed ++ unread t /\ type tok = T_string.
Proof.
  intros H. unfold readString.
  now apply (readStringLoop_spec quote ln col (n := String.length rest)).
Qed.

Lemma readString_unterminated quote rest ln col :
  hasClosingQuote quote rest = false ->
  readString quote rest ln col
  = Throw (mkError "Unterminated string literal" ln col).
Proof.
  intros H. unfold readString.
  now apply (readStringLoop_spec quote ln col (n := String.length rest)).
Qed.

Lemma advance_suffix (rest : string) :
  exists consumed, rest = consumed ++ advance rest.
Proof.
  destruct rest as [|c rest]; [now exists "" | now exists (char c)].
Qed.

Lemma readNumber_spec c rest ln col :
  isDigit c = true ->
  exists consumed,
    rest = consumed ++ unread (snd (readNumber (String c rest) ln col))
    /\ type (fst (readNumber (String c rest) ln col)) = T_number.
Proof.
  intros Hd. unfold readNumber.
  pose proof (readWhile_head isDigit c rest Hd) as Hh.
  pose proof (readWhile_app isDigit rest) as Happ.
  destruct (readWhile isDigit (String c rest)) as [intPart r1].
  simpl in Hh. subst r1.
  destruct (snd (readWhile isDigit rest)) as [|d r2] eqn:Er.
  - simpl. exists (fst (readWhile isDigit rest)). now rewrite Happ.
  - destruct (Ascii.eqb d ".") eqn:Edot.
    + apply Ascii.eqb_eq in Edot. subst d.
      pose proof (readWhile_app isDigit r2) as Happ2.
      destruct (readWhile isDigit r2) as [fracPart r3]. simpl in *.
      exists (fst (readWhile isDigit rest) ++ "." ++ fracPart).
      split; [|reflexivity].
      rewrite append_assoc. simpl. now rewrite Happ2.
    + assert (Hsame :
        (let col1 := col + String.length intPart in
         match String d r2 with
         | String "."%char r2' =>
             let (fracPart, r3) := readWhile isDigit r2' in
             (mkToken T_number (intPart ++ "." ++ fracPart) ln col,
              mkTokenizer r3 ln (col1 + 1 + String.length fracPart))
         | _ => (mkToken T_number intPart ln col,
                 mkTokenizer (String d r2) ln col1)
         end)
        = (mkToken T_number intPart ln col,
           mkTokenizer (String d r2) ln (col + String.length intPart))).
      { destruct d as [[] [] [] [] [] [] [] []]; try reflexivity.
        discriminate Edot. }
      cbv zeta in Hsame. rewrite Hsame. simpl.
      exists (fst (readWhile isDigit rest)). now rewrite Happ.
Qed.

Lemma isIdentifierStart_part c :
  isIdentifierStart c = true -> isIdentifierPart c = true.
Proof.
  unfold isIdentifierStart, isIdentifierPart. intros H.
  apply orb_true_iff in H as [H | H];
    [apply orb_true_iff in H as [H | H]|]; rewrite H;
    repeat rewrite orb_true_r; reflexivity.
Qed.

Lemma readIdentifier_spec c rest ln col :
  isIdentifierStart c = true ->
  exists consumed,
    rest = consumed ++ unread (snd (readIdentifier (String c rest) ln col))
    /\ type (fst (readIdentifier (String c rest) ln col)) = T_identifier.
Proof.
  intros Hs. apply isIdentifierStart_part in Hs. unfold readIdentifier.
  pose proof (readWhile_head isIdentifierPart c rest Hs) as Hh.
  pose proof (readWhile_app isIdentifierPart rest) as Happ.
  destruct (readWhile isIdentifierPart (String c rest)) as [v r].
  simpl in *. subst r.
  exists (fst (readWhile isIdentifierPart rest)). now rewrite Happ.
Qed.

(** A successful step leaves a suffix of the input after the current
    character, and the token it pushes, if any, is not the end-of-input
    token. *)
Lemma scanStep_ok c rest ln col tok t :
  scanStep c rest ln col = Ok (tok, t) ->
  (exists consumed, rest = consumed ++ unread t)
  /\ (forall token, tok = Some token -> notEOF token).
Proof.
  unfold scanStep, notEOF.
  destruct (Ascii.eqb c "010").
  { intros E. inversion E; subst. split; [now exists ""|].
    intros ? [= <-]. discriminate. }
  destruct (isWhitespace c).
  { intros E. inversion E; subst. split; [now exists ""|]. discriminate. }
  destruct (isQuote c).
  { destruct (hasClosingQuote c rest) eqn:Hq.
    - destruct (readString_closed c rest ln col Hq)
        as (tok' & t' & consumed & E & Hs & Ht).
      rewrite E. intros [= <- <-]. split; [now exists consumed|].
      intros ? [= <-]. now rewrite Ht.
    - now rewrite (readString_unterminated c rest ln col Hq). }
  destruct (isDigit c) eqn:Hd.
  { destruct (readNumber_spec c rest ln col Hd) as (consumed & Hs & Ht).
    destruct (readNumber (String c rest) ln col) as [tok' t'].
    intros [= <- <-]. split; [now exists consumed|].
    intros ? [= <-]. simpl in Ht. now rewrite Ht. }
  destruct (isIdentifierStart c) eqn:Hi.
  { destruct (readIdentifier_spec c rest ln col Hi) as (consumed & Hs & Ht).
    destruct (readIdentifier (String c rest) ln col) as [tok' t'].
    intros [= <- <-]. split; [now exists consumed|].
    intros ? [= <-]. simpl in Ht. now rewrite Ht. }
  destruct (Ascii.eqb c "-" && String.eqb (peekAhead1 rest) ">").
  { intros [= <- <-]. split; [apply advance_suffix|].
    intros ? [= <-]. discriminate. }
  destruct (hasString pairedOperators (char c ++ peekAhead1 rest)).
  { intros [= <- <-]. split; [apply advance_suffix|].
    intros ? [= <-]. discriminate. }
  destruct (hasChar punctuationChars c).
  { intros [= <- <-]. split; [now exists ""|]. intros ? [= <-]. discriminate. }
  destruct (hasChar singleCharOperators c).
  { intros [= <- <-]. split; [now exists ""|]. intros ? [= <-]. discriminate. }
  discriminate.
Qed.

(** A step throws in exactly two cases. *)
Lemma scanStep_throw_iff c rest ln col e :
  scanStep c rest ln col = Throw e <->
  (isQuote c = true /\ hasClosingQuote c rest = false
   /\ e = mkError "Unterminated string literal" ln col)
  \/ (recognized c rest = false
      /\ e = mkError ("Unexpected character '" ++ char c ++ "'") ln col).
Proof.
  unfold scanStep, recognized.
  assert (Hnl : Ascii.eqb c "010" = true -> isQuote c = false).
  { intros H. apply Ascii.eqb_eq in H. now subst. }
  assert (Hws : isWhitespace c = true -> isQuote c = false).
  { unfold isWhitespace. intros H.
    repeat (apply orb_true_iff in H as [H | H]);
      apply Ascii.eqb_eq in H; now subst. }
  destruct (Ascii.eqb c "010") eqn:E1.
  { simpl. rewrite (Hnl eq_refl). split; [discriminate|].
    intros [(H & _) | (H & _)]; discriminate. }
  destruct (isWhitespace c) eqn:E2.
  { simpl. rewrite (Hws eq_refl). split; [discriminate|].
    intros [(H & _) | (H & _)]; discriminate. }
  destruct (isQuote c) eqn:E3.
  { simpl. destruct (hasClosingQuote c rest) eqn:Hq.
    - destruct (readString_closed c rest ln col Hq) as (tok & t & ? & E & _).
      rewrite E. split; [discriminate|].
      intros [(_ & H & _) | (H & _)]; discriminate.
    - rewrite (readString_unterminated c rest ln col Hq). split.
      + intros [= <-]. left. auto.
      + intros [(_ & _ & ->) | (H & _)]; [reflexivity | discriminate]. }
  destruct (isDigit c) eqn:E4.
  { simpl. destruct (readNumber (String c rest) ln col). split; [discriminate|].
    intros [(H & _) | (H & _)]; discriminate. }
  destruct (isIdentifierStart c) eqn:E5.
  { simpl. destruct (readIdentifier (String c rest) ln col).
    split; [discriminate|]. intros [(H & _) | (H & _)]; discriminate. }
  destruct (Ascii.eqb c "-" && String.eqb (peekAhead1 rest) ">") eqn:E6.
  { simpl. split; [discriminate|]. intros [(H & _) | (H & _)]; discriminate. }
  destruct (hasString pairedOperators (char c ++ peekAhead1 rest)) eqn:E7.
  { simpl. split; [discriminate|]. intros [(H & _) | (H & _)]; discriminate. }
  destruct (hasChar punctuationChars c) eqn:E8.
  { simpl. split; [discriminate|]. intros [(H & _) | (H & _)]; discriminate. }
  destruct (hasChar singleCharOperators c) eqn:E9.
  { simpl. split; [discriminate|]. intros [(H & _) | (H & _)]; discriminate. }
  simpl. split.
  - intros [= <-]. right. auto.
  - intros [(H & _) | (_ & ->)]; [discriminate | reflexivity].
Qed.

(** The loop of [tokenize]: with more fuel than unread characters it
    returns or throws; an error comes from the step at some character
    of the input; a result is the tokens pushed, none of them the
    end-of-input token, followed by one end-of-input token. *)
Lemma tokenizeLoop_spec fuel :
  forall t tokens, String.length (unread t) < fuel ->
    exists r, tokenizeLoop fuel t tokens = Some r /\
      match r with
      | Ok result =>
          exists front ln col,
            result = (tokens ++ front ++ [mkToken T_eof "" ln col])%list
            /\ Forall notEOF front
      | Throw e =>
          exists prefix c rest ln col,
            unread t = prefix ++ String c rest
            /\ scanStep c rest ln col = Throw e
      end.
Proof.
  induction fuel as [|fuel IH]; intros t tokens Hlen; [lia|].
  simpl. destruct (unread t) as [|c rest] eqn:Eu.
  - eexists. split; [reflexivity|].
    exists [], (curLine t), (curColumn t). split; [reflexivity | constructor].
  - destruct (scanStep c rest (curLine t) (curColumn t)) as [[tok t']|e] eqn:Es.
    + destruct (scanStep_ok _ _ _ _ Es) as [(consumed & Hs) Htok].
      assert (Hlen' : String.length (unread t') < fuel).
      { simpl in Hlen. rewrite Hs, length_append in Hlen. lia. }
      destruct (IH t' (pushToken tokens tok) Hlen') as (r & Er & Hr).
      exists r. split; [exact Er|].
      destruct r as [result|e].
      * destruct Hr as (front & ln & col & -> & Hfront).
        destruct tok as [token|]; simpl.
        -- exists (token :: front), ln, col. split.
           ++ now rewrite <- app_assoc.
           ++ constructor; [now apply Htok | exact Hfront].
        -- now exists front, ln, col.
      * destruct Hr as (prefix & c' & rest' & ln & col & Hu & Hstep).
        exists (String c consumed ++ prefix), c', rest', ln, col.
        split; [|exact Hstep].
        rewrite Hs, Hu. simpl. now rewrite append_assoc.
    + eexists. split; [reflexivity|].
      exists "", c, rest, (curLine t), (curColumn t). now split.
Qed.

Lemma tokenize_returns source : exists r, tokenize source = Some r.
Proof.
  unfold tokenize.
  destruct (tokenizeLoop_spec (fuel := S (String.length source))
              (mkTokenizer source 1 1) []) as (r & Er & _);
    [simpl; lia|].
  now exists r.
Qed.

(** *** A failure and the input before it

    A step of the tokenizer looks at most one character past the
    characters it takes, and only to see whether that character goes on
    with the token or completes an operator.  So the step is the same
    on every input that starts with the characters taken and looks the
    same after them. *)

Lemma boundary_part c : isIdentifierPart c = true -> boundary c = false.
Proof. unfold boundary. now intros ->. Qed.

Lemma boundary_digit c : isDigit c = true -> boundary c = false.
Proof.
  intros H. apply boundary_part. unfold isIdentifierPart.
  rewrite H, orb_true_r. reflexivity.
Qed.

Lemma seen_stopsAt p (a b : string) :
  (forall c, p c = true -> boundary c = false) ->
  seen a = seen b -> stopsAt p a = true -> stopsAt p b = true.
Proof.
  intros Hp. unfold seen, stopsAt.
  destruct b as [|d b]; [reflexivity|].
  destruct (p d) eqn:Ed; [|reflexivity].
  rewrite (Hp _ Ed).
  destruct a as [|c a]; [discriminate|].
  destruct (boundary c); [discriminate|].
  intros [= ->]. now rewrite Ed.
Qed.

Lemma eqb_char d x : String.eqb (char d) (char x) = Ascii.eqb d x.
Proof. unfold char. cbn. now destruct (Ascii.eqb d x). Qed.

Lemma seen_peekAhead1 (a b : string) :
  seen a = seen b ->
  peekAhead1 a = peekAhead1 b \/ (seen a = None /\ seen b = None).
Proof.
  unfold seen.
  destruct a as [|c a], b as [|d b]; cbn [peekAhead1].
  - now left.
  - destruct (boundary d); [now right | discriminate].
  - destruct (boundary c); [now right | discriminate].
  - destruct (boundary c), (boundary d); try discriminate.
    + now right.
    + intros [= ->]. now left.
Qed.

Lemma seen_none_peek (s : string) x :
  boundary x = false -> seen s = None ->
  String.eqb (peekAhead1 s) (char x) = false.
Proof.
  intros Hx. destruct s as [|d s]; [reflexivity|].
  unfold seen. cbn [peekAhead1]. rewrite eqb_char.
  destruct (boundary d) eqn:Hd; [|discriminate]. intros _.
  destruct (Ascii.eqb d x) eqn:E; [|reflexivity].
  apply Ascii.eqb_eq in E. congruence.
Qed.

Lemma seen_peek (a b : string) x :
  boundary x = false -> seen a = seen b ->
  String.eqb (peekAhead1 a) (char x) = String.eqb (peekAhead1 b) (char x).
Proof.
  intros Hx H. destruct (seen_peekAhead1 _ _ H) as [-> | [Ha Hb]];
    [reflexivity|].
  now rewrite !seen_none_peek.
Qed.

(** The paired operators, read off the two characters. *)
Lemma pairedOperators_eq c (s : string) :
  hasString pairedOperators (char c ++ peekAhead1 s)
  = match s with
    | EmptyString => false
    | String d _ =>
        (Ascii.eqb d "="
         && (Ascii.eqb c "=" || Ascii.eqb c "!" || Ascii.eqb c ">"
             || Ascii.eqb c "<"))
        || (Ascii.eqb c "&" && Ascii.eqb d "&")
        || (Ascii.eqb c "|" && Ascii.eqb d "|")
    end.
Proof.
  unfold hasString, pairedOperators, char.
  destruct s as [|d s]; cbn.
  - destruct (Ascii.eqb c "="), (Ascii.eqb c "!"), (Ascii.eqb c ">"),
      (Ascii.eqb c "<"), (Ascii.eqb c "&"), (Ascii.eqb c "|"); reflexivity.
  - destruct (Ascii.eqb c "="), (Ascii.eqb c "!"), (Ascii.eqb c ">"),
      (Ascii.eqb c "<"), (Ascii.eqb c "&"), (Ascii.eqb c "|"),
      (Ascii.eqb d "="), (Ascii.eqb d "&"), (Ascii.eqb d "|"); reflexivity.
Qed.

Lemma pairedOperators_none c (s : string) :
  hasChar punctuationChars c || hasChar singleCharOperators c = true ->
  seen s = None ->
  hasString pairedOperators (char c ++ peekAhead1 s) = false.
Proof.
  intros Hc Hs. rewrite pairedOperators_eq.
  destruct s as [|d s]; [reflexivity|].
  unfold seen in Hs. destruct (boundary d) eqn:Hd; [|discriminate].
  assert (Heq : Ascii.eqb d "=" = false).
  { destruct (Ascii.eqb d "=") eqn:E; [|reflexivity].
    apply Ascii.eqb_eq in E. now subst. }
  assert (Hand : Ascii.eqb c "&" = false).
  { destruct (Ascii.eqb c "&") eqn:E; [|reflexivity].
    apply Ascii.eqb_eq in E. now subst. }
  assert (Hor : Ascii.eqb c "|" = false).
  { destruct (Ascii.eqb c "|") eqn:E; [|reflexivity].
    apply Ascii.eqb_eq in E. now subst. }
  now rewrite Heq, Hand, Hor.
Qed.

Lemma seen_pairedOperators c (a b : string) :
  hasChar punctuationChars c || hasChar singleCharOperators c = true ->
  seen a = seen b ->
  hasString pairedOperators (char c ++ peekAhead1 a)
  = hasString pairedOperators (char c ++ peekAhead1 b).
Proof.
  intros Hc H. destruct (seen_peekAhead1 _ _ H) as [-> | [Ha Hb]];
    [reflexivity|].
  now rewrite !pairedOperators_none.
Qed.

Lemma readWhile_stopped p (s : string) :
  stopsAt p s = true -> readWhile p s = ("", s).
Proof.
  destruct s as [|c s]; [reflexivity|]. cbn [stopsAt readWhile].
  intros H. apply negb_true_iff in H. now rewrite H.
Qed.

(** [readWhile] reads the same characters before every input that
    starts with no character of the class. *)
Lemma readWhile_retarget p (s : string) :
  forall v r, readWhile p s = (v, r) ->
    s = v ++ r /\ stopsAt p r = true
    /\ forall X, stopsAt p X = true -> readWhile p (v ++ X) = (v, X).
Proof.
  induction s as [|c s IH]; intros v r; cbn [readWhile].
  - intros [= <- <-]. repeat split. intros X HX.
    now apply readWhile_stopped.
  - destruct (p c) eqn:Ec.
    + destruct (readWhile p s) as [v' r'] eqn:E. intros [= <- <-].
      destruct (IH _ _ eq_refl) as (Hs & Hr & HX).
      split; [cbn [append]; now rewrite <- Hs|]. split; [exact Hr|].
      intros X HX'. cbn [append readWhile]. now rewrite Ec, (HX X HX').
    + intros [= <- <-]. split; [reflexivity|].
      split; [cbn [stopsAt]; now rewrite Ec|].
      intros X HX. now apply readWhile_stopped.
Qed.

(** A closed string literal is read the same whatever follows it. *)
Lemma readStringLoop_retarget quote sl sc n :
  forall src, String.length src <= n -> forall val col tok t,
    readStringLoop quote val sl sc src col = Ok (tok, t) ->
    exists consumed,
      src = consumed ++ unread t
      /\ forall X,
           readStringLoop quote val sl sc (consumed ++ X) col
           = Ok (tok, mkTokenizer X (curLine t) (curColumn t)).
Proof.
  induction n as [|n IH]; intros src Hlen val col tok t.
  - destruct src; cbn in *; [discriminate | lia].
  - destruct src as [|c rest]; cbn [readStringLoop]; [discriminate|].
    cbn [String.length] in Hlen.
    destruct (Ascii.eqb c "\") eqn:Eb.
    + destruct rest as [|next rest']; [discriminate|].
      cbn [String.length] in Hlen. intros H.
      apply IH in H as (consumed & Hs & HX); [|lia].
      exists (String c (String next consumed)).
      split; [cbn [append]; now rewrite <- Hs|].
      intros X. cbn [append readStringLoop]. now rewrite Eb.
    + destruct (Ascii.eqb c quote) eqn:Eq.
      * intros [= <- <-]. exists (char c). split; [reflexivity|].
        intros X. cbn [char append readStringLoop unread curLine curColumn].
        now rewrite Eb, Eq.
      * intros H. apply IH in H as (consumed & Hs & HX); [|lia].
        exists (String c consumed).
        split; [cbn [append]; now rewrite <- Hs|].
        intros X. cbn [append readStringLoop]. now rewrite Eb, Eq.
Qed.

(** [readNumber], with its test for the dot written as a test. *)
Lemma readNumber_eq src ln col :
  readNumber src ln col
  = (let (intPart, r1) := readWhile isDigit src in
     if String.eqb (peekAhead1 r1) "." then
       let (fracPart, r3) := readWhile isDigit (advance r1) in
       (mkToken T_number (intPart ++ "." ++ fracPart) ln col,
        mkTokenizer r3 ln
          (col + String.length intPart + 1 + String.length fracPart))
     else
       (mkToken T_number intPart ln col,
        mkTokenizer r1 ln (col + String.length intPart))).
Proof.
  unfold readNumber. destruct (readWhile isDigit src) as [intPart r1].
  destruct r1 as [|d r2]; [reflexivity|].
  destruct d as [[] [] [] [] [] [] [] []]; reflexivity.
Qed.

Lemma readNumber_retarget c rest ln col tok t :
  isDigit c = true ->
  readNumber (String c rest) ln col = (tok, t) ->
  exists consumed,
    rest = consumed ++ unread t
    /\ forall X, seen X = seen (unread t) ->
         readNumber (String c (consumed ++ X)) ln col
         = (tok, mkTokenizer X (curLine t) (curColumn t)).
Proof.
  intros Hd. rewrite readNumber_eq. cbn [readWhile]. rewrite Hd.
  destruct (readWhile isDigit rest) as [v r1] eqn:E.
  destruct (readWhile_retarget _ _ E) as (Hr & Hstop & HX).
  assert (Hdot : boundary "." = false) by reflexivity.
  destruct (String.eqb (peekAhead1 r1) ".") eqn:Edot.
  - destruct r1 as [|d r2]; [discriminate|]. cbn [peekAhead1 advance] in *.
    change "."%string with (char ".") in Edot. rewrite eqb_char in Edot.
    apply Ascii.eqb_eq in Edot. subst d.
    destruct (readWhile isDigit r2) as [frac r3] eqn:E2.
    destruct (readWhile_retarget _ _ E2) as (Hr2 & Hstop2 & HX2).
    intros [= <- <-]. cbn [unread curLine curColumn].
    exists (v ++ "." ++ frac). split.
    { rewrite Hr, Hr2. now rewrite !append_assoc. }
    intros X HXs. rewrite readNumber_eq. cbn [readWhile]. rewrite Hd.
    rewrite !append_assoc. rewrite (HX ("." ++ frac ++ X)) by reflexivity.
    cbn [append peekAhead1 advance char]. rewrite String.eqb_refl.
    rewrite (HX2 X); [reflexivity|].
    eapply seen_stopsAt; [apply boundary_digit | symmetry; exact HXs
                          | exact Hstop2].
  - intros [= <- <-]. cbn [unread curLine curColumn].
    exists v. split; [exact Hr|].
    intros X HXs. rewrite readNumber_eq. cbn [readWhile]. rewrite Hd.
    rewrite (HX X).
    + change "."%string with (char "."). rewrite (@seen_peek X r1 "."%char Hdot HXs).
      change (char ".") with "."%string. now rewrite Edot.
    + eapply seen_stopsAt; [apply boundary_digit | symmetry; exact HXs
                            | exact Hstop].
Qed.

Lemma readIdentifier_retarget c rest ln col tok t :
  isIdentifierPart c = true ->
  readIdentifier (String c rest) ln col = (tok, t) ->
  exists consumed,
    rest = consumed ++ unread t
    /\ forall X, seen X = seen (unread t) ->
         readIdentifier (String c (consumed ++ X)) ln col
         = (tok, mkTokenizer X (curLine t) (curColumn t)).
Proof.
  intros Hc. unfold readIdentifier. cbn [readWhile]. rewrite Hc.
  destruct (readWhile isIdentifierPart rest) as [v r] eqn:E.
  destruct (readWhile_retarget _ _ E) as (Hr & Hstop & HX).
  intros [= <- <-]. cbn [unread curLine curColumn].
  exists v. split; [exact Hr|].
  intros X HXs. rewrite (HX X); [reflexivity|].
  eapply seen_stopsAt; [apply boundary_part | symmetry; exact HXs
                        | exact Hstop].
Qed.

(** A step that succeeds is the same step on every input that starts
    with the characters it takes and looks the same after them. *)
Lemma scanStep_retarget c rest ln col tok t :
  scanStep c rest ln col = Ok (tok, t) ->
  exists consumed,
    rest = consumed ++ unread t
    /\ forall X, seen X = seen (unread t) ->
         scanStep c (consumed ++ X) ln col
         = Ok (tok, mkTokenizer X (curLine t) (curColumn t)).
Proof.
  assert (Harrow : boundary ">" = false) by reflexivity.
  unfold scanStep.
  destruct (Ascii.eqb c "010").
  { intros [= <- <-]. exists "". split; [reflexivity|]. now intros X _. }
  destruct (isWhitespace c).
  { intros [= <- <-]. exists "". split; [reflexivity|]. now intros X _. }
  destruct (isQuote c).
  { destruct (readString c rest ln col) as [[tok0 t0]|e] eqn:E;
      [|discriminate].
    intros [= <- <-]. unfold readString in *.
    apply (@readStringLoop_retarget c ln col (String.length rest)) in E
      as (consumed & Hr & HX); [|lia].
    exists consumed. split; [exact Hr|]. intros X _. now rewrite HX. }
  destruct (isDigit c) eqn:Hd.
  { destruct (readNumber (String c rest) ln col) as [tok0 t0] eqn:E.
    intros [= <- <-].
    destruct (readNumber_retarget _ _ _ _ Hd E) as (consumed & Hr & HX).
    exists consumed. split; [exact Hr|].
    intros X HXs. now rewrite (HX X HXs). }
  destruct (isIdentifierStart c) eqn:Hi.
  { destruct (readIdentifier (String c rest) ln col) as [tok0 t0] eqn:E.
    intros [= <- <-].
    destruct (readIdentifier_retarget _ _ _ _ (@isIdentifierStart_part c Hi) E)
      as (consumed & Hr & HX).
    exists consumed. split; [exact Hr|].
    intros X HXs. now rewrite (HX X HXs). }
  destruct (Ascii.eqb c "-" && String.eqb (peekAhead1 rest) ">") eqn:Ea.
  { intros [= <- <-]. cbn [unread curLine curColumn].
    destruct rest as [|d rest'];
      [now rewrite andb_false_r in Ea|].
    exists (char d). split; [reflexivity|].
    intros X _. cbn [char append peekAhead1 advance] in *. now rewrite Ea. }
  destruct (hasString pairedOperators (char c ++ peekAhead1 rest)) eqn:Ep.
  { intros [= <- <-]. cbn [unread curLine curColumn].
    destruct rest as [|d rest'].
    { rewrite pairedOperators_eq in Ep. discriminate. }
    exists (char d). split; [reflexivity|].
    intros X _. cbn [char append peekAhead1 advance] in *.
    now rewrite Ea, Ep. }
  destruct (hasChar punctuationChars c) eqn:Epunct.
  { intros [= <- <-]. cbn [unread curLine curColumn].
    exists "". split; [reflexivity|].
    intros X HXs. cbn [append].
    change ">"%string with (char ">").
    rewrite (@seen_peek X rest ">"%char Harrow HXs).
    change (char ">") with ">"%string. rewrite Ea.
    rewrite (@seen_pairedOperators c X rest), Ep; [reflexivity | | exact HXs].
    now rewrite Epunct. }
  destruct (hasChar singleCharOperators c) eqn:Eop.
  { intros [= <- <-]. cbn [unread curLine curColumn].
    exists "". split; [reflexivity|].
    intros X HXs. cbn [append].
    change ">"%string with (char ">").
    rewrite (@seen_peek X rest ">"%char Harrow HXs).
    change (char ">") with ">"%string. rewrite Ea.
    rewrite (@seen_pairedOperators c X rest), Ep; [reflexivity | | exact HXs].
    now rewrite Epunct, Eop. }
  discriminate.
Qed.

Lemma hasChar_false set c x :
  hasChar set c = false -> In x set -> Ascii.eqb c x = false.
Proof.
  intros H Hin. destruct (Ascii.eqb c x) eqn:E; [|reflexivity].
  assert (Hhas : hasChar set c = true).
  { apply existsb_exists. exists x. now split. }
  congruence.
Qed.

Ltac member :=
  cbn [In punctuationChars singleCharOperators];
  repeat (first [left; reflexivity | right]).

(** A quote and a character of no recognized class are boundaries. *)
Lemma failing_boundary c rest :
  isQuote c = true \/ recognized c rest = false -> boundary c = true.
Proof.
  intros [Hq | Hr].
  - unfold isQuote in Hq.
    apply orb_true_iff in Hq as [Hq | Hq]; apply Ascii.eqb_eq in Hq;
      now subst.
  - unfold recognized in Hr.
    repeat match type of Hr with
           | _ || _ = false => apply orb_false_iff in Hr as [Hr ?]
           end.
    match goal with
    | H : isIdentifierStart c = false |- _ =>
        unfold isIdentifierStart in H;
        apply orb_false_iff in H as [H Hhash];
        apply orb_false_iff in H as [Hletter Hunder]
    end.
    match goal with
    | Hp : hasChar punctuationChars c = false,
      Ho : hasChar singleCharOperators c = false |- _ =>
        assert (Hdot : Ascii.eqb c "." = false)
          by (apply (@hasChar_false _ _ _ Hp); member);
        assert (Hminus : Ascii.eqb c "-" = false)
          by (apply (@hasChar_false _ _ _ Ho); member);
        assert (Hequal : Ascii.eqb c "=" = false)
          by (apply (@hasChar_false _ _ _ Ho); member);
        assert (Hgreater : Ascii.eqb c ">" = false)
          by (apply (@hasChar_false _ _ _ Ho); member)
    end.
    unfold boundary, isIdentifierPart.
    rewrite Hletter, Hunder, Hhash, Hdot, Hminus, Hequal, Hgreater.
    match goal with H : isDigit c = false |- _ => now rewrite H end.
Qed.

(** A character at which a step throws is a boundary. *)
Lemma scanStep_throw_boundary c rest ln col e :
  scanStep c rest ln col = Throw e -> boundary c = true.
Proof.
  intros H. apply (@failing_boundary c rest).
  apply scanStep_throw_iff in H as [(Hq & _) | (Hr & _)]; auto.
Qed.

Lemma seen_cut (mid : string) c rest :
  boundary c = true -> seen (mid ++ String c rest) = seen mid.
Proof.
  intros Hc. destruct mid as [|d mid]; [|reflexivity].
  cbn [append seen]. now rewrite Hc.
Qed.

(** More iterations than needed change nothing. *)
Lemma tokenizeLoop_fuel fuel :
  forall fuel' t acc r,
    tokenizeLoop fuel t acc = Some r -> fuel <= fuel' ->
    tokenizeLoop fuel' t acc = Some r.
Proof.
  induction fuel as [|fuel IH]; intros fuel' t acc r; [discriminate|].
  destruct fuel' as [|fuel']; [lia|]. cbn [tokenizeLoop].
  destruct (unread t) as [|c rest]; [now intros|].
  destruct (scanStep c rest (curLine t) (curColumn t)) as [[tok t']|e];
    [|now intros].
  intros H Hle. apply (IH fuel' _ _ _ H). lia.
Qed.

Lemma tokenizeLoop_step fuel t acc c rest :
  unread t = String c rest ->
  tokenizeLoop (S fuel) t acc
  = match scanStep c rest (curLine t) (curColumn t) with
    | Throw e => Some (Throw e)
    | Ok (tok, t') => tokenizeLoop fuel t' (pushToken acc tok)
    end.
Proof. intros H. cbn [tokenizeLoop]. now rewrite H. Qed.

Lemma tokenizeLoop_end fuel t acc :
  unread t = "" ->
  tokenizeLoop (S fuel) t acc
  = Some (Ok (acc ++ [createToken T_eof "" (curLine t) (curColumn t)])%list).
Proof. intros H. cbn [tokenizeLoop]. now rewrite H. Qed.

(** When the loop throws, it throws at a character of the input, and
    on the input cut before that character it runs to the end, with
    the counters of that character. *)
Lemma tokenizeLoop_throw_cut fuel :
  forall t acc e,
    tokenizeLoop fuel t acc = Some (Throw e) ->
    exists mid c rest front ln col,
      unread t = mid ++ String c rest
      /\ scanStep c rest ln col = Throw e
      /\ tokenizeLoop fuel (mkTokenizer mid (curLine t) (curColumn t)) acc
         = Some (Ok (acc ++ front ++ [mkToken T_eof "" ln col])%list).
Proof.
  induction fuel as [|fuel IH]; intros t acc e; [discriminate|].
  destruct (unread t) as [|c0 r0] eqn:Eu.
  { now rewrite (@tokenizeLoop_end fuel t acc Eu). }
  rewrite (@tokenizeLoop_step fuel t acc c0 r0 Eu).
  destruct (scanStep c0 r0 (curLine t) (curColumn t)) as [[tok t']|e']
    eqn:Es.
  - intros H. apply IH in H
      as (mid & c & rest & front & ln & col & Hu & Hthrow & Hcut).
    destruct (scanStep_retarget _ _ _ _ Es) as (consumed & Hr & HX).
    exists (String c0 (consumed ++ mid)), c, rest,
      (match tok with Some token => token :: front | None => front end),
      ln, col.
    split.
    { rewrite Hr, Hu. cbn [append]. now rewrite append_assoc. }
    split; [exact Hthrow|].
    erewrite tokenizeLoop_step by reflexivity.
    cbn [curLine curColumn]. rewrite (HX mid).
    + rewrite Hcut. destruct tok as [token|]; cbn [pushToken app];
        [now rewrite <- app_assoc | reflexivity].
    + rewrite Hu. symmetry. apply seen_cut.
      now apply scanStep_throw_boundary in Hthrow.
  - intros [= <-].
    exists "", c0, r0, [], (curLine t), (curColumn t).
    split; [reflexivity|]. split; [exact Es|].
    now erewrite tokenizeLoop_end by reflexivity.
Qed.

(** When the loop runs to the end, the same loop on the input followed
    by a boundary reaches that boundary with the counters of the end. *)
Lemma tokenizeLoop_extend fuel :
  forall t acc tokens c rest,
    boundary c = true ->
    tokenizeLoop fuel t acc = Some (Ok tokens) ->
    exists front ln col,
      tokens = (acc ++ front ++ [mkToken T_eof "" ln col])%list
      /\ forall e,
           scanStep c rest ln col = Throw e ->
           tokenizeLoop (S fuel)
             (mkTokenizer (unread t ++ String c rest) (curLine t)
                (curColumn t)) acc
           = Some (Throw e).
Proof.
  induction fuel as [|fuel IH]; intros t acc tokens c rest Hc;
    [discriminate|].
  destruct (unread t) as [|c0 r0] eqn:Eu.
  - rewrite (@tokenizeLoop_end fuel t acc Eu).
    intros [= <-]. exists [], (curLine t), (curColumn t).
    split; [reflexivity|].
    intros e He.
    erewrite tokenizeLoop_step by reflexivity.
    cbn [curLine curColumn]. now rewrite He.
  - rewrite (@tokenizeLoop_step fuel t acc c0 r0 Eu).
    destruct (scanStep c0 r0 (curLine t) (curColumn t)) as [[tok t']|e']
      eqn:Es; [|discriminate].
    intros H.
    destruct (IH _ _ _ c rest Hc H) as (front & ln & col & -> & Hthrow).
    destruct (scanStep_retarget _ _ _ _ Es) as (consumed & Hr & HX).
    exists (match tok with Some token => token :: front | None => front end),
      ln, col.
    split.
    { destruct tok as [token|]; cbn [pushToken app];
        [now rewrite <- app_assoc | reflexivity]. }
    intros e He. specialize (Hthrow e He).
    erewrite tokenizeLoop_step by reflexivity.
    cbn [curLine curColumn].
    rewrite Hr, append_assoc, (HX (unread t' ++ String c rest)).
    + exact Hthrow.
    + now apply seen_cut.
Qed.

(** [tokenize] throws exactly when a part of the input that it
    tokenizes to the end is followed by a quote that no quote closes or
    by a character of no recognized class; the error carries the line
    and column of the last token of that part, its end-of-input
    token. *)
Lemma tokenize_throws_iff source e :
  tokenize source = Some (Throw e) <->
  exists prefix c rest tokens,
    source = prefix ++ String c rest
    /\ tokenize prefix = Some (Ok tokens)
    /\ let eof := last tokens (mkToken T_eof "" 1 1) in
       (isQuote c = true /\ hasClosingQuote c rest = false
        /\ e = mkError "Unterminated string literal" (line eof) (column eof))
       \/ (recognized c rest = false
           /\ e = mkError ("Unexpected character '" ++ char c ++ "'")
                  (line eof) (column eof)).
Proof.
  split.
  - unfold tokenize at 1. intros H.
    apply tokenizeLoop_throw_cut in H
      as (mid & c & rest & front & ln & col & Hu & Hthrow & Hcut).
    cbn [unread curLine curColumn app] in *.
    exists mid, c, rest, (front ++ [mkToken T_eof "" ln col])%list.
    split; [exact Hu|]. split.
    + destruct (tokenize_returns mid) as [r Hr]. rewrite Hr.
      unfold tokenize in Hr.
      apply (@tokenizeLoop_fuel _ (S (String.length source))) in Hr;
        [congruence|].
      rewrite Hu, length_append. lia.
    + cbv zeta. rewrite last_last. cbn [line column].
      now apply scanStep_throw_iff.
  - intros (prefix & c & rest & tokens & -> & Hok & Hcase).
    unfold tokenize in Hok.
    assert (Hc : boundary c = true).
    { apply (@failing_boundary c rest).
      destruct Hcase as [(Hq & _) | (Hr & _)]; auto. }
    destruct (@tokenizeLoop_extend _ _ _ _ c rest Hc Hok)
      as (front & ln & col & -> & Hextend).
    cbn [app] in Hcase. cbv zeta in Hcase. rewrite last_last in Hcase.
    cbn [line column] in Hcase.
    assert (Hthrow : scanStep c rest ln col = Throw e)
      by now apply scanStep_throw_iff.
    specialize (Hextend e Hthrow). cbn [unread curLine curColumn] in Hextend.
    unfold tokenize. eapply tokenizeLoop_fuel; [exact Hextend|].
    rewrite length_append. cbn [String.length]. lia.
Qed.

(** C6. For every input, [tokenize] terminates: it returns a token
    sequence or throws.  It throws in exactly two cases: a part of the
    input that it tokenizes to the end is followed by a quote that
    opens a string literal with no closing quote, or by a character
    that matches none of the recognized classes.  The error is then
    the one of that case, at the line and column of the end-of-input
    token of that part.  It returns a token sequence exactly when
    neither case occurs. *)
Theorem tokenize_total_two_failures :
  (forall source, exists r, tokenize source = Some r)
  /\ (forall source e,
        tokenize source = Some (Throw e) <->
        exists prefix c rest tokens,
          source = prefix ++ String c rest
          /\ tokenize prefix = Some (Ok tokens)
          /\ let eof := last tokens (mkToken T_eof "" 1 1) in
             (isQuote c = true /\ hasClosingQuote c rest = false
              /\ e = mkError "Unterminated string literal"
                     (line eof) (column eof))
             \/ (recognized c rest = false
                 /\ e = mkError ("Unexpected character '" ++ char c ++ "'")
                        (line eof) (column eof)))
  /\ (forall source,
        (exists tokens, tokenize source = Some (Ok tokens)) <->
        forall prefix c rest,
          source = prefix ++ String c rest ->
          (exists tokens, tokenize prefix = Some (Ok tokens)) ->
          recognized c rest = true
          /\ (isQuote c = true -> hasClosingQuote c rest = true)).
Proof.
  split; [apply tokenize_returns|].
  split; [apply tokenize_throws_iff|].
  intros source. split.
  - intros [tokens Hok] prefix c rest Hsource [tokens' Hprefix].
    split.
    + destruct (recognized c rest) eqn:Hr; [reflexivity|]. exfalso.
      assert (Hthrow : exists e, tokenize source = Some (Throw e)).
      { eexists. apply tokenize_throws_iff.
        exists prefix, c, rest, tokens'.
        split; [exact Hsource|]. split; [exact Hprefix|].
        right. split; [exact Hr | reflexivity]. }
      destruct Hthrow as [e He]. congruence.
    + intros Hq.
      destruct (hasClosingQuote c rest) eqn:Hclose; [reflexivity|]. exfalso.
      assert (Hthrow : exists e, tokenize source = Some (Throw e)).
      { eexists. apply tokenize_throws_iff.
        exists prefix, c, rest, tokens'.
        split; [exact Hsource|]. split; [exact Hprefix|].
        left. split; [exact Hq|]. split; [exact Hclose | reflexivity]. }
      destruct Hthrow as [e He]. congruence.
  - intros Hnone. destruct (tokenize_returns source) as [[tokens|e] Hr];
      [now exists tokens|]. exfalso.
    apply tokenize_throws_iff in Hr
      as (prefix & c & rest & tokens & Hsource & Hprefix & Hcase).
    destruct (Hnone prefix c rest Hsource (ex_intro _ tokens Hprefix))
      as [Hrec Hclosed].
    destruct Hcase as [(Hq & Hclose & _) | (Hr & _)].
    + rewrite (Hclosed Hq) in Hclose. discriminate.
    + rewrite Hrec in Hr. discriminate.
Qed.

(** C9. When [tokenize] returns, the token sequence is not empty, its
    last token is the end-of-input token with the empty value, and no
    other token is an end-of-input token; the empty input gives exactly
    that one token. *)
Theorem tokenize_ends_with_single_eof :
  forall source tokens,
    tokenize source = Some (Ok tokens) ->
    (exists front ln col,
       tokens = (front ++ [mkToken T_eof "" ln col])%list
       /\ Forall notEOF front)
    /\ tokens <> []
    /\ tokenize "" = Some (Ok [mkToken T_eof "" 1 1]).
Proof.
  intros source tokens H. unfold tokenize in H.
  destruct (tokenizeLoop_spec (fuel := S (String.length source))
              (mkTokenizer source 1 1) []) as (r & Er & Hr);
    [simpl; lia|].
  rewrite H in Er. injection Er as <-.
  destruct Hr as (front & ln & col & -> & Hfront).
  split; [now exists front, ln, col|].
  split; [|reflexivity].
  simpl. now destruct front.
Qed.

(** The position reported for an unterminated literal is the line and
    column counters held at its opening quote, whatever follows. *)
Lemma unterminated_reports_counters quote rest ln col e :
  readString quote rest ln col = Throw e ->
  e = mkError "Unterminated string literal" ln col.
Proof.
  intros H. destruct (hasClosingQuote quote rest) eqn:Hq.
  - destruct (readString_closed quote rest ln col Hq) as (? & ? & ? & E & _).
    congruence.
  - rewrite (readString_unterminated quote rest ln col Hq) in H. congruence.
Qed.

(** C7. On the input [template t = ] followed by a double quote and
    [abc], the opening quote is the fourteenth character of line 1,
    and [tokenize] reports the unterminated literal at column 11: the
    column counter is not advanced over the three blanks before the
    quote. *)
Theorem unterminated_string_column_off :
  let source := "template t = " ++ DQ ++ "abc" in
  String.get 13 source = Some "034"%char
  /\ lineColumnAt source 13 = (1, 14)
  /\ tokenize source
     = Some (Throw (mkError "Unterminated string literal" 1 11)).
Proof. repeat split. Qed.

(** *** What the tokens keep of the source *)


Lemma readWhile_all p (s : string) : allChars p (fst (readWhile p s)) = true.
Proof.
  induction s as [|c s IH]; simpl; [reflexivity|].
  destruct (p c) eqn:E; [|reflexivity].
  destruct (readWhile p s) as [v r]. simpl in *. now rewrite E.
Qed.

Lemma readWhile_stop p (s : string) c rest :
  snd (readWhile p s) = String c rest -> p c = false.
Proof.
  induction s as [|d s IH]; simpl; [discriminate|].
  destruct (p d) eqn:E.
  - destruct (readWhile p s) as [v r]. simpl in *. exact IH.
  - simpl. intros [= <- <-]. exact E.
Qed.

Lemma readWhile_eq p (s : string) :
  readWhile p s = (fst (readWhile p s), snd (readWhile p s)).
Proof. now destruct (readWhile p s). Qed.

(** A string literal that is closed: the token holds the text from the
    opening quote to the closing one, and the column counter has
    advanced over the text after the opening quote. *)
Lemma readStringLoop_ok quote sl sc n :
  forall src, String.length src <= n -> forall val col tok t,
    readStringLoop quote val sl sc src col = Ok (tok, t) ->
    exists body,
      src = body ++ char quote ++ unread t
      /\ tok = mkToken T_string (char quote ++ (val ++ body) ++ char quote) sl sc
      /\ curLine t = sl
      /\ curColumn t = col + String.length body + 1.
Proof.
  induction n as [|n IH]; intros src Hlen val col tok t.
  - destruct src; simpl in *; [discriminate | lia].
  - destruct src as [|c rest]; simpl in *; [discriminate|].
    destruct (Ascii.eqb c "\") eqn:Eb.
    + destruct rest as [|c' rest']; [discriminate|]. simpl in Hlen.
      intros H. apply IH in H; [|lia].
      destruct H as (body & Hs & Ht & Hl & Hc).
      exists (String c (String c' body)). simpl. rewrite <- Hs.
      split; [reflexivity|]. split; [|split; [exact Hl | lia]].
      rewrite Ht. now rewrite !append_assoc.
    + destruct (Ascii.eqb c quote) eqn:Eq.
      * apply Ascii.eqb_eq in Eq. subst c.
        intros [= <- <-]. exists "". simpl. rewrite append_nil_r.
        split; [reflexivity|]. split; [reflexivity|]. split; [reflexivity | lia].
      * intros H. apply IH in H; [|lia].
        destruct H as (body & Hs & Ht & Hl & Hc).
        exists (String c body). simpl. rewrite <- Hs.
        split; [reflexivity|]. split; [|split; [exact Hl | lia]].
        rewrite Ht. now rewrite !append_assoc.
Qed.

Lemma endsWith_snoc q (s : string) : endsWith q (s ++ char q) = true.
Proof.
  induction s as [|c s IH]; simpl; [apply Ascii.eqb_refl|].
  destruct (s ++ char q) eqn:E; [|exact IH].
  destruct s; discriminate.
Qed.

Lemma allChars_app p (a b : string) :
  allChars p (a ++ b) = allChars p a && allChars p b.
Proof. induction a as [|c a IH]; simpl; [reflexivity|]. now rewrite IH, andb_assoc. Qed.

Lemma fractionText_digits (a : string) :
  allChars isDigit a = true -> fractionText a = true.
Proof.
  induction a as [|c a IH]; simpl; [reflexivity|].
  intros H. apply andb_true_iff in H as [-> H]. auto.
Qed.

Lemma fractionText_app (a b : string) :
  allChars isDigit a = true -> allChars isDigit b = true ->
  fractionText (a ++ "." ++ b) = true.
Proof.
  induction a as [|c a IH]; simpl; intros Ha Hb.
  - exact Hb.
  - apply andb_true_iff in Ha as [-> Ha]. auto.
Qed.

Lemma hasString_chars (set : list ascii) c :
  hasString (map char set) (char c) = hasChar set c.
Proof.
  unfold hasString, hasChar.
  induction set as [|x set IH]; [reflexivity|].
  cbn [map existsb]. rewrite IH. f_equal.
  cbn. now destruct (Ascii.eqb c x).
Qed.

Ltac conj5 := split; [|split; [|split; [|split]]].

(** What one step of the loop pushes and where it leaves the
    counters. *)
Lemma scanStep_token c rest ln col tok t :
  scanStep c rest ln col = Ok (tok, t) ->
  match tok with
  | None => isWhitespace c = true /\ t = mkTokenizer rest ln col
  | Some token =>
      String c rest = value token ++ unread t
      /\ line token = ln /\ column token = col
      /\ tokenShape token = true
      /\ (curLine t, curColumn t) = countersAfter token ln col
  end.
Proof.
  unfold scanStep.
  destruct (Ascii.eqb c "010") eqn:E1.
  { apply Ascii.eqb_eq in E1. subst c. intros [= <- <-].
    conj5; reflexivity. }
  destruct (isWhitespace c) eqn:E2.
  { intros [= <- <-]. now split. }
  destruct (isQuote c) eqn:E3.
  { destruct (readString c rest ln col) as [[tok' t']|e] eqn:E; [|discriminate].
    intros [= <- <-]. unfold readString in E.
    eapply (@readStringLoop_ok _ _ _ (String.length rest)) in E;
      [|apply Nat.le_refl].
    destruct E as (body & Hs & -> & Hl & Hc). simpl in *.
    conj5; try reflexivity.
    - rewrite Hs at 1. now rewrite append_assoc.
    - unfold tokenShape. simpl. rewrite E3. apply endsWith_snoc.
    - unfold countersAfter. simpl. rewrite Hl, Hc. f_equal.
      rewrite length_append. simpl. lia. }
  destruct (isDigit c) eqn:E4.
  { unfold readNumber.
    pose proof (readWhile_app isDigit (String c rest)) as Happ.
    pose proof (readWhile_all isDigit (String c rest)) as Hall.
    rewrite (readWhile_eq isDigit (String c rest)).
    destruct (fst (readWhile isDigit (String c rest))) as [|d intPart] eqn:Ei.
    { simpl in Ei. rewrite E4 in Ei. destruct (readWhile isDigit rest). discriminate. }
    cbn [allChars] in Hall. apply andb_true_iff in Hall as [Hd Hall].
    destruct (snd (readWhile isDigit (String c rest))) as [|d' r2] eqn:Er.
    - intros [= <- <-]. cbn [value unread line column].
      conj5; try reflexivity.
      + now rewrite Happ.
      + unfold tokenShape. cbn [type value]. unfold numberText.
        rewrite Hd. now apply fractionText_digits.
    - destruct (Ascii.eqb d' ".") eqn:Edot.
      + apply Ascii.eqb_eq in Edot. subst d'.
        pose proof (readWhile_app isDigit r2) as Happ2.
        pose proof (readWhile_all isDigit r2) as Hall2.
        rewrite (readWhile_eq isDigit r2).
        intros [= <- <-]. cbn [value unread line column].
        conj5; try reflexivity.
        * rewrite <- Happ. cbn [append]. f_equal.
          rewrite append_assoc. cbn [append]. now rewrite Happ2.
        * unfold tokenShape. cbn [type value]. unfold numberText.
          change (String d intPart ++ "." ++ fst (readWhile isDigit r2))
            with (String d (intPart ++ "." ++ fst (readWhile isDigit r2))).
          rewrite Hd. now apply fractionText_app.
        * unfold countersAfter. cbn. f_equal.
          rewrite length_append. cbn. lia.
      + assert (Hsame :
          (let intPart := String d intPart in
           let col1 := col + String.length intPart in
           match String d' r2 with
           | String "."%char r2' =>
               let (fracPart, r3) := readWhile isDigit r2' in
               (mkToken T_number (intPart ++ "." ++ fracPart) ln col,
                mkTokenizer r3 ln (col1 + 1 + String.length fracPart))
           | _ => (mkToken T_number intPart ln col,
                   mkTokenizer (String d' r2) ln col1)
           end)
          = (mkToken T_number (String d intPart) ln col,
             mkTokenizer (String d' r2) ln
               (col + String.length (String d intPart)))).
        { destruct d' as [[] [] [] [] [] [] [] []]; try reflexivity.
          discriminate Edot. }
        cbv zeta in Hsame. rewrite Hsame.
        intros [= <- <-]. cbn [value unread line column].
        conj5; try reflexivity.
        * now rewrite Happ.
        * unfold tokenShape. cbn [type value]. unfold numberText.
          rewrite Hd. now apply fractionText_digits. }
  destruct (isIdentifierStart c) eqn:E5.
  { unfold readIdentifier.
    pose proof (readWhile_app isIdentifierPart (String c rest)) as Happ.
    pose proof (readWhile_all isIdentifierPart (String c rest)) as Hall.
    rewrite (readWhile_eq isIdentifierPart (String c rest)).
    intros [= <- <-]. cbn [value unread line column].
    conj5; try reflexivity.
    - symmetry. exact Happ.
    - unfold tokenShape. cbn [type value].
      revert Hall. cbn [readWhile].
      rewrite (isIdentifierStart_part _ E5).
      destruct (readWhile isIdentifierPart rest) as [v r]. cbn.
      rewrite E5. intros H. apply andb_true_iff in H as [_ H]. exact H. }
  destruct (Ascii.eqb c "-" && String.eqb (peekAhead1 rest) ">") eqn:E6.
  { intros [= <- <-]. apply andb_true_iff in E6 as [Ec Ep].
    apply Ascii.eqb_eq in Ec. subst c.
    destruct rest as [|d rest]; [discriminate|].
    cbn in Ep. destruct (Ascii.eqb d ">") eqn:Ed; [|discriminate].
    apply Ascii.eqb_eq in Ed. subst d.
    conj5; reflexivity. }
  destruct (hasString pairedOperators (char c ++ peekAhead1 rest)) eqn:E7.
  { intros [= <- <-].
    destruct rest as [|d rest].
    { exfalso. revert E7. cbn. rewrite !orb_false_r.
      destruct c as [[] [] [] [] [] [] [] []]; cbn; discriminate. }
    conj5; try reflexivity.
    unfold tokenShape. cbn [type value createToken peekAhead1].
    unfold operatorTexts. cbn [hasString existsb].
    cbn [peekAhead1] in E7. unfold hasString in E7.
    rewrite existsb_app.
    change (String c (char d)) with (char c ++ char d).
    rewrite E7. now rewrite orb_true_r. }
  destruct (hasChar punctuationChars c) eqn:E8.
  { intros [= <- <-]. conj5; try reflexivity.
    unfold tokenShape. cbn. exact E8. }
  destruct (hasChar singleCharOperators c) eqn:E9.
  { intros [= <- <-]. conj5; try reflexivity.
    unfold tokenShape. cbn [type value createToken].
    unfold operatorTexts, hasString. cbn [existsb].
    rewrite existsb_app.
    change (existsb (String.eqb (char c)) (map char singleCharOperators))
      with (hasString (map char singleCharOperators) (char c)).
    rewrite hasString_chars, E9. now rewrite !orb_true_r. }
  discriminate.
Qed.

(** A property of the position and the tokens pushed that every step
    keeps holds when the loop ends. *)
Lemma tokenizeLoop_invariant (P : Tokenizer -> list Token -> Prop) :
  (forall t tokens c rest tok t',
     P t tokens -> unread t = String c rest ->
     scanStep c rest (curLine t) (curColumn t) = Ok (tok, t') ->
     P t' (pushToken tokens tok)) ->
  forall fuel t tokens result,
    P t tokens -> tokenizeLoop fuel t tokens = Some (Ok result) ->
    exists t' front,
      P t' front /\ unread t' = ""
      /\ result
         = (front ++ [createToken T_eof "" (curLine t') (curColumn t')])%list.
Proof.
  intros Hstep. induction fuel as [|fuel IH]; intros t tokens result HP;
    [discriminate|].
  cbn [tokenizeLoop]. destruct (unread t) as [|c rest] eqn:Eu.
  - intros [= <-]. now exists t, tokens.
  - destruct (scanStep c rest (curLine t) (curColumn t)) as [[tok t']|e] eqn:Es;
      [|discriminate].
    apply IH. now apply (Hstep t tokens c rest).
Qed.

Lemma weave_snoc gaps : forall tokens gap token,
  List.length gaps = List.length tokens ->
  weave (gaps ++ [gap]) (tokens ++ [token])
  = weave gaps tokens ++ gap ++ value token.
Proof.
  induction gaps as [|g gaps IH]; intros [|tk tokens] gap token Hlen;
    try discriminate.
  - cbn. now rewrite append_nil_r.
  - cbn [app weave]. rewrite IH by now injection Hlen.
    now rewrite !append_assoc.
Qed.

(** X1. The source is the token values in order, separated by blanks,
    tabs and carriage returns only: the tokenizer drops nothing else,
    and the gaps are as many as the tokens, the end-of-input token
    included. *)
Theorem tokenize_keeps_source :
  forall source tokens,
    tokenize source = Some (Ok tokens) ->
    exists gaps,
      List.length gaps = List.length tokens
      /\ Forall (fun gap => blank gap = true) gaps
      /\ source = weave gaps tokens.
Proof.
  intros source tokens H. unfold tokenize in H.
  apply (tokenizeLoop_invariant
           (fun t tokens =>
              exists gaps pending,
                List.length gaps = List.length tokens
                /\ Forall (fun gap => blank gap = true) gaps
                /\ blank pending = true
                /\ source = weave gaps tokens ++ pending ++ unread t)) in H.
  - destruct H as (t' & front & (gaps & pending & Hlen & Hgaps & Hp & Hs)
                   & Hu & ->).
    exists (gaps ++ [pending])%list. split; [|split].
    + rewrite !length_app. cbn. lia.
    + apply Forall_app. split; [exact Hgaps | now constructor].
    + rewrite weave_snoc by exact Hlen. rewrite Hs, Hu. cbn [createToken value].
      now rewrite !append_nil_r.
  - clear. intros t tokens c rest tok t'
      (gaps & pending & Hlen & Hgaps & Hp & Hs) Hu Hstep.
    apply scanStep_token in Hstep. destruct tok as [token|].
    + destruct Hstep as (Htext & _).
      exists (gaps ++ [pending])%list, "". cbn [pushToken].
      split; [|split; [|split]].
      * rewrite !length_app. cbn. lia.
      * apply Forall_app. split; [exact Hgaps | now constructor].
      * reflexivity.
      * rewrite weave_snoc by exact Hlen. rewrite Hs, Hu, Htext.
        cbn [append]. now rewrite !append_assoc.
    + destruct Hstep as (Hws & ->). cbn [pushToken unread].
      exists gaps, (pending ++ char c). split; [exact Hlen|].
      split; [exact Hgaps|]. split.
      * unfold blank in *. rewrite allChars_app, Hp. cbn. now rewrite Hws.
      * rewrite Hs, Hu. now rewrite !append_assoc.
  - exists [], "". repeat split. constructor.
Qed.

Lemma snoc_split {A} (front : list A) (x : A) pre y post :
  (front ++ [x])%list = (pre ++ y :: post)%list ->
  (pre = front /\ y = x /\ post = [])
  \/ exists post', post = (post' ++ [x])%list /\ front = (pre ++ y :: post')%list.
Proof.
  destruct post as [|z post _] using rev_ind.
  - intros H. apply app_inj_tail in H as [-> ->]. now left.
  - intros H. right. exists post.
    change (pre ++ y :: post ++ [z])%list with (pre ++ (y :: post) ++ [z])%list in H.
    rewrite app_assoc in H. apply app_inj_tail in H as [-> ->]. now split.
Qed.

Lemma newlinesIn_snoc tokens token :
  newlinesIn (tokens ++ [token])
  = newlinesIn tokens + (if isNewlineToken token then 1 else 0).
Proof.
  unfold newlinesIn. rewrite filter_app, length_app. cbn.
  now destruct (isNewlineToken token).
Qed.

(** X2. The line of a token is one more than the number of newline
    tokens before it: a newline inside a string literal is part of the
    literal and does not count. *)
Theorem token_line_counts_newline_tokens :
  forall source tokens pre token post,
    tokenize source = Some (Ok tokens) ->
    tokens = (pre ++ token :: post)%list ->
    line token = 1 + newlinesIn pre.
Proof.
  intros source tokens pre token post H. unfold tokenize in H.
  apply (tokenizeLoop_invariant
           (fun t tokens =>
              curLine t = 1 + newlinesIn tokens
              /\ forall pre token post,
                   tokens = (pre ++ token :: post)%list ->
                   line token = 1 + newlinesIn pre)) in H.
  - destruct H as (t' & front & (Hline & Hfront) & _ & ->).
    intros Hsplit. apply snoc_split in Hsplit
      as [(-> & -> & _) | (post' & _ & ->)].
    + exact Hline.
    + now apply (Hfront pre token post').
  - clear. intros t tokens c rest tok t' (Hline & Htokens) Hu Hstep.
    apply scanStep_token in Hstep. destruct tok as [token|].
    + destruct Hstep as (_ & Hl & _ & _ & Hafter). cbn [pushToken]. split.
      * rewrite newlinesIn_snoc. unfold countersAfter in Hafter.
        destruct (isNewlineToken token);
          [|destruct (isStringToken token)]; injection Hafter as -> _; lia.
      * intros pre tk post Hsplit. apply snoc_split in Hsplit
          as [(-> & -> & _) | (post' & _ & ->)].
        -- congruence.
        -- now apply (Htokens pre tk post').
    + destruct Hstep as (_ & ->). cbn [pushToken curLine]. now split.
  - split; [reflexivity|]. intros [|] ? ? ?; discriminate.
Qed.

Lemma positionAfter_snoc tokens token :
  positionAfter (tokens ++ [token])
  = countersAfter token (fst (positionAfter tokens))
      (snd (positionAfter tokens)).
Proof. unfold positionAfter. now rewrite fold_left_app. Qed.

(** X3. The line and column of a token are a function of the tokens
    before it alone: the counters start at line 1, column 1; a newline
    token moves them to the next line, column 1; a string literal
    advances the column by its length less one; any other token
    advances it by its length.  Blanks between the tokens count for
    nothing. *)
Theorem token_positions_count_tokens_only :
  forall source tokens pre token post,
    tokenize source = Some (Ok tokens) ->
    tokens = (pre ++ token :: post)%list ->
    (line token, column token) = positionAfter pre.
Proof.
  intros source tokens pre token post H. unfold tokenize in H.
  apply (tokenizeLoop_invariant
           (fun t tokens =>
              (curLine t, curColumn t) = positionAfter tokens
              /\ forall pre token post,
                   tokens = (pre ++ token :: post)%list ->
                   (line token, column token) = positionAfter pre)) in H.
  - destruct H as (t' & front & (Hpos & Hfront) & _ & ->).
    intros Hsplit. apply snoc_split in Hsplit
      as [(-> & -> & _) | (post' & _ & ->)].
    + exact Hpos.
    + now apply (Hfront pre token post').
  - clear. intros t tokens c rest tok t' (Hpos & Htokens) Hu Hstep.
    apply scanStep_token in Hstep. destruct tok as [token|].
    + destruct Hstep as (_ & Hl & Hc & _ & Hafter). cbn [pushToken]. split.
      * rewrite positionAfter_snoc, <- Hpos. exact Hafter.
      * intros pre tk post Hsplit. apply snoc_split in Hsplit
          as [(-> & -> & _) | (post' & _ & ->)].
        -- rewrite <- Hpos. now rewrite Hl, Hc.
        -- now apply (Htokens pre tk post').
    + destruct Hstep as (_ & ->). cbn [pushToken curLine curColumn].
      now split.
  - split; [reflexivity|]. intros [|] ? ? ?; discriminate.
Qed.

Lemma dropLast_snoc (s : string) q :
  endsWith q s = true -> s = dropLast s ++ char q.
Proof.
  unfold dropLast. induction s as [|c s IH]; [discriminate|].
  cbn [endsWith]. destruct s as [|d s].
  - intros H. apply Ascii.eqb_eq in H. now subst.
  - intros H. specialize (IH H).
    cbn [String.length Nat.sub] in *. rewrite Nat.sub_0_r in *.
    cbn [substring]. cbn [append]. f_equal. exact IH.
Qed.

Lemma tokenize_shapes source tokens :
  tokenize source = Some (Ok tokens) ->
  Forall (fun token => tokenShape token = true) tokens.
Proof.
  intros H. unfold tokenize in H.
  apply (tokenizeLoop_invariant
           (fun _ tokens => Forall (fun token => tokenShape token = true) tokens))
    in H.
  - destruct H as (t' & front & Hfront & _ & ->).
    apply Forall_app. split; [exact Hfront | now constructor].
  - clear. intros t tokens c rest tok t' Htokens Hu Hstep.
    apply scanStep_token in Hstep. destruct tok as [token|]; [|exact Htokens].
    destruct Hstep as (_ & _ & _ & Hshape & _). cbn [pushToken].
    apply Forall_app. split; [exact Htokens | now constructor].
  - constructor.
Qed.

(** X4. Every token holds a text of its type: an identifier starts
    with a letter, an underscore or a hash sign and goes on with
    identifier characters; a number is digits, then nothing or a dot and
    digits; a string literal starts and ends with the same quote; an
    operator or a punctuation mark is one of the listed texts; the
    end-of-input token is empty.  The text that the parser takes from a
    string literal with [slice(1, -1)] is therefore the text between
    its quotes. *)
Theorem tokens_are_well_formed :
  forall source tokens,
    tokenize source = Some (Ok tokens) ->
    Forall (fun token => tokenShape token = true) tokens
    /\ Forall (fun token =>
                 type token = T_string ->
                 exists quote,
                   isQuote quote = true
                   /\ value token
                      = char quote ++ slice_1_m1 (value token) ++ char quote)
         tokens.
Proof.
  intros source tokens H.
  pose proof (tokenize_shapes _ H) as Hall.
  split; [exact Hall|].
  eapply Forall_impl; [|exact Hall].
  intros [ty v ln col]. unfold tokenShape. cbn [type value].
  intros Hshape ->. destruct v as [|q rest]; [discriminate|].
  apply andb_true_iff in Hshape as [Hq Hend].
  exists q. split; [exact Hq|].
  change (String q rest = String q (dropLast rest ++ char q)). f_equal.
  now apply dropLast_snoc.
Qed.

Lemma allChars_impl (p q : ascii -> bool) (s : string) :
  (forall c, p c = true -> q c = true) ->
  allChars p s = true -> allChars q s = true.
Proof.
  intros Hpq. induction s as [|c s IH]; [reflexivity|].
  cbn [allChars]. intros H. apply andb_true_iff in H as [Hc Hs].
  now rewrite (Hpq c Hc), IH.
Qed.

Lemma lineColumnFrom_app (a : string) :
  forall b k ln col,
    lineColumnFrom (a ++ b) (String.length a + k) ln col
    = lineColumnFrom b k
        (fst (lineColumnFrom a (String.length a) ln col))
        (snd (lineColumnFrom a (String.length a) ln col)).
Proof.
  induction a as [|c a IH]; intros b k ln col.
  - cbn. now destruct k, b.
  - cbn [append String.length Nat.add lineColumnFrom].
    destruct (Ascii.eqb c "010"); apply IH.
Qed.

Lemma lineColumnFrom_noLF (text : string) :
  forall ln col,
    allChars notLF text = true ->
    lineColumnFrom text (String.length text) ln col
    = (ln, col + String.length text).
Proof.
  induction text as [|c text IH]; intros ln col H.
  - cbn. f_equal. lia.
  - cbn [allChars] in H. apply andb_true_iff in H as [Hc H].
    cbn [String.length lineColumnFrom]. unfold notLF in Hc.
    destruct (Ascii.eqb c "010"); [discriminate|].
    rewrite IH by exact H. f_equal. lia.
Qed.

Lemma isIdentifierPart_notLF c : isIdentifierPart c = true -> notLF c = true.
Proof.
  intros H. destruct (Ascii.eqb c "010") eqn:E.
  - apply Ascii.eqb_eq in E. subst c. discriminate H.
  - unfold notLF. now rewrite E.
Qed.

Lemma isDigit_notLF c : isDigit c = true -> notLF c = true.
Proof.
  intros H. destruct (Ascii.eqb c "010") eqn:E.
  - apply Ascii.eqb_eq in E. subst c. discriminate H.
  - unfold notLF. now rewrite E.
Qed.

Lemma fractionText_notLF (s : string) :
  fractionText s = true -> allChars notLF s = true.
Proof.
  induction s as [|c s IH]; [reflexivity|]. cbn [fractionText allChars].
  destruct (isDigit c) eqn:Ed.
  - intros H. now rewrite (isDigit_notLF _ Ed), IH.
  - intros H. apply andb_true_iff in H as [Hc Hs].
    apply Ascii.eqb_eq in Hc. subst c. cbn.
    eapply allChars_impl; [|exact Hs]. apply isDigit_notLF.
Qed.

Lemma hasString_In set v : hasString set v = true -> In v set.
Proof.
  unfold hasString. intros H. apply existsb_exists in H as (x & Hin & Hx).
  apply String.eqb_eq in Hx. now subst.
Qed.

Lemma hasChar_In set c : hasChar set c = true -> In c set.
Proof.
  unfold hasChar. intros H. apply existsb_exists in H as (x & Hin & Hx).
  apply Ascii.eqb_eq in Hx. now subst.
Qed.

(** Outside newline tokens and string literals a token holds no
    newline. *)
Lemma tokenShape_notLF token :
  tokenShape token = true ->
  isNewlineToken token = false -> isStringToken token = false ->
  allChars notLF (value token) = true.
Proof.
  destruct token as [ty v ln col].
  unfold tokenShape, isNewlineToken, isStringToken. cbn [type value].
  destruct ty; cbn [TokenType_eqb]; try discriminate; intros H _ _.
  - destruct v as [|c rest]; [discriminate|].
    apply andb_true_iff in H as [Hc Hrest]. cbn [allChars].
    rewrite (isIdentifierPart_notLF _ (isIdentifierStart_part _ Hc)).
    eapply allChars_impl; [|exact Hrest]. apply isIdentifierPart_notLF.
  - destruct v as [|c rest]; [discriminate|]. cbn [numberText] in H.
    apply andb_true_iff in H as [Hc Hrest]. cbn [allChars].
    now rewrite (isDigit_notLF _ Hc), fractionText_notLF.
  - apply hasString_In in H.
    assert (Hall : Forall (fun v => allChars notLF v = true) operatorTexts)
      by (repeat constructor).
    now apply (proj1 (Forall_forall _ _) Hall).
  - destruct v as [|c [|]]; try discriminate.
    apply hasChar_In in H.
    assert (Hall : Forall (fun c => notLF c = true) punctuationChars)
      by (repeat constructor).
    cbn. rewrite andb_true_r.
    now apply (proj1 (Forall_forall _ _) Hall).
  - apply String.eqb_eq in H. now subst.
Qed.

Lemma tokenText_app (a b : list Token) :
  tokenText (a ++ b) = tokenText a ++ tokenText b.
Proof. unfold tokenText. now rewrite map_app, join_empty_app. Qed.

Lemma tokenText_snoc (tokens : list Token) token :
  tokenText (tokens ++ [token]) = tokenText tokens ++ value token.
Proof. now rewrite tokenText_app. Qed.

(** In a source of plain characters [exactSoFar] holds all along the
    loop. *)
Lemma exactSoFar_step source t tokens c rest tok t' :
  exactSoFar source t tokens ->
  unread t = String c rest ->
  scanStep c rest (curLine t) (curColumn t) = Ok (tok, t') ->
  exactSoFar source t' (pushToken tokens tok).
Proof.
  intros (Hs & Hplain & Hpos & Htokens) Hu Hstep.
  apply scanStep_token in Hstep. rewrite Hu in Hplain, Hs.
  cbn [allChars] in Hplain. apply andb_true_iff in Hplain as [Hc Hrest].
  unfold plainChar in Hc. apply negb_true_iff, orb_false_iff in Hc as [Hws Hq].
  destruct tok as [token|]; [|destruct Hstep; congruence].
  destruct Hstep as (Htext & Hl & Hcol & Hshape & Hafter).
  assert (Hstring : isStringToken token = false).
  { destruct token as [ty v ln col]. unfold isStringToken.
    cbn [type value] in *. destruct ty; try reflexivity.
    unfold tokenShape in Hshape. cbn [type value] in Hshape.
    destruct v as [|q v]; [discriminate|].
    injection Htext as <- _. apply andb_true_iff in Hshape as [Hq' _].
    congruence. }
  unfold exactSoFar. cbn [pushToken]. rewrite tokenText_snoc.
  split; [|split; [|split]].
  - rewrite Hs, Htext. now rewrite append_assoc.
  - assert (Hall : allChars plainChar (String c rest) = true).
    { cbn [allChars]. unfold plainChar at 1. now rewrite Hws, Hq, Hrest. }
    rewrite Htext, allChars_app in Hall.
    now apply andb_true_iff in Hall as [_ Hall].
  - rewrite length_append, lineColumnFrom_app, Hpos. cbn [fst snd].
    rewrite Hafter. unfold countersAfter. rewrite Hstring.
    destruct (isNewlineToken token) eqn:Hnl.
    + destruct token as [ty v ln col]. unfold isNewlineToken in Hnl.
      cbn [type value] in *. destruct ty; try discriminate.
      unfold tokenShape in Hshape. cbn [type value] in Hshape.
      apply String.eqb_eq in Hshape. now subst v.
    + apply lineColumnFrom_noLF. now apply tokenShape_notLF.
  - intros pre tk post Hsplit. apply snoc_split in Hsplit
      as [(-> & -> & _) | (post' & _ & ->)].
    + rewrite Hpos. congruence.
    + now apply (Htokens pre tk post').
Qed.

Lemma exactSoFar_start source :
  allChars plainChar source = true ->
  exactSoFar source (mkTokenizer source 1 1) [].
Proof.
  intros Hplain. unfold exactSoFar. cbn.
  repeat split; try exact Hplain. intros [|] ? ? ?; discriminate.
Qed.

Lemma lineColumnAt_prefix (a b : string) :
  lineColumnAt (a ++ b) (String.length a)
  = lineColumnFrom a (String.length a) 1 1.
Proof.
  unfold lineColumnAt.
  rewrite <- (Nat.add_0_r (String.length a)) at 1.
  rewrite lineColumnFrom_app.
  destruct (lineColumnFrom a (String.length a) 1 1). now destruct b.
Qed.

(** X5. In a source with no blank, tab, carriage return or quote, the
    source is the token values one after the other, and every token
    carries the line and column of its first character. *)
Theorem token_positions_exact :
  forall source tokens pre token post,
    allChars plainChar source = true ->
    tokenize source = Some (Ok tokens) ->
    tokens = (pre ++ token :: post)%list ->
    source = tokenText tokens
    /\ (line token, column token)
       = lineColumnAt source (String.length (tokenText pre)).
Proof.
  intros source tokens pre token post Hplain H. unfold tokenize in H.
  apply (tokenizeLoop_invariant (exactSoFar source)) in H.
  - destruct H as (t' & front & (Hs & _ & Hpos & Hfront) & Hu & ->).
    intros Hsplit. rewrite Hu, append_nil_r in Hs.
    assert (Hsource : source
              = tokenText (front ++ [createToken T_eof "" (curLine t')
                                       (curColumn t')])).
    { rewrite tokenText_snoc. cbn [createToken value].
      now rewrite append_nil_r. }
    split; [exact Hsource|].
    assert (Hat : lineColumnFrom (tokenText pre)
                    (String.length (tokenText pre)) 1 1
                  = (line token, column token)).
    { apply snoc_split in Hsplit as [(-> & -> & _) | (post' & _ & ->)].
      - exact Hpos.
      - now apply (Hfront pre token post'). }
    rewrite Hsource, Hsplit, tokenText_app, lineColumnAt_prefix.
    now rewrite Hat.
  - intros t tokens0 c rest tok t'. apply exactSoFar_step.
  - now apply exactSoFar_start.
Qed.

(** When the loop throws, it throws at a step, and a property that
    every step keeps holds there. *)
Lemma tokenizeLoop_throws (P : Tokenizer -> list Token -> Prop) :
  (forall t tokens c rest tok t',
     P t tokens -> unread t = String c rest ->
     scanStep c rest (curLine t) (curColumn t) = Ok (tok, t') ->
     P t' (pushToken tokens tok)) ->
  forall fuel t tokens e,
    P t tokens -> tokenizeLoop fuel t tokens = Some (Throw e) ->
    exists t' front c rest,
      P t' front /\ unread t' = String c rest
      /\ scanStep c rest (curLine t') (curColumn t') = Throw e.
Proof.
  intros Hstep. induction fuel as [|fuel IH]; intros t tokens e HP;
    [discriminate|].
  cbn [tokenizeLoop]. destruct (unread t) as [|c rest] eqn:Eu; [discriminate|].
  destruct (scanStep c rest (curLine t) (curColumn t)) as [[tok t']|e'] eqn:Es.
  - apply IH. now apply (Hstep t tokens c rest).
  - intros [= <-]. now exists t, tokens, c, rest.
Qed.

(** X6. In a source with no blank, tab, carriage return or quote, the
    tokenizer throws only for a character that it does not recognize,
    and the error carries the line and column of that character. *)
Theorem unexpected_character_position_exact :
  forall source e,
    allChars plainChar source = true ->
    tokenize source = Some (Throw e) ->
    exists prefix c rest,
      source = prefix ++ String c rest
      /\ recognized c rest = false
      /\ message e = "Unexpected character '" ++ char c ++ "'"
      /\ (errLine e, errColumn e) = lineColumnAt source (String.length prefix).
Proof.
  intros source e Hplain H. unfold tokenize in H.
  apply (tokenizeLoop_throws (exactSoFar source)) in H.
  - destruct H as (t' & front & c & rest & (Hs & Hrest & Hpos & _) & Hu & He).
    rewrite Hu in Hs, Hrest. cbn [allChars] in Hrest.
    apply andb_true_iff in Hrest as [Hc _]. unfold plainChar in Hc.
    apply negb_true_iff, orb_false_iff in Hc as [_ Hq].
    apply scanStep_throw_iff in He as [(Hq' & _) | (Hr & ->)];
      [congruence|].
    exists (tokenText front), c, rest. cbn [message errLine errColumn].
    split; [exact Hs|]. split; [exact Hr|]. split; [reflexivity|].
    rewrite Hs at 1. now rewrite lineColumnAt_prefix, Hpos.
  - intros t tokens0 c rest tok t'. apply exactSoFar_step.
  - now apply exactSoFar_start.
Qed.

(** On blanks and newlines the loop pushes newline tokens only. *)
Lemma tokenizeLoop_blank fuel :
  forall t tokens,
    String.length (unread t) < fuel ->
    allChars blankChar (unread t) = true ->
    exists front ln col,
      tokenizeLoop fuel t tokens
      = Some (Ok (tokens ++ front ++ [mkToken T_eof "" ln col])%list)
      /\ Forall (fun token => isNewlineToken token = true) front.
Proof.
  induction fuel as [|fuel IH]; intros t tokens Hlen Hblank; [lia|].
  cbn [tokenizeLoop]. destruct (unread t) as [|c rest] eqn:Eu.
  - exists [], (curLine t), (curColumn t). split; [reflexivity | constructor].
  - cbn [allChars String.length] in *.
    apply andb_true_iff in Hblank as [Hc Hrest]. unfold scanStep.
    destruct (Ascii.eqb c "010") eqn:E1.
    + destruct (IH (mkTokenizer rest (curLine t + 1) 1)
                  (pushToken tokens
                     (Some (createToken T_newline (char "010") (curLine t)
                              (curColumn t)))))
        as (front & ln & col & E & Hfront); [cbn; lia | exact Hrest |].
      rewrite E. cbn [pushToken].
      exists (createToken T_newline (char "010") (curLine t) (curColumn t)
              :: front), ln, col.
      split; [now rewrite <- app_assoc | now constructor].
    + unfold blankChar in Hc. rewrite E1 in Hc. cbn in Hc. rewrite Hc.
      destruct (IH (mkTokenizer rest (curLine t) (curColumn t))
                  (pushToken tokens None))
        as (front & ln & col & E & Hfront); [cbn; lia | exact Hrest |].
      rewrite E. cbn [pushToken]. now exists front, ln, col.
Qed.

Lemma readWhile_stopsAt p (s : string) :
  stopsAt p (snd (readWhile p s)) = true.
Proof.
  destruct (snd (readWhile p s)) as [|c rest] eqn:E; [reflexivity|].
  cbn. now rewrite (readWhile_stop p s E).
Qed.

(** X7. [readIdentifier] takes the longest run of identifier
    characters, which include the dot, the hyphen and the hash sign:
    the token and the unread input make up the input, the unread input
    starts with no identifier character, and the column counter has
    advanced by the length of the token. *)
Theorem readIdentifier_longest_match :
  forall src ln col,
    let token := fst (readIdentifier src ln col) in
    let t := snd (readIdentifier src ln col) in
    src = value token ++ unread t
    /\ allChars isIdentifierPart (value token) = true
    /\ stopsAt isIdentifierPart (unread t) = true
    /\ (type token, line token, column token) = (T_identifier, ln, col)
    /\ (curLine t, curColumn t) = (ln, col + String.length (value token)).
Proof.
  intros src ln col. unfold readIdentifier.
  rewrite (readWhile_eq isIdentifierPart src). cbn.
  conj5; try reflexivity.
  - symmetry. apply readWhile_app.
  - apply readWhile_all.
  - apply readWhile_stopsAt.
Qed.

(** X8. [readNumber] takes the longest run of digits and, when a dot
    follows, the dot and the longest run of digits after it, which may
    be empty; the unread input then starts with no digit, and with no
    dot either when no dot was taken. *)
Theorem readNumber_longest_match :
  forall src ln col,
    let token := fst (readNumber src ln col) in
    let t := snd (readNumber src ln col) in
    exists intPart fraction,
      value token = intPart ++ fraction
      /\ src = value token ++ unread t
      /\ allChars isDigit intPart = true
      /\ (fraction = ""
          /\ stopsAt (fun c => isDigit c || Ascii.eqb c ".") (unread t) = true
          \/ exists digits,
               fraction = "." ++ digits
               /\ allChars isDigit digits = true
               /\ stopsAt isDigit (unread t) = true)
      /\ (type token, line token, column token) = (T_number, ln, col)
      /\ (curLine t, curColumn t) = (ln, col + String.length (value token)).
Proof.
  intros src ln col. unfold readNumber.
  pose proof (readWhile_app isDigit src) as Happ.
  pose proof (readWhile_all isDigit src) as Hall.
  pose proof (readWhile_stopsAt isDigit src) as Hstop.
  rewrite (readWhile_eq isDigit src).
  set (intPart := fst (readWhile isDigit src)) in *.
  destruct (snd (readWhile isDigit src)) as [|d r2] eqn:Er.
  - exists intPart, "". cbn. rewrite append_nil_r.
    split; [reflexivity|]. split; [now rewrite <- Happ, append_nil_r|].
    split; [exact Hall|]. split; [now left|]. now split.
  - destruct (Ascii.eqb d ".") eqn:Edot.
    + apply Ascii.eqb_eq in Edot. subst d.
      pose proof (readWhile_app isDigit r2) as Happ2.
      rewrite (readWhile_eq isDigit r2).
      exists intPart, ("." ++ fst (readWhile isDigit r2)). cbn.
      split; [reflexivity|]. split.
      { rewrite <- Happ. rewrite append_assoc. cbn. now rewrite Happ2. }
      split; [exact Hall|]. split.
      { right. eexists. split; [reflexivity|].
        split; [apply readWhile_all | apply readWhile_stopsAt]. }
      split; [reflexivity|]. f_equal. rewrite length_append. cbn. lia.
    + assert (Hsame :
        (let col1 := col + String.length intPart in
         match String d r2 with
         | String "."%char r2' =>
             let (fracPart, r3) := readWhile isDigit r2' in
             (mkToken T_number (intPart ++ "." ++ fracPart) ln col,
              mkTokenizer r3 ln (col1 + 1 + String.length fracPart))
         | _ => (mkToken T_number intPart ln col,
                 mkTokenizer (String d r2) ln col1)
         end)
        = (mkToken T_number intPart ln col,
           mkTokenizer (String d r2) ln (col + String.length intPart))).
      { destruct d as [[] [] [] [] [] [] [] []]; try reflexivity.
        discriminate Edot. }
      cbv zeta in Hsame. rewrite Hsame.
      exists intPart, "". cbn. rewrite append_nil_r.
      split; [reflexivity|]. split; [now rewrite <- Happ|].
      split; [exact Hall|]. split; [|now split].
      left. split; [reflexivity|]. cbn in Hstop.
      apply negb_true_iff in Hstop. now rewrite Hstop, Edot.
Qed.

(** *** An arrow after an identifier *)

(** The loop only adds to the tokens it is given. *)
Lemma tokenizeLoop_extends fuel :
  forall t acc tokens,
    tokenizeLoop fuel t acc = Some (Ok tokens) ->
    exists more, tokens = (acc ++ more)%list.
Proof.
  induction fuel as [|fuel IH]; intros t acc tokens; [discriminate|].
  cbn [tokenizeLoop]. destruct (unread t) as [|c rest].
  - intros [= <-]. eauto.
  - destruct (scanStep c rest (curLine t) (curColumn t)) as [[tok t']|e];
      [|discriminate].
    intros H. apply IH in H as (more & ->).
    destruct tok as [token|]; cbn [pushToken].
    + exists (token :: more). now rewrite <- app_assoc.
    + now exists more.
Qed.

Lemma scanStep_identifier c rest ln col :
  isIdentifierStart c = true ->
  scanStep c rest ln col
  = (let (tok, t) := readIdentifier (String c rest) ln col in Ok (Some tok, t)).
Proof.
  intros H. unfold scanStep.
  destruct c as [[] [] [] [] [] [] [] []]; try discriminate H; reflexivity.
Qed.

Lemma readWhile_prefix p (a b : string) :
  allChars p a = true ->
  readWhile p (a ++ b)
  = (a ++ fst (readWhile p b), snd (readWhile p b)).
Proof.
  induction a as [|c a IH]; intros H; cbn [append].
  - now destruct (readWhile p b).
  - cbn [allChars] in H. apply andb_true_iff in H as [Hc Ha].
    cbn [readWhile]. now rewrite Hc, (IH Ha).
Qed.

(** X9. An arrow written right after an identifier is not an arrow
    token: the hyphen is an identifier character, so the identifier
    token takes it, and the next token is the operator [>] or [>=].  A
    lambda [x -> e] needs a blank before its arrow. *)
Theorem arrow_after_identifier_is_split :
  forall c name rest tokens,
    isIdentifierStart c = true ->
    allChars isIdentifierPart name = true ->
    tokenize (String c name ++ "->" ++ rest) = Some (Ok tokens) ->
    exists next others,
      tokens
      = mkToken T_identifier (String c name ++ "-") 1 1 :: next :: others
      /\ type next = T_operator
      /\ (value next = ">" \/ value next = ">=").
Proof.
  intros c name rest tokens Hc Hname. unfold tokenize.
  change (String c name ++ "->" ++ rest)
    with (String c (name ++ "->" ++ rest)).
  cbn [String.length tokenizeLoop unread curLine curColumn].
  rewrite (@scanStep_identifier c _ _ _ Hc). unfold readIdentifier.
  assert (Hread : readWhile isIdentifierPart (String c (name ++ "->" ++ rest))
                  = (String c name ++ "-", ">" ++ rest)).
  { change (String c (name ++ "->" ++ rest))
      with (String c name ++ "->" ++ rest).
    rewrite readWhile_prefix.
    - reflexivity.
    - cbn [allChars]. now rewrite (@isIdentifierStart_part c Hc). }
  rewrite Hread. cbn [pushToken app].
  rewrite length_append. cbn [String.length]. rewrite !Nat.add_succ_r.
  cbn [tokenizeLoop unread curLine curColumn append].
  match goal with
  | |- context [scanStep ?a ?b ?ln ?col] =>
      destruct (scanStep a b ln col) as [[tok t']|e] eqn:Es; [|discriminate]
  end.
  intros H. apply tokenizeLoop_extends in H as (more & ->).
  revert Es. unfold scanStep. cbn -[pairedOperators hasString].
  destruct (hasString pairedOperators (String ">" (peekAhead1 rest))) eqn:Ep.
  - intros [= <- <-]. cbn [pushToken app].
    eexists _, more. split; [reflexivity|]. split; [reflexivity|].
    right. cbn [createToken value].
    apply hasString_In in Ep. cbn in Ep.
    repeat (destruct Ep as [Ep | Ep]; try discriminate Ep; try (now rewrite <- Ep)).
    contradiction.
  - cbn. intros [= <- <-]. cbn [pushToken app].
    eexists _, more. split; [reflexivity|]. split; [reflexivity|]. now left.
Qed.

(** ** Code generator *)

Lemma generator_eta (g : CodeGenerator) :
  mkCodeGenerator (output g) (indentLevel g) = g.
Proof. now destruct g. Qed.

Lemma pure_gret {A} (a : A) : pure (gret a).
Proof. intros g. reflexivity. Qed.

Lemma gbind_pure {A B} (m : Gen A) (k : A -> Gen B) g :
  pure m -> gbind m k g = k (fst (m g)) g.
Proof.
  intros Hm. unfold gbind. specialize (Hm g).
  destruct (m g) as [a g']. simpl in *. now subst.
Qed.

Lemma pure_gbind {A B} (m : Gen A) (k : A -> Gen B) :
  pure m -> (forall a, pure (k a)) -> pure (gbind m k).
Proof. intros Hm Hk g. rewrite gbind_pure by exact Hm. apply Hk. Qed.

Lemma pure_getIndentLevel : pure getIndentLevel.
Proof. intros g. reflexivity. Qed.

(** [capture] gives back the generator it was called on. *)
Lemma capture_spec indent fn g :
  capture indent fn g = (rendered indent fn, g).
Proof.
  unfold capture, rendered.
  destruct (fn (mkCodeGenerator [] indent)) as [u g']. simpl.
  now rewrite generator_eta.
Qed.

Lemma pure_capture indent fn : pure (capture indent fn).
Proof. intros g. now rewrite capture_spec. Qed.

Lemma pure_mapGen {A} (actions : list (Gen A)) :
  Forall pure actions -> pure (mapGen actions).
Proof.
  induction 1 as [|a rest Ha _ IH]; simpl; [apply pure_gret|].
  apply pure_gbind; [exact Ha|]. intros x.
  apply pure_gbind; [exact IH|]. intros xs. apply pure_gret.
Qed.

(** Induction on expressions, through the lists and options of
    sub-expressions; the body of a lambda counts as a sub-expression
    when it is one. *)
Lemma Expression_nested_ind (P : Expression -> Prop) :
  (forall name, P (Identifier name)) ->
  (forall lit, P (Literal lit)) ->
  (forall operator lhs rhs, P lhs -> P rhs ->
     P (BinaryExpression operator lhs rhs)) ->
  (forall operator lhs rhs, P lhs -> P rhs ->
     P (LogicalExpression operator lhs rhs)) ->
  (forall operator argument, P argument ->
     P (UnaryExpression operator argument)) ->
  (forall callee arguments, P callee -> Forall P arguments ->
     P (CallExpression callee arguments)) ->
  (forall object property, P object -> P (MemberExpression object property)) ->
  (forall elements, Forall P elements -> P (ListExpression elements)) ->
  (forall entries, Forall (fun entry => P (snd entry)) entries ->
     P (MapExpression entries)) ->
  (forall params block, P (LambdaExpression params (BlockBody block))) ->
  (forall params e, P e -> P (LambdaExpression params (ExpressionBody e))) ->
  (forall template val, P val -> P (RenderExpression template val)) ->
  (forall target property, P target ->
     P (GetExpression target property None)) ->
  (forall target property e, P target -> P e ->
     P (GetExpression target property (Some e))) ->
  (forall inner, P inner -> P (Group inner)) ->
  forall expression, P expression.
Proof.
  intros HId HLit HBin HLog HUn HCall HMem HList HMap HLamB HLamE HRen
    HGetN HGetS HGroup.
  fix IH 1. intros expression.
  destruct expression as
    [name | lit | operator lhs rhs | operator lhs rhs | operator argument
    | callee arguments | object property | elements | entries | params body
    | template val | target property extra | inner].
  - apply HId.
  - apply HLit.
  - apply HBin; apply IH.
  - apply HLog; apply IH.
  - apply HUn; apply IH.
  - apply HCall; [apply IH|].
    induction arguments as [|a rest IHrest]; constructor;
      [apply IH | exact IHrest].
  - apply HMem; apply IH.
  - apply HList.
    induction elements as [|a rest IHrest]; constructor;
      [apply IH | exact IHrest].
  - apply HMap.
    induction entries as [|[key val] rest IHrest]; constructor;
      [apply IH | exact IHrest].
  - destruct body as [block | e]; [apply HLamB | apply HLamE; apply IH].
  - apply HRen; apply IH.
  - destruct extra as [e|]; [apply HGetS | apply HGetN]; apply IH.
  - apply HGroup; apply IH.
Qed.

Ltac pure_step :=
  first
    [ apply pure_gret
    | apply pure_getIndentLevel
    | apply pure_capture
    | apply pure_gbind; [| intros ? ]
    | assumption ].

(** Generating an expression leaves the generator as it was: the only
    text an expression emits goes through [capture]. *)
Lemma generateExpression_pure :
  forall expression parentPrecedence,
    pure (generateExpression expression parentPrecedence).
Proof.
  induction expression using Expression_nested_ind; intros pp; simpl.
  - apply pure_gret.
  - apply pure_gret.
  - unfold generateBinary, runtimeCall.
    repeat match goal with
           | |- context [if ?b then _ else _] => destruct b
           end; repeat pure_step; auto.
  - unfold generateLogical. repeat pure_step; auto.
  - unfold generateUnary.
    repeat match goal with
           | |- context [if ?b then _ else _] => destruct b
           end; repeat pure_step; auto.
  - apply pure_gbind; [auto|]. intros c.
    apply pure_gbind; [|intros; apply pure_gret].
    apply pure_mapGen. apply Forall_map.
    eapply Forall_impl; [|eassumption]. auto.
  - repeat pure_step; auto.
  - apply pure_gbind; [|intros; apply pure_gret].
    apply pure_mapGen. apply Forall_map.
    eapply Forall_impl; [|eassumption]. auto.
  - apply pure_gbind; [|intros; apply pure_gret].
    apply pure_mapGen. apply Forall_map.
    eapply Forall_impl; [|eassumption].
    intros [key val] Hval. simpl in Hval. repeat pure_step; auto.
  - unfold generateLambda. repeat pure_step.
  - unfold generateLambda. repeat pure_step.
    exact (IHexpression 0).
  - repeat pure_step; auto.
  - unfold generateGet. repeat pure_step; auto.
  - unfold generateGet. repeat pure_step; auto.
  - repeat pure_step; auto.
Qed.

Lemma generateExpression_run expression parentPrecedence g :
  generateExpression expression parentPrecedence g
  = (fst (generateExpression expression parentPrecedence g), g).
Proof.
  pose proof (generateExpression_pure expression parentPrecedence g) as H.
  destruct (generateExpression expression parentPrecedence g). simpl in *.
  now subst.
Qed.

Lemma runtimeCall_run fn lhs rhs g :
  runtimeCall fn (fun p => generateExpression lhs p)
    (fun p => generateExpression rhs p) g
  = ("sprout.ops." ++ fn ++ "(" ++ fst (generateExpression lhs 0 g) ++ ", "
     ++ fst (generateExpression rhs 0 g) ++ ")", g).
Proof.
  unfold runtimeCall.
  rewrite gbind_pure by apply generateExpression_pure.
  rewrite gbind_pure by apply generateExpression_pure.
  reflexivity.
Qed.

(** C3. A binary expression with operator [+], [-], [==] or [!=] is
    emitted as a call of [sprout.ops.add], [sprout.ops.subtract],
    [sprout.ops.equals] or [sprout.ops.notEquals] on the generated
    operands, never as the native operator; unary [-] is emitted as a
    call of [sprout.ops.negate] and unary [!] as native negation. *)
Theorem operators_lowered_to_runtime_calls :
  forall lhs rhs argument parentPrecedence g,
    let l := fst (generateExpression lhs 0 g) in
    let r := fst (generateExpression rhs 0 g) in
    let a := fst (generateExpression argument 0 g) in
    generateExpression (BinaryExpression "+" lhs rhs) parentPrecedence g
    = ("sprout.ops.add(" ++ l ++ ", " ++ r ++ ")", g)
    /\ generateExpression (BinaryExpression "-" lhs rhs) parentPrecedence g
       = ("sprout.ops.subtract(" ++ l ++ ", " ++ r ++ ")", g)
    /\ generateExpression (BinaryExpression "==" lhs rhs) parentPrecedence g
       = ("sprout.ops.equals(" ++ l ++ ", " ++ r ++ ")", g)
    /\ generateExpression (BinaryExpression "!=" lhs rhs) parentPrecedence g
       = ("sprout.ops.notEquals(" ++ l ++ ", " ++ r ++ ")", g)
    /\ generateExpression (UnaryExpression "-" argument) parentPrecedence g
       = ("sprout.ops.negate(" ++ a ++ ")", g)
    /\ generateExpression (UnaryExpression "!" argument) parentPrecedence g
       = ("!(" ++ a ++ ")", g).
Proof.
  intros lhs rhs argument pp g l r a. subst l r a.
  repeat split.
  - exact (runtimeCall_run "add" lhs rhs g).
  - exact (runtimeCall_run "subtract" lhs rhs g).
  - exact (runtimeCall_run "equals" lhs rhs g).
  - exact (runtimeCall_run "notEquals" lhs rhs g).
  - change (generateExpression (UnaryExpression "-" argument) pp g)
      with (gbind (generateExpression argument 0)
              (fun a => gret ("sprout.ops.negate(" ++ a ++ ")")) g).
    now rewrite gbind_pure by apply generateExpression_pure.
  - change (generateExpression (UnaryExpression "!" argument) pp g)
      with (gbind (generateExpression argument 0)
              (fun a => gret ("!(" ++ a ++ ")")) g).
    now rewrite gbind_pure by apply generateExpression_pure.
Qed.





Lemma join_empty_cons x (l : list string) : join "" (x :: l) = x ++ join "" l.
Proof. destruct l; simpl; [now rewrite append_nil_r | reflexivity]. Qed.

Lemma appends_gret : appends (gret tt).
Proof.
  intros g. exists []. unfold gret. now rewrite app_nil_r, generator_eta.
Qed.

Lemma appends_emitRaw text : appends (emitRaw text).
Proof. intros g. now exists [text]. Qed.

Lemma appends_emitLine ln : appends (emitLine ln).
Proof. intros g. eexists. reflexivity. Qed.

Lemma appends_seq (m k : Gen unit) :
  appends m -> appends k -> appends (gbind m (fun _ => k)).
Proof.
  intros Hm Hk g. unfold gbind.
  destruct (Hm g) as [p1 ->]. 
  destruct (Hk (mkCodeGenerator (output g ++ p1)%list (indentLevel g)))
    as [p2 ->].
  exists (p1 ++ p2)%list. simpl. now rewrite app_assoc.
Qed.

Lemma appends_bind_pure {A} (m : Gen A) (k : A -> Gen unit) :
  pure m -> (forall a, appends (k a)) -> appends (gbind m k).
Proof. intros Hm Hk g. rewrite gbind_pure by exact Hm. apply Hk. Qed.

Lemma appends_emitCaptured indent fn : appends (emitCaptured indent fn).
Proof.
  apply appends_bind_pure; [apply pure_capture|].
  intros text. apply appends_emitRaw.
Qed.

Lemma appends_forEach actions :
  Forall appends actions -> appends (forEach actions).
Proof.
  induction 1 as [|a rest Ha _ IH]; simpl; [apply appends_gret|].
  now apply appends_seq.
Qed.

Lemma pure_optional (extra : option Expression) :
  match
    match extra with
    | Some e => Some (fun g => generateExpression e 0 g)
    | None => None
    end
  with
  | Some m => pure m
  | None => True
  end.
Proof. destruct extra; [exact (generateExpression_pure e 0) | exact I]. Qed.

Lemma gbind_unit_run {B} (m : Gen unit) (k : Gen B) g g1 r :
  m g = (tt, g1) -> k g1 = r -> gbind m (fun _ => k) g = r.
Proof. intros Hm Hk. unfold gbind. now rewrite Hm. Qed.

(** One continuation clause pushes its text and nothing else. *)
Lemma generateThen_spec chainIndent isLast params body g :
  exists pieces,
    generateThen chainIndent isLast params (fun g => generateBlock body g) g
    = (tt, mkCodeGenerator (output g ++ pieces)%list (indentLevel g))
    /\ join "" pieces = thenText chainIndent (Then params body).
Proof.
  unfold generateThen.
  rewrite gbind_pure by apply pure_capture. rewrite capture_spec. simpl fst.
  unfold gbind, emitRaw, gret.
  destruct isLast; cbn [output indentLevel].
  - eexists [_; ""]. split.
    + now rewrite <- app_assoc.
    + simpl. now rewrite append_nil_r.
  - eexists [_]. split; reflexivity.
Qed.

Lemma generateChain_spec chainIndent :
  forall chain g,
  exists pieces,
    generateChain chainIndent
      (map (fun clause =>
              match clause with
              | Then params body => (params, fun g => generateBlock body g)
              end) chain) g
    = (tt, mkCodeGenerator (output g ++ pieces)%list (indentLevel g))
    /\ join "" pieces = join "" (map (thenText chainIndent) chain).
Proof.
  induction chain as [|[params body] rest IH]; intros g.
  - exists []. simpl. split; [|reflexivity].
    unfold gret. now rewrite app_nil_r, generator_eta.
  - destruct (generateThen_spec chainIndent
                match map (fun clause =>
                             match clause with
                             | Then params0 body0 =>
                                 (params0, fun g => generateBlock body0 g)
                             end) rest
                with [] => true | _ => false end params body g)
      as (p1 & E1 & Hp1).
    destruct (IH (mkCodeGenerator (output g ++ p1)%list (indentLevel g)))
      as (p2 & E2 & Hp2).
    exists (p1 ++ p2)%list. split.
    + cbn [map generateChain]. rewrite app_assoc.
      eapply gbind_unit_run; [exact E1 | exact E2].
    + cbn [map]. rewrite join_empty_app, join_empty_cons. congruence.
Qed.

Lemma generateSend_run url method payload chain g :
  let call := indentString (indentLevel g)
              ++ sendCallText g url method payload in
  exists pieces,
    generateStatement (SendStatement url method payload chain) g
    = (tt, mkCodeGenerator (output g ++ pieces)%list (indentLevel g))
    /\ join "" pieces
       = call ++ join "" (map (thenText (indentLevel g + 1)) chain)
         ++ ";" ++ LF
    /\ (chain = [] -> pieces = [call ++ ";" ++ LF]).
Proof.
  intros call. subst call.
  change (generateStatement (SendStatement url method payload chain) g)
    with (generateSend (fun g => generateExpression url 0 g) method
            (fun g => generateExpression payload 0 g)
            (map (fun clause =>
                    match clause with
                    | Then params body =>
                        (params, fun g => generateBlock body g)
                    end) chain) g).
  unfold generateSend, sendCallText.
  rewrite gbind_pure by exact (generateExpression_pure url 0).
  rewrite gbind_pure by exact (generateExpression_pure payload 0).
  destruct chain as [|clause rest].
  - eexists [_]. split; [reflexivity|].
    split; [|intros _]; cbn [map join]; now rewrite !append_assoc.
  - set (sent := indentString (indentLevel g) ++ "sprout.send("
                 ++ fst (generateExpression url 0 g) ++ ", "
                 ++ JSON_stringify (toUpperCase method) ++ ", "
                 ++ fst (generateExpression payload 0 g) ++ ")").
    destruct (generateChain_spec (indentLevel g + 1) (clause :: rest)
                (mkCodeGenerator (output g ++ [sent])%list (indentLevel g)))
      as (pieces & Hrun & Hjoin).
    cbn [output indentLevel] in Hrun.
    exists ([sent] ++ pieces ++ [(";" ++ LF)%string])%list.
    split; [|split; [|discriminate]].
    + destruct clause as [params body].
      cbn [map] in *.
      rewrite gbind_pure by apply pure_getIndentLevel.
      cbn [getIndentLevel fst].
      eapply gbind_unit_run; [reflexivity|].
      eapply gbind_unit_run; [exact Hrun|].
      unfold gbind, emitRaw, setIndentLevel. cbn [output indentLevel].
      now rewrite <- !app_assoc.
    + rewrite !join_empty_app, Hjoin. cbn [join].
      subst sent. now rewrite !append_assoc.
Qed.

(** C5. A [send] statement emits [sprout.send(url, METHOD, payload)]
    with the method in upper case and quoted by [JSON.stringify]; with
    no continuation clause this is one line that ends in a semicolon;
    with clauses, each one follows in order as [.then((params) => {]
    body [})], and the semicolon comes once, after the last clause. *)
Theorem send_lowering :
  forall url method payload chain g,
    let g' := snd (generateStatement
                     (SendStatement url method payload chain) g) in
    let call := indentString (indentLevel g)
                ++ sendCallText g url method payload in
    emitted g g'
      (call ++ join "" (map (thenText (indentLevel g + 1)) chain)
       ++ ";" ++ LF)
    /\ (chain = [] ->
        output g' = (output g ++ [(call ++ ";" ++ LF)%string])%list).
Proof.
  intros url method payload chain g g' call. subst g' call.
  destruct (generateSend_run url method payload chain g)
    as (pieces & E & Hjoin & Hnil).
  rewrite E. cbn [snd output indentLevel]. split.
  - exists pieces. auto.
  - intros Hchain. now rewrite (Hnil Hchain).
Qed.

Lemma generateIf_appends :
  forall node isElse, appends (generateIf node isElse).
Proof.
  fix IH 1. intros [test consequent alternate] isElse.
  change (generateIf (If test consequent alternate) isElse)
    with (gbind
            (generateIfHead (fun g => generateExpression test 0 g) isElse
               (fun g => generateBlock consequent g))
            (fun _ =>
               match alternate with
               | NoAlternate => gret tt
               | ElseIf node' => generateIf node' true
               | ElseBlock block =>
                   generateElse (fun g => generateBlock block g)
               end)).
  apply appends_seq.
  - unfold generateIfHead.
    apply appends_bind_pure; [exact (generateExpression_pure test 0)|].
    intros t. apply appends_seq; [apply appends_emitLine|].
    apply appends_bind_pure; [apply pure_getIndentLevel|]. intros level.
    apply appends_seq; [apply appends_emitCaptured | apply appends_emitLine].
  - destruct alternate as [|block|node'].
    + apply appends_gret.
    + unfold generateElse. apply appends_seq; [apply appends_emitLine|].
      apply appends_bind_pure; [apply pure_getIndentLevel|]. intros level.
      apply appends_seq; [apply appends_emitCaptured | apply appends_emitLine].
    + apply IH.
Qed.

Ltac appends_step :=
  first
    [ apply appends_emitLine
    | apply appends_emitRaw
    | apply appends_emitCaptured
    | apply appends_gret
    | apply appends_bind_pure;
      [ first [ exact (generateExpression_pure _ 0)
              | apply pure_getIndentLevel
              | apply pure_gret ]
      | intros ? ]
    | apply appends_seq ].

(** Every statement only pushes text on the buffer it is given, and
    leaves the indentation level as it was. *)
Lemma generateStatement_appends :
  forall statement, appends (generateStatement statement).
Proof.
  intros [name val | target val | selector event body
         | target property val extra | target property val
         | target mode argument | url method payload chain
         | name template | source selector property
         | functionName payload | node | variable iterable body
         | expression].
  - cbn [generateStatement]. repeat appends_step.
  - cbn [generateStatement]. repeat appends_step.
  - cbn [generateStatement]. unfold generateListen. repeat appends_step.
  - cbn [generateStatement]. unfold generateSet.
    do 2 appends_step.
    apply appends_bind_pure; [|intros; apply appends_emitLine].
    pose proof (pure_optional extra) as Hextra.
    destruct extra; [|apply pure_gret].
    apply pure_gbind; [exact Hextra | intros; apply pure_gret].
  - cbn [generateStatement]. unfold generateAdd. repeat appends_step.
  - cbn [generateStatement]. unfold generateToggle.
    appends_step.
    apply appends_bind_pure; [|intros; apply appends_emitLine].
    pose proof (pure_optional argument) as Harg.
    destruct argument; [|apply pure_gret].
    apply pure_gbind; [exact Harg | intros; apply pure_gret].
  - intros g.
    destruct (generateSend_run url method payload chain g)
      as (pieces & E & _).
    now exists pieces.
  - cbn [generateStatement]. repeat appends_step.
  - cbn [generateStatement]. unfold generateBind. repeat appends_step.
  - cbn [generateStatement]. unfold generateCallJs.
    appends_step.
    apply appends_bind_pure; [|intros; apply appends_emitLine].
    pose proof (pure_optional payload) as Hpayload.
    destruct payload; [|apply pure_gret].
    apply pure_gbind; [exact Hpayload | intros; apply pure_gret].
  - apply generateIf_appends.
  - cbn [generateStatement]. unfold generateFor. repeat appends_step.
  - cbn [generateStatement]. repeat appends_step.
Qed.

Lemma generateBlock_appends : forall block, appends (generateBlock block).
Proof.
  intros [body].
  change (generateBlock (Block body))
    with (forEach (map (fun statement g => generateStatement statement g)
                     body)).
  apply appends_forEach. apply Forall_map. apply Forall_forall.
  intros statement _. exact (generateStatement_appends statement).
Qed.

(** C10. [capture] returns the text that [fn] emits in a buffer of its
    own and gives the generator back with the output buffer and the
    indentation level it had; [emitCaptured] then pushes that text
    after what the buffer held; and a block, wherever it is rendered,
    only pushes text after what its buffer held. *)
Theorem capture_frame_preserving :
  forall indent fn g,
    capture indent fn g = (rendered indent fn, g)
    /\ output (snd (capture indent fn g)) = output g
    /\ indentLevel (snd (capture indent fn g)) = indentLevel g
    /\ emitCaptured indent fn g
       = (tt, mkCodeGenerator (output g ++ [rendered indent fn])%list
                (indentLevel g))
    /\ (forall block,
          exists pieces,
            generateBlock block g
            = (tt, mkCodeGenerator (output g ++ pieces)%list
                     (indentLevel g))).
Proof.
  intros indent fn g. rewrite capture_spec. repeat split.
  - unfold emitCaptured. rewrite gbind_pure by apply pure_capture.
    now rewrite capture_spec.
  - intros block. apply generateBlock_appends.
Qed.

(** *** The generated text is made of whole lines *)

Lemma appendsLine_emitLine ln : appendsLine (emitLine ln).
Proof.
  intros g. eexists [_]. split; [reflexivity|].
  exists (indentString (indentLevel g) ++ ln). cbn [join].
  now rewrite append_assoc.
Qed.

Lemma appendsLine_seq (m k : Gen unit) :
  appends m -> appendsLine k -> appendsLine (gbind m (fun _ => k)).
Proof.
  intros Hm Hk g.
  destruct (Hm g) as [p1 E1].
  destruct (Hk (mkCodeGenerator (output g ++ p1)%list (indentLevel g)))
    as (p2 & E2 & s2 & Hs2).
  exists (p1 ++ p2)%list. split.
  - rewrite app_assoc. eapply gbind_unit_run; [exact E1 | exact E2].
  - exists (join "" p1 ++ s2). rewrite join_empty_app, Hs2.
    now rewrite append_assoc.
Qed.

Lemma appendsLine_seq_gret (m : Gen unit) :
  appendsLine m -> appendsLine (gbind m (fun _ => gret tt)).
Proof.
  intros Hm g. destruct (Hm g) as (p & E & Hp).
  exists p. split; [|exact Hp].
  eapply gbind_unit_run; [exact E | reflexivity].
Qed.

Lemma appendsLine_bind_pure {A} (m : Gen A) (k : A -> Gen unit) :
  pure m -> (forall a, appendsLine (k a)) -> appendsLine (gbind m k).
Proof. intros Hm Hk g. rewrite gbind_pure by exact Hm. apply Hk. Qed.

Lemma pure_prefixed (extra : option Expression) :
  pure match
         match extra with
         | Some e => Some (fun g => generateExpression e 0 g)
         | None => None
         end
       with
       | Some m => gbind m (fun x => gret (", " ++ x))
       | None => gret ""
       end.
Proof.
  destruct extra as [e|]; [|apply pure_gret].
  apply pure_gbind; [exact (generateExpression_pure e 0)|].
  intros x. apply pure_gret.
Qed.

Ltac lines_step :=
  first
    [ apply appendsLine_emitLine
    | apply appendsLine_bind_pure;
      [ first [ exact (generateExpression_pure _ 0)
              | apply pure_getIndentLevel
              | apply pure_prefixed
              | apply pure_gret ]
      | intros ? ]
    | apply appendsLine_seq; [ solve [ repeat appends_step ] | ] ].

Lemma generateIf_lines :
  forall node isElse, appendsLine (generateIf node isElse).
Proof.
  fix IH 1. intros [test consequent alternate] isElse.
  change (generateIf (If test consequent alternate) isElse)
    with (gbind
            (generateIfHead (fun g => generateExpression test 0 g) isElse
               (fun g => generateBlock consequent g))
            (fun _ =>
               match alternate with
               | NoAlternate => gret tt
               | ElseIf node' => generateIf node' true
               | ElseBlock block =>
                   generateElse (fun g => generateBlock block g)
               end)).
  assert (Hhead : appendsLine
            (generateIfHead (fun g => generateExpression test 0 g) isElse
               (fun g => generateBlock consequent g))).
  { unfold generateIfHead. repeat lines_step. }
  destruct alternate as [|block|node'].
  - now apply appendsLine_seq_gret.
  - apply appendsLine_seq.
    + intros g. destruct (Hhead g) as (p & E & _). now exists p.
    + unfold generateElse. repeat lines_step.
  - apply appendsLine_seq; [|apply IH].
    intros g. destruct (Hhead g) as (p & E & _). now exists p.
Qed.

(** Every statement pushes whole lines. *)
Lemma generateStatement_lines :
  forall statement, appendsLine (generateStatement statement).
Proof.
  intros [name val | target val | selector event body
         | target property val extra | target property val
         | target mode argument | url method payload chain
         | name template | source selector property
         | functionName payload | node | variable iterable body
         | expression].
  - cbn [generateStatement]. repeat lines_step.
  - cbn [generateStatement]. repeat lines_step.
  - cbn [generateStatement]. unfold generateListen. repeat lines_step.
  - cbn [generateStatement]. unfold generateSet.
    do 2 lines_step.
    apply appendsLine_bind_pure; [|intros; apply appendsLine_emitLine].
    pose proof (pure_optional extra) as Hextra.
    destruct extra; [|apply pure_gret].
    apply pure_gbind; [exact Hextra | intros; apply pure_gret].
  - cbn [generateStatement]. unfold generateAdd. repeat lines_step.
  - cbn [generateStatement]. unfold generateToggle. repeat lines_step.
  - intros g.
    destruct (generateSend_run url method payload chain g)
      as (pieces & E & Hjoin & _).
    exists pieces. split; [exact E|].
    eexists. rewrite Hjoin. rewrite <- !append_assoc. reflexivity.
  - cbn [generateStatement]. repeat lines_step.
  - cbn [generateStatement]. unfold generateBind. repeat lines_step.
  - cbn [generateStatement]. unfold generateCallJs. repeat lines_step.
  - apply generateIf_lines.
  - cbn [generateStatement]. unfold generateFor. repeat lines_step.
  - cbn [generateStatement]. repeat lines_step.
Qed.

Lemma forEach_lines actions :
  Forall appendsLine actions ->
  forall g, exists pieces,
    forEach actions g
    = (tt, mkCodeGenerator (output g ++ pieces)%list (indentLevel g))
    /\ (join "" pieces = "" \/ endsWithLF (join "" pieces)).
Proof.
  induction 1 as [|a rest Ha _ IH]; intros g.
  - exists []. split; [|now left].
    cbn [forEach]. unfold gret. now rewrite app_nil_r, generator_eta.
  - destruct (Ha g) as (p1 & E1 & s1 & Hs1).
    destruct (IH (mkCodeGenerator (output g ++ p1)%list (indentLevel g)))
      as (p2 & E2 & Hp2).
    exists (p1 ++ p2)%list. split.
    + cbn [forEach]. rewrite app_assoc.
      eapply gbind_unit_run; [exact E1 | exact E2].
    + right. rewrite join_empty_app.
      destruct Hp2 as [-> | (s2 & ->)].
      * exists s1. now rewrite append_nil_r.
      * exists (join "" p1 ++ s2). now rewrite append_assoc.
Qed.

Lemma unlines_app (a b : list string) :
  unlines (a ++ b) = unlines a ++ unlines b.
Proof.
  induction a as [|ln a IH]; [reflexivity|].
  cbn [app unlines]. now rewrite IH, !append_assoc.
Qed.

(** A text that ends a line is a sequence of lines. *)
Lemma lines_of_text (text : string) :
  exists lines, Forall noNewline lines /\ text ++ LF = unlines lines.
Proof.
  induction text as [|c text (lines & Hlines & E)].
  - exists [""]. split; [|reflexivity].
    constructor; [|constructor]. intros [].
  - destruct (Ascii.eqb c "010") eqn:Ec.
    + apply Ascii.eqb_eq in Ec. subst c.
      exists ("" :: lines). split.
      * constructor; [intros [] | exact Hlines].
      * cbn [unlines append]. now rewrite <- E.
    + apply Ascii.eqb_neq in Ec.
      destruct lines as [|ln rest].
      * destruct text; discriminate E.
      * exists (String c ln :: rest). split.
        -- inversion Hlines; subst. constructor; [|assumption].
           unfold noNewline in *. simpl. intros [Hc | Hin]; auto.
        -- cbn [unlines append] in *. now rewrite E.
Qed.

Lemma generate_lines program :
  exists lines, Forall noNewline lines /\ generate program = unlines lines.
Proof.
  unfold generate.
  destruct (forEach_lines
              (actions := map (fun statement g =>
                                 generateStatement statement g)
                            (programBody program)))
    with (g := mkCodeGenerator [] 0) as (pieces & E & Hp).
  { apply Forall_map, Forall_forall. intros statement _.
    exact (generateStatement_lines statement). }
  rewrite E. cbn [output app].
  destruct Hp as [-> | (s' & ->)].
  - now exists [].
  - apply lines_of_text.
Qed.

(** *** The generated text depends on the indentation level only *)

Lemma stateless_pure {A} (m : Gen A) : stateless m -> pure m.
Proof. intros H g. now rewrite H. Qed.

Lemma stateless_fst {A} (m : Gen A) g :
  stateless m -> fst (m g) = fst (m (mkCodeGenerator [] (indentLevel g))).
Proof. intros H. now rewrite H. Qed.

Lemma stateless_gret {A} (a : A) : stateless (gret a).
Proof. intros g. reflexivity. Qed.

Lemma stateless_gbind {A B} (m : Gen A) (k : A -> Gen B) :
  stateless m -> (forall a, stateless (k a)) -> stateless (gbind m k).
Proof.
  intros Hm Hk g. unfold gbind.
  rewrite (Hm g), (Hm (mkCodeGenerator [] (indentLevel g))).
  cbn [indentLevel]. now rewrite Hk.
Qed.

Lemma stateless_getIndentLevel : stateless getIndentLevel.
Proof. intros g. reflexivity. Qed.

Lemma stateless_capture indent fn : stateless (capture indent fn).
Proof. intros g. now rewrite !capture_spec. Qed.

Lemma stateless_mapGen {A} (actions : list (Gen A)) :
  Forall stateless actions -> stateless (mapGen actions).
Proof.
  induction 1 as [|a rest Ha _ IH]; simpl; [apply stateless_gret|].
  apply stateless_gbind; [exact Ha|]. intros x.
  apply stateless_gbind; [exact IH|]. intros xs. apply stateless_gret.
Qed.

Ltac stateless_step :=
  first
    [ apply stateless_gret
    | apply stateless_getIndentLevel
    | apply stateless_capture
    | apply stateless_gbind; [| intros ? ]
    | assumption ].

Lemma generateExpression_stateless :
  forall expression parentPrecedence,
    stateless (generateExpression expression parentPrecedence).
Proof.
  induction expression using Expression_nested_ind; intros pp; simpl.
  - apply stateless_gret.
  - apply stateless_gret.
  - unfold generateBinary, runtimeCall.
    repeat match goal with
           | |- context [if ?b then _ else _] => destruct b
           end; repeat stateless_step; auto.
  - unfold generateLogical. repeat stateless_step; auto.
  - unfold generateUnary.
    repeat match goal with
           | |- context [if ?b then _ else _] => destruct b
           end; repeat stateless_step; auto.
  - apply stateless_gbind; [auto|]. intros c.
    apply stateless_gbind; [|intros; apply stateless_gret].
    apply stateless_mapGen. apply Forall_map.
    eapply Forall_impl; [|eassumption]. auto.
  - repeat stateless_step; auto.
  - apply stateless_gbind; [|intros; apply stateless_gret].
    apply stateless_mapGen. apply Forall_map.
    eapply Forall_impl; [|eassumption]. auto.
  - apply stateless_gbind; [|intros; apply stateless_gret].
    apply stateless_mapGen. apply Forall_map.
    eapply Forall_impl; [|eassumption].
    intros [key val] Hval. simpl in Hval. repeat stateless_step; auto.
  - unfold generateLambda. repeat stateless_step.
  - unfold generateLambda. repeat stateless_step.
    exact (IHexpression 0).
  - repeat stateless_step; auto.
  - unfold generateGet. repeat stateless_step; auto.
  - unfold generateGet. repeat stateless_step; auto.
  - repeat stateless_step; auto.
Qed.

Lemma rendered_seq level (m k : Gen unit) :
  textOnly m -> textOnly k ->
  rendered level (gbind m (fun _ => k)) = rendered level m ++ rendered level k.
Proof.
  intros Hm Hk. unfold rendered at 1. unfold gbind.
  destruct (Hm (mkCodeGenerator [] level)) as (p1 & E1 & H1). rewrite E1.
  destruct (Hk (mkCodeGenerator ([] ++ p1)%list level)) as (p2 & E2 & H2).
  cbn [output indentLevel] in *. rewrite E2. cbn [snd output app].
  now rewrite join_empty_app, H1, H2.
Qed.

Lemma textOnly_gret : textOnly (gret tt).
Proof.
  intros g. exists []. split; [|reflexivity].
  unfold gret. now rewrite app_nil_r, generator_eta.
Qed.

Lemma textOnly_emitRaw text : textOnly (emitRaw text).
Proof. intros g. now exists [text]. Qed.

Lemma textOnly_emitLine ln : textOnly (emitLine ln).
Proof. intros g. eexists [_]. split; reflexivity. Qed.

Lemma textOnly_seq (m k : Gen unit) :
  textOnly m -> textOnly k -> textOnly (gbind m (fun _ => k)).
Proof.
  intros Hm Hk g.
  destruct (Hm g) as (p1 & E1 & H1).
  destruct (Hk (mkCodeGenerator (output g ++ p1)%list (indentLevel g)))
    as (p2 & E2 & H2).
  cbn [output indentLevel] in *.
  exists (p1 ++ p2)%list. split.
  - rewrite app_assoc. eapply gbind_unit_run; [exact E1 | exact E2].
  - now rewrite join_empty_app, H1, H2, rendered_seq.
Qed.

Lemma textOnly_bind_stateless {A} (m : Gen A) (k : A -> Gen unit) :
  stateless m -> (forall a, textOnly (k a)) -> textOnly (gbind m k).
Proof.
  intros Hm Hk g.
  destruct (Hk (fst (m (mkCodeGenerator [] (indentLevel g)))) g)
    as (pieces & E & H).
  exists pieces. split.
  - unfold gbind. now rewrite (Hm g).
  - rewrite H. unfold rendered, gbind.
    rewrite (Hm (mkCodeGenerator [] (indentLevel g))). reflexivity.
Qed.

Lemma textOnly_emitCaptured indent fn : textOnly (emitCaptured indent fn).
Proof.
  apply textOnly_bind_stateless; [apply stateless_capture|].
  intros text. apply textOnly_emitRaw.
Qed.

Lemma textOnly_forEach actions :
  Forall textOnly actions -> textOnly (forEach actions).
Proof.
  induction 1 as [|a rest Ha _ IH]; simpl; [apply textOnly_gret|].
  now apply textOnly_seq.
Qed.

Lemma rendered_forEach_app level (a b : list (Gen unit)) :
  Forall textOnly a -> Forall textOnly b ->
  rendered level (forEach (a ++ b))
  = rendered level (forEach a) ++ rendered level (forEach b).
Proof.
  intros Ha Hb. induction Ha as [|x a Hx Ha IH]; [reflexivity|].
  cbn [app forEach].
  rewrite !rendered_seq, IH; auto using textOnly_forEach.
  - now rewrite append_assoc.
  - apply textOnly_forEach. apply Forall_app. now split.
Qed.

Lemma stateless_optional (extra : option Expression) :
  match
    match extra with
    | Some e => Some (fun g => generateExpression e 0 g)
    | None => None
    end
  with
  | Some m => stateless m
  | None => True
  end.
Proof.
  destruct extra; [exact (generateExpression_stateless e 0) | exact I].
Qed.

Lemma stateless_prefixed (extra : option Expression) :
  stateless match
              match extra with
              | Some e => Some (fun g => generateExpression e 0 g)
              | None => None
              end
            with
            | Some m => gbind m (fun x => gret (", " ++ x))
            | None => gret ""
            end.
Proof.
  destruct extra as [e|]; [|apply stateless_gret].
  apply stateless_gbind; [exact (generateExpression_stateless e 0)|].
  intros x. apply stateless_gret.
Qed.

Ltac text_step :=
  first
    [ apply textOnly_emitLine
    | apply textOnly_emitRaw
    | apply textOnly_emitCaptured
    | apply textOnly_gret
    | apply textOnly_bind_stateless;
      [ first [ exact (generateExpression_stateless _ 0)
              | apply stateless_getIndentLevel
              | apply stateless_prefixed
              | apply stateless_gret ]
      | intros ? ]
    | apply textOnly_seq ].

Lemma generateIf_textOnly :
  forall node isElse, textOnly (generateIf node isElse).
Proof.
  fix IH 1. intros [test consequent alternate] isElse.
  change (generateIf (If test consequent alternate) isElse)
    with (gbind
            (generateIfHead (fun g => generateExpression test 0 g) isElse
               (fun g => generateBlock consequent g))
            (fun _ =>
               match alternate with
               | NoAlternate => gret tt
               | ElseIf node' => generateIf node' true
               | ElseBlock block =>
                   generateElse (fun g => generateBlock block g)
               end)).
  apply textOnly_seq.
  - unfold generateIfHead. repeat text_step.
  - destruct alternate as [|block|node'].
    + apply textOnly_gret.
    + unfold generateElse. repeat text_step.
    + apply IH.
Qed.

Lemma generateStatement_textOnly :
  forall statement, textOnly (generateStatement statement).
Proof.
  intros [name val | target val | selector event body
         | target property val extra | target property val
         | target mode argument | url method payload chain
         | name template | source selector property
         | functionName payload | node | variable iterable body
         | expression].
  - cbn [generateStatement]. repeat text_step.
  - cbn [generateStatement]. repeat text_step.
  - cbn [generateStatement]. unfold generateListen. repeat text_step.
  - cbn [generateStatement]. unfold generateSet.
    do 2 text_step.
    apply textOnly_bind_stateless; [|intros; apply textOnly_emitLine].
    pose proof (stateless_optional extra) as Hextra.
    destruct extra; [|apply stateless_gret].
    apply stateless_gbind; [exact Hextra | intros; apply stateless_gret].
  - cbn [generateStatement]. unfold generateAdd. repeat text_step.
  - cbn [generateStatement]. unfold generateToggle. repeat text_step.
  - intros g.
    destruct (generateSend_run url method payload chain g)
      as (pieces & E & Hjoin & _).
    exists pieces. split; [exact E|]. rewrite Hjoin.
    destruct (generateSend_run url method payload chain
                (mkCodeGenerator [] (indentLevel g)))
      as (pieces0 & E0 & Hjoin0 & _).
    unfold rendered. rewrite E0. cbn [snd output indentLevel app] in *.
    rewrite Hjoin0. unfold sendCallText.
    now rewrite (stateless_fst g (generateExpression_stateless url 0)),
      (stateless_fst g (generateExpression_stateless payload 0)).
  - cbn [generateStatement]. repeat text_step.
  - cbn [generateStatement]. unfold generateBind. repeat text_step.
  - cbn [generateStatement]. unfold generateCallJs. repeat text_step.
  - apply generateIf_textOnly.
  - cbn [generateStatement]. unfold generateFor. repeat text_step.
  - cbn [generateStatement]. repeat text_step.
Qed.

Lemma generateStatements_textOnly (body : list Statement) :
  Forall textOnly (map (fun statement g => generateStatement statement g) body).
Proof.
  apply Forall_map, Forall_forall. intros statement _.
  exact (generateStatement_textOnly statement).
Qed.

(** X10. What an expression returns and what a statement emits depend
    on the indentation level only, not on what the output buffer
    holds: an expression returns what it returns on an empty buffer and
    leaves the generator as it was, and a statement pushes the text
    that it renders in an empty buffer at the same level. *)
Theorem generated_text_by_level :
  forall expression parentPrecedence statement g,
    generateExpression expression parentPrecedence g
    = (fst (generateExpression expression parentPrecedence
              (mkCodeGenerator [] (indentLevel g))), g)
    /\ emitted g (snd (generateStatement statement g))
         (rendered (indentLevel g) (generateStatement statement)).
Proof.
  intros expression parentPrecedence statement g. split.
  - apply generateExpression_stateless.
  - destruct (generateStatement_textOnly statement g) as (pieces & E & H).
    rewrite E. exists pieces. now repeat split.
Qed.

(** X11. The text of a program is the texts of its statements one after
    the other: generating two lists of statements in a row gives the
    text of the first followed by the text of the second, for a program
    and for a block at every indentation level. *)
Theorem generate_concatenates :
  forall first second,
    generate (mkProgram (first ++ second))
    = generate (mkProgram first) ++ generate (mkProgram second)
    /\ forall level,
         rendered level (generateBlock (Block (first ++ second)))
         = rendered level (generateBlock (Block first))
           ++ rendered level (generateBlock (Block second)).
Proof.
  intros first second.
  assert (Hlevel : forall level,
            rendered level
              (forEach (map (fun statement g => generateStatement statement g)
                          (first ++ second)))
            = rendered level
                (forEach (map (fun statement g =>
                                 generateStatement statement g) first))
              ++ rendered level
                   (forEach (map (fun statement g =>
                                    generateStatement statement g) second))).
  { intros level. rewrite map_app.
    apply rendered_forEach_app; apply generateStatements_textOnly. }
  split; [|exact Hlevel].
  specialize (Hlevel 0). unfold rendered in Hlevel. unfold generate.
  cbn [programBody].
  repeat match goal with
         | |- context [let (_, g) := ?x in _] => destruct x
         end.
  exact Hlevel.
Qed.

(** *** Escaped text *)

Lemma escapeUnsafeChar_safe c :
  allChars (fun d => negb (unsafeChar d)) (escapeUnsafeChar c) = true.
Proof.
  unfold escapeUnsafeChar.
  repeat match goal with
         | |- context [if Ascii.eqb c ?x then _ else _] =>
             destruct (Ascii.eqb_spec c x); [reflexivity|]
         end.
  cbn. rewrite andb_true_r. unfold unsafeChar, hasChar. cbn [existsb].
  repeat match goal with
         | H : c <> ?x |- _ =>
             apply Ascii.eqb_neq in H; try rewrite H; clear H
         end.
  reflexivity.
Qed.

(** X12. The text that [escapeUnsafeChars] returns holds none of the
    characters [<], [>] and [/], and no backspace, form feed, newline,
    carriage return, tab or null character, whatever text it is given;
    in particular it holds no closing script tag. *)
Theorem escapeUnsafeChars_output_safe :
  forall s, allChars (fun c => negb (unsafeChar c)) (escapeUnsafeChars s) = true.
Proof.
  induction s as [|c s IH]; [reflexivity|].
  cbn [escapeUnsafeChars]. now rewrite allChars_app, escapeUnsafeChar_safe.
Qed.

Lemma quoteJSONChar_identifier c :
  isIdentifierPart c = true -> quoteJSONChar c = char c.
Proof.
  intros H. destruct c as [[] [] [] [] [] [] [] []]; try reflexivity;
    discriminate H.
Qed.

Lemma escapeUnsafeChar_identifier c :
  isIdentifierPart c = true -> escapeUnsafeChar c = char c.
Proof.
  intros H. destruct c as [[] [] [] [] [] [] [] []]; try reflexivity;
    discriminate H.
Qed.

Lemma identifier_text_unchanged (s : string) :
  allChars isIdentifierPart s = true ->
  quoteJSONChars s = s /\ escapeUnsafeChars s = s.
Proof.
  induction s as [|c s IH]; [now split|].
  cbn [allChars]. intros H. apply andb_true_iff in H as [Hc Hs].
  destruct (IH Hs) as [IHq IHe].
  cbn [quoteJSONChars escapeUnsafeChars].
  now rewrite quoteJSONChar_identifier, escapeUnsafeChar_identifier, IHq, IHe.
Qed.

Lemma escapeUnsafeChars_app (a b : string) :
  escapeUnsafeChars (a ++ b) = escapeUnsafeChars a ++ escapeUnsafeChars b.
Proof.
  induction a as [|c a IH]; [reflexivity|].
  cbn [append escapeUnsafeChars]. now rewrite IH, append_assoc.
Qed.

(** X13. A [bind] statement whose property is made of identifier
    characters, as every property that the parser reads is, emits the
    one line [sprout.bind(() => source, selector, property);] with the
    property between double quotes as it is: quoting and then escaping
    change nothing in it. *)
Theorem bind_property_unchanged :
  forall source selector property g,
    allChars isIdentifierPart property = true ->
    generateStatement (BindStatement source selector property) g
    = (tt,
       mkCodeGenerator
         (output g
          ++ [(indentString (indentLevel g) ++ "sprout.bind(() => "
               ++ fst (generateExpression source 0 g) ++ ", "
               ++ fst (generateExpression selector 0 g) ++ ", "
               ++ DQ ++ property ++ DQ ++ ");" ++ LF)%string])%list
         (indentLevel g)).
Proof.
  intros source selector property g Hproperty.
  destruct (identifier_text_unchanged _ Hproperty) as [Hq He].
  cbn [generateStatement]. unfold generateBind.
  rewrite gbind_pure by exact (generateExpression_pure source 0).
  rewrite gbind_pure by exact (generateExpression_pure selector 0).
  unfold JSON_stringify. rewrite !escapeUnsafeChars_app, Hq, He.
  unfold emitLine, gbind, getIndentLevel, emitRaw.
  cbn [output indentLevel]. do 3 f_equal.
  now rewrite !append_assoc.
Qed.
(** ** Parser *)

Lemma errorHere_throws {A} tokens msg pos :
  exists e, @errorHere tokens A msg pos = Some (Throw e).
Proof.
  unfold errorHere, bind, peek, errorAt.
  destruct (nth_error tokens pos); eexists; reflexivity.
Qed.

Lemma bind_ok {A B} (m : Parser A) (k : A -> Parser B) pos a pos' :
  m pos = Some (Ok (a, pos')) -> bind m k pos = k a pos'.
Proof. intros H. unfold bind. now rewrite H. Qed.

Lemma bind_throw {A B} (m : Parser A) (k : A -> Parser B) pos e :
  m pos = Some (Throw e) -> bind m k pos = Some (Throw e).
Proof. intros H. unfold bind. now rewrite H. Qed.

Lemma extractParams_elements tokens (elements : list Expression) pos :
  let parameter el :=
    match el with
    | Identifier name => ret name
    | _ => errorHere tokens "Lambda parameters must be identifiers"
    end in
  match identifierNames elements with
  | Some names => mapM parameter elements pos = Some (Ok (names, pos))
  | None => exists e, mapM parameter elements pos = Some (Throw e)
  end.
Proof.
  intros parameter. induction elements as [|el rest IH]; [reflexivity|].
  assert (Hthrow :
            (exists e, parameter el pos = Some (Throw e)) ->
            exists e, mapM parameter (el :: rest) pos = Some (Throw e)).
  { intros [e He]. exists e. cbn [mapM]. now apply bind_throw. }
  destruct el; cbn [identifierNames];
    try (apply Hthrow; apply errorHere_throws).
  cbn [mapM].
  erewrite bind_ok by reflexivity.
  destruct (identifierNames rest) as [names|].
  - erewrite bind_ok by exact IH. reflexivity.
  - destruct IH as [e He]. exists e. now apply bind_throw.
Qed.

(** [extractParams] returns the parameter list that the inner
    expression reduces to, and throws when it reduces to none. *)
Lemma extractParams_spec tokens :
  forall inner pos,
    match lambdaParams inner with
    | Some params => extractParams tokens inner pos = Some (Ok (params, pos))
    | None => exists e, extractParams tokens inner pos = Some (Throw e)
    end.
Proof.
  induction inner using Expression_nested_ind; intros pos;
    cbn [lambdaParams extractParams];
    try apply errorHere_throws; try reflexivity.
  - destruct (String.eqb operator ","); apply errorHere_throws.
  - apply extractParams_elements.
  - apply IHinner.
Qed.

(** C1, as the code has it.  [x -> x + 1] is a lambda with the one
    parameter [x]; a parenthesized group holds one expression, so
    [(x, y) -> x + y] fails at the comma, and the two parameters are
    written as a list in the group, [([x, y]) -> x + y]; [(x + y) -> x]
    fails because the group is not a parameter list.  In general the
    inner expression of the group gives the parameters when it is an
    identifier, a list of identifiers or a group that does, and any
    other shape throws. *)
Theorem lambda_disambiguation :
  parseExpressionOf "x -> x + 1"
  = Some (Ok (LambdaExpression ["x"]
                (ExpressionBody
                   (BinaryExpression "+" (Identifier "x")
                      (Literal (LNumber (Number "1")))))))
  /\ parseExpressionOf "(x, y) -> x + y"
     = Some (Throw (mkError "Expected ')'" 1 3))
  /\ parseExpressionOf "([x, y]) -> x + y"
     = Some (Ok (LambdaExpression ["x"; "y"]
                   (ExpressionBody
                      (BinaryExpression "+" (Identifier "x")
                         (Identifier "y")))))
  /\ parseExpressionOf "(x + y) -> x"
     = Some (Throw (mkError "Unsupported lambda parameters" 1 6))
  /\ (forall tokens inner pos,
        match lambdaParams inner with
        | Some params =>
            extractParams tokens inner pos = Some (Ok (params, pos))
        | None => exists e, extractParams tokens inner pos = Some (Throw e)
        end).
Proof.
  repeat split; try (vm_compute; reflexivity).
  intros tokens. apply extractParams_spec.
Qed.

(** C2, as the code has it.  After [toggle] and the target, the mode
    [class] is followed by one argument expression, which the statement
    carries; the modes [show] and [hide] end the statement, which
    carries no argument; any other mode identifier throws at the line
    and column of the mode token.  The three inputs are the scenarios
    of the specification, with the target in double quotes. *)
Theorem toggle_grammar :
  forall tokens (parseExpression : Parser Expression) pos toggleToken
         target pos1 modeToken,
    nth_error tokens pos = Some toggleToken ->
    tokenIs T_identifier "toggle" toggleToken = true ->
    parseExpression (S pos) = Some (Ok (target, pos1)) ->
    nth_error tokens pos1 = Some modeToken ->
    type modeToken = T_identifier ->
    parseToggle tokens parseExpression pos
    = (if String.eqb (value modeToken) "class" then
         match parseExpression (S pos1) with
         | Some (Ok (argument, pos2)) =>
             Some (Ok (ToggleStatement target ModeClass (Some argument), pos2))
         | Some (Throw e) => Some (Throw e)
         | None => None
         end
       else if String.eqb (value modeToken) "show" then
         Some (Ok (ToggleStatement target ModeShow None, S pos1))
       else if String.eqb (value modeToken) "hide" then
         Some (Ok (ToggleStatement target ModeHide None, S pos1))
       else
         Some (Throw (mkError
                        ("Unknown toggle mode '" ++ value modeToken ++ "'")
                        (line modeToken) (column modeToken))))
    /\ parse ("toggle " ++ DQ ++ "#panel" ++ DQ ++ " show")
       = Some (Ok (mkProgram
                     [ToggleStatement (Literal (LText "#panel")) ModeShow
                        None]))
    /\ parse ("toggle " ++ DQ ++ "#panel" ++ DQ ++ " class "
              ++ DQ ++ "active" ++ DQ)
       = Some (Ok (mkProgram
                     [ToggleStatement (Literal (LText "#panel")) ModeClass
                        (Some (Literal (LText "active")))]))
    /\ parse ("toggle " ++ DQ ++ "#panel" ++ DQ ++ " fade")
       = Some (Throw (mkError "Unknown toggle mode 'fade'" 1 14)).
Proof.
  intros tokens parseExpression pos toggleToken target pos1 modeToken
    Htoggle Hkw Htarget Hmode Hident.
  split; [|repeat split; vm_compute; reflexivity].
  unfold tokenIs in Hkw. apply andb_true_iff in Hkw as [Hty Hval].
  unfold parseToggle, consumeIdentifier, consumeIdentifierToken, bind, peek,
    next, ret.
  rewrite Htoggle, Hty, Hval, Htarget, Hmode, Hident. simpl.
  destruct (String.eqb (value modeToken) "class").
  - destruct (parseExpression (S pos1)) as [[[argument pos2]|e]|]; reflexivity.
  - destruct (String.eqb (value modeToken) "show"); [reflexivity|].
    destruct (String.eqb (value modeToken) "hide"); reflexivity.
Qed.

(** *** Every parsing method returns or throws *)

Section ParserTermination.

Variable tokens : list Token.

Lemma returns_ret {A} (a : A) pos (Q : A -> nat -> Prop) :
  Q a pos -> returns (ret a) pos Q.
Proof. intros H. eexists. split; [reflexivity | exact H]. Qed.

Lemma returns_throw {A} msg token pos (Q : A -> nat -> Prop) :
  returns (errorAt msg token) pos Q.
Proof. eexists. split; [reflexivity | exact I]. Qed.

Lemma returns_bind {A B} (m : Parser A) (k : A -> Parser B) pos
    (Q1 : A -> nat -> Prop) (Q : B -> nat -> Prop) :
  returns m pos Q1 ->
  (forall a pos', Q1 a pos' -> returns (k a) pos' Q) ->
  returns (bind m k) pos Q.
Proof.
  intros (r & Er & Hr) Hk.
  destruct r as [[a pos']|e].
  - destruct (Hk a pos' Hr) as (r' & Er' & Hr').
    exists r'. split; [|exact Hr']. erewrite bind_ok by exact Er. exact Er'.
  - exists (Throw e). split; [|exact I]. now apply bind_throw.
Qed.

Lemma returns_weaken {A} (p : Parser A) pos (Q Q' : A -> nat -> Prop) :
  returns p pos Q -> (forall a pos', Q a pos' -> Q' a pos') ->
  returns p pos Q'.
Proof.
  intros (r & Er & Hr) H. exists r. split; [exact Er|].
  destruct r as [[a pos']|e]; auto.
Qed.

Lemma returns_peek pos :
  returns (peek tokens) pos
    (fun _ pos' => pos' = pos /\ pos < List.length tokens).
Proof.
  unfold returns, peek. destruct (nth_error tokens pos) eqn:E.
  - eexists. split; [reflexivity|]. split; [reflexivity|].
    apply nth_error_Some. congruence.
  - eexists. split; [reflexivity | exact I].
Qed.

Lemma returns_next pos :
  returns next pos (fun _ pos' => pos' = S pos).
Proof. eexists. split; reflexivity. Qed.

Lemma returns_errorHere {A} msg pos (Q : A -> nat -> Prop) :
  returns (errorHere tokens msg) pos Q.
Proof.
  unfold errorHere. eapply returns_bind; [apply returns_peek|].
  intros. apply returns_throw.
Qed.

Ltac facts :=
  repeat match goal with
         | H : _ /\ _ |- _ => destruct H
         end;
  subst.

(** A recursive call of the parser, at a position where the call is
    known to return. *)
Ltac callback :=
  match goal with
  | H : forall pos, _ <= pos -> returns ?p pos _ |- returns ?p _ _ =>
      apply H; lia
  | H : _ -> forall pos, _ <= pos -> returns ?p pos _ |- returns ?p _ _ =>
      apply H; lia
  end.

Ltac side :=
  first [ lia
        | solve [ unfold loopFuel; lia ]
        | solve [ unfold advancesFrom, advances; intros ? ?; callback ]
        | solve [ unfold advancesFrom, advances; intros ? ?;
                  eauto with returns ] ].

Create HintDb returns.

(** A step through a parsing method whose first call is in the hint
    database; or, for a method that is a choice of calls, through its
    first call as a whole, which returns at its position or after. *)
Ltac returns_step :=
  lazymatch goal with
  | |- returns (bind (if _ then _ else _) _) ?p _ =>
      eapply returns_bind
        with (Q1 := fun _ pos' => p <= pos' /\ pos' <= List.length tokens);
      [ | cbv beta; intros ? ? ?; facts ]
  | |- returns (bind _ _) _ _ =>
      eapply returns_bind;
      [ solve [ eauto with returns ] | cbv beta; intros ? ? ?; facts ]
  | |- returns (ret _) _ _ => apply returns_ret; cbv beta; try lia
  | |- returns (errorAt _ _) _ _ => apply returns_throw
  | |- returns (errorHere _ _) _ _ => apply returns_errorHere
  | |- returns (if ?b then _ else _) _ _ => destruct b eqn:?
  | |- returns _ _ _ =>
      eapply returns_weaken;
      [ solve [ eauto with returns ] | cbv beta; intros; facts; lia ]
  end.

Ltac returns_auto := repeat returns_step.

#[local] Hint Resolve returns_peek returns_next : returns.
#[local] Hint Extern 2 (returns _ _ _) => callback : returns.

Lemma returns_isType ty pos :
  returns (isType tokens ty) pos
    (fun _ pos' => pos' = pos /\ pos < List.length tokens).
Proof. unfold isType. returns_auto. Qed.

Lemma returns_peekIdentifier v pos :
  returns (peekIdentifier tokens v) pos
    (fun _ pos' => pos' = pos /\ pos < List.length tokens).
Proof. unfold peekIdentifier. returns_auto. Qed.

Lemma returns_peekOperator v pos :
  returns (peekOperator tokens v) pos
    (fun _ pos' => pos' = pos /\ pos < List.length tokens).
Proof. unfold peekOperator. returns_auto. Qed.

Lemma returns_peekPunctuation v pos :
  returns (peekPunctuation tokens v) pos
    (fun _ pos' => pos' = pos /\ pos < List.length tokens).
Proof. unfold peekPunctuation. returns_auto. Qed.

Lemma returns_consumeIdentifierToken pos :
  returns (consumeIdentifierToken tokens) pos
    (fun _ pos' => pos' = S pos /\ pos < List.length tokens).
Proof. unfold consumeIdentifierToken. returns_auto. Qed.

#[local] Hint Resolve returns_isType returns_peekIdentifier
  returns_peekOperator returns_peekPunctuation
  returns_consumeIdentifierToken : returns.

Lemma returns_consumeIdentifier v pos :
  returns (consumeIdentifier tokens v) pos
    (fun _ pos' => pos' = S pos /\ pos < List.length tokens).
Proof. unfold consumeIdentifier. returns_auto. Qed.

Lemma returns_consumeIdentifierValue pos :
  returns (consumeIdentifierValue tokens) pos
    (fun _ pos' => pos' = S pos /\ pos < List.length tokens).
Proof. unfold consumeIdentifierValue. returns_auto. Qed.

Lemma returns_consumeOperator v pos :
  returns (consumeOperator tokens v) pos
    (fun _ pos' => pos' = S pos /\ pos < List.length tokens).
Proof.
  unfold consumeOperator. returns_auto.
Qed.

Lemma returns_consumeType ty pos :
  returns (consumeType tokens ty) pos
    (fun _ pos' => pos' = S pos /\ pos < List.length tokens).
Proof. unfold consumeType. returns_auto. Qed.

Lemma returns_consumePunctuation v pos :
  returns (consumePunctuation tokens v) pos
    (fun _ pos' => pos' = S pos /\ pos < List.length tokens).
Proof.
  unfold consumePunctuation. returns_auto.
Qed.

Lemma returns_consumeIfPunctuation v pos :
  returns (consumeIfPunctuation tokens v) pos
    (fun more pos' =>
       pos < List.length tokens
       /\ pos' = if more then S pos else pos).
Proof. unfold consumeIfPunctuation. returns_auto. Qed.

#[local] Hint Resolve returns_consumeIdentifier returns_consumeIdentifierValue
  returns_consumeOperator returns_consumeType returns_consumePunctuation
  returns_consumeIfPunctuation : returns.

Lemma returns_skipNewlinesFrom rest :
  forall pos,
    rest = skipn pos tokens ->
    returns (skipNewlinesFrom tokens rest) pos
      (fun _ pos' => pos <= pos' /\ pos' < List.length tokens).
Proof.
  induction rest as [|token rest IH]; intros pos Hrest;
    cbn [skipNewlinesFrom].
  - returns_auto.
  - assert (Hlt : pos < List.length tokens).
    { destruct (Nat.lt_ge_cases pos (List.length tokens)) as [H | H];
        [exact H|].
      rewrite (skipn_all2 tokens H) in Hrest. discriminate. }
    destruct (TokenType_eqb (type token) T_newline); [|returns_auto].
    eapply returns_bind; [apply returns_next|].
    cbv beta. intros _ pos' ->.
    eapply returns_weaken.
    + apply IH.
      replace (S pos) with (1 + pos) by reflexivity.
      rewrite <- skipn_skipn, <- Hrest. reflexivity.
    + cbv beta. intros. lia.
Qed.

Lemma returns_skipNewlines pos :
  returns (skipNewlines tokens) pos
    (fun _ pos' => pos <= pos' /\ pos' < List.length tokens).
Proof. unfold skipNewlines. now apply returns_skipNewlinesFrom. Qed.

Lemma returns_looksLikeAssignment pos :
  returns (looksLikeAssignment tokens) pos (fun _ pos' => pos' = pos).
Proof. eexists. split; reflexivity. Qed.

#[local] Hint Resolve returns_skipNewlines returns_looksLikeAssignment
  : returns.

Lemma identifierListLoop_advances n :
  forall params pos,
    List.length tokens - pos < n ->
    advances tokens (identifierListLoop tokens n params) pos.
Proof.
  unfold advances.
  induction n as [|n IH]; intros params pos Hn; [lia|].
  cbn [identifierListLoop]. returns_auto.
  eapply returns_weaken; [apply IH; lia|]. cbv beta. intros. lia.
Qed.

#[local] Hint Extern 1 (returns (identifierListLoop _ _ _) _ _) =>
  apply identifierListLoop_advances; side : returns.

Lemma returns_parseLambdaParameters pos :
  proceeds tokens (parseLambdaParameters tokens) pos.
Proof. unfold proceeds, parseLambdaParameters. returns_auto. Qed.

Lemma returns_extractParams inner pos :
  returns (extractParams tokens inner) pos (fun _ pos' => pos' = pos).
Proof.
  pose proof (extractParams_spec tokens inner pos) as H.
  destruct (lambdaParams inner) as [params|].
  - eexists. split; [exact H | reflexivity].
  - destruct H as [e He]. eexists. split; [exact He | exact I].
Qed.

Lemma parseTemplate_advances pos :
  advances tokens (parseTemplate tokens) pos.
Proof. unfold advances, parseTemplate. returns_auto. Qed.

#[local] Hint Resolve returns_extractParams : returns.
#[local] Hint Extern 1 (returns (parseLambdaParameters _) _ _) =>
  apply returns_parseLambdaParameters : returns.
#[local] Hint Extern 1 (returns (parseTemplate _) _ _) =>
  apply parseTemplate_advances : returns.

Lemma operatorLoop_proceeds ops operand node n :
  forall lhs pos,
    List.length tokens - pos < n ->
    advancesFrom tokens operand (S pos) ->
    proceeds tokens (operatorLoop tokens n ops operand node lhs) pos.
Proof.
  unfold advancesFrom, advances, proceeds.
  induction n as [|n IH]; intros lhs pos Hn Hoperand; [lia|].
  cbn [operatorLoop]. returns_auto.
  eapply returns_weaken.
  - apply IH; [lia|]. intros ? ?. callback.
  - cbv beta. intros. lia.
Qed.

#[local] Hint Extern 1 (returns (operatorLoop _ _ _ _ _ _) _ _) =>
  apply operatorLoop_proceeds; side : returns.

Ltac unfold_returns := unfold advancesFrom, advances, proceeds in *.

(** The recursive call that ends an iteration of a loop. *)
Ltac again IH :=
  eapply returns_weaken;
  [ apply IH; side | cbv beta; intros; facts; lia ].

Section Methods.

Variable parseExpression : Parser Expression.
Variable parseBlock : Parser BlockStatement.
Variable parseStatement : Parser Statement.

Lemma parseLet_advances pos :
  advancesFrom tokens parseExpression (S pos) ->
  advances tokens (parseLet tokens parseExpression) pos.
Proof. unfold_returns. intros. unfold parseLet. returns_auto. Qed.

Lemma parseAssignment_advances pos :
  advancesFrom tokens parseExpression pos ->
  advances tokens (parseAssignment tokens parseExpression) pos.
Proof. unfold_returns. intros. unfold parseAssignment. returns_auto. Qed.

Lemma parseListen_advances pos :
  advancesFrom tokens parseExpression (S pos) ->
  advancesFrom tokens parseBlock (S pos) ->
  advances tokens (parseListen tokens parseExpression parseBlock) pos.
Proof. unfold_returns. intros. unfold parseListen. returns_auto. Qed.

Lemma parseSet_advances pos :
  advancesFrom tokens parseExpression (S pos) ->
  advances tokens (parseSet tokens parseExpression) pos.
Proof. unfold_returns. intros. unfold parseSet. returns_auto. Qed.

Lemma parseAdd_advances pos :
  advancesFrom tokens parseExpression (S pos) ->
  advances tokens (parseAdd tokens parseExpression) pos.
Proof. unfold_returns. intros. unfold parseAdd. returns_auto. Qed.

Lemma parseToggle_advances pos :
  advancesFrom tokens parseExpression (S pos) ->
  advances tokens (parseToggle tokens parseExpression) pos.
Proof. unfold_returns. intros. unfold parseToggle. returns_auto. Qed.

Lemma parseBlockLoop_proceeds n :
  forall body pos,
    List.length tokens - pos < n ->
    advancesFrom tokens parseStatement pos ->
    proceeds tokens (parseBlockLoop tokens parseStatement n body) pos.
Proof.
  unfold_returns.
  induction n as [|n IH]; intros body pos Hn Hstatement; [lia|].
  cbn [parseBlockLoop]. returns_auto. again IH.
Qed.

#[local] Hint Extern 1 (returns (parseBlockLoop _ _ _ _) _ _) =>
  apply parseBlockLoop_proceeds; side : returns.

Lemma parseBlock_body_advances pos :
  (pos < List.length tokens -> advancesFrom tokens parseStatement (S pos)) ->
  advances tokens (parseBlock_body tokens parseStatement) pos.
Proof. unfold_returns. intros. unfold parseBlock_body. returns_auto. Qed.

Lemma parseBlockBody_proceeds pos :
  advancesFrom tokens parseStatement pos ->
  proceeds tokens (parseBlockBody tokens parseStatement) pos.
Proof. unfold_returns. intros. unfold parseBlockBody. returns_auto. Qed.

#[local] Hint Extern 1 (returns (parseBlockBody _ _) _ _) =>
  apply parseBlockBody_proceeds; side : returns.

Lemma parseLambdaBlock_advances pos :
  advancesFrom tokens parseStatement (S pos) ->
  advances tokens (parseLambdaBlock tokens parseStatement) pos.
Proof. unfold_returns. intros. unfold parseLambdaBlock. returns_auto. Qed.

#[local] Hint Extern 1 (returns (parseLambdaBlock _ _) _ _) =>
  apply parseLambdaBlock_advances; side : returns.

Lemma parseThenClause_advances pos :
  advancesFrom tokens parseStatement (S pos) ->
  advances tokens (parseThenClause tokens parseStatement) pos.
Proof. unfold_returns. intros. unfold parseThenClause. returns_auto. Qed.

#[local] Hint Extern 1 (returns (parseThenClause _ _) _ _) =>
  apply parseThenClause_advances; side : returns.

Lemma parseSendChain_proceeds n :
  forall chain pos,
    List.length tokens - pos < n ->
    advancesFrom tokens parseStatement (S pos) ->
    proceeds tokens (parseSendChain tokens parseStatement n chain) pos.
Proof.
  unfold_returns.
  induction n as [|n IH]; intros chain pos Hn Hstatement; [lia|].
  cbn [parseSendChain]. returns_auto. again IH.
Qed.

#[local] Hint Extern 1 (returns (parseSendChain _ _ _ _) _ _) =>
  apply parseSendChain_proceeds; side : returns.

Lemma parseSend_advances pos :
  advancesFrom tokens parseExpression (S pos) ->
  advancesFrom tokens parseStatement (S pos) ->
  advances tokens (parseSend tokens parseExpression parseStatement) pos.
Proof. unfold_returns. intros. unfold parseSend. returns_auto. Qed.

Lemma parseBind_advances pos :
  advancesFrom tokens parseExpression (S pos) ->
  advances tokens (parseBind tokens parseExpression) pos.
Proof. unfold_returns. intros. unfold parseBind. returns_auto. Qed.

Lemma parseCallJs_advances pos :
  advancesFrom tokens parseExpression (S pos) ->
  advances tokens (parseCallJs tokens parseExpression) pos.
Proof. unfold_returns. intros. unfold parseCallJs. returns_auto. Qed.

Lemma parseIf_advances n :
  forall pos,
    List.length tokens - pos < n ->
    advancesFrom tokens parseExpression (S pos) ->
    advancesFrom tokens parseBlock (S pos) ->
    advances tokens (parseIf tokens parseExpression parseBlock n) pos.
Proof.
  unfold_returns.
  induction n as [|n IH]; intros pos Hn Hexpression Hblock; [lia|].
  cbn [parseIf]. returns_auto.
  eapply returns_bind; [apply IH; side|].
  cbv beta. intros ? ? ?; facts. returns_auto.
Qed.

Lemma parseFor_advances pos :
  advancesFrom tokens parseExpression (S pos) ->
  advancesFrom tokens parseBlock (S pos) ->
  advances tokens (parseFor tokens parseExpression parseBlock) pos.
Proof. unfold_returns. intros. unfold parseFor. returns_auto. Qed.

#[local] Hint Extern 1 (returns (parseLet _ _) _ _) =>
  apply parseLet_advances; side : returns.
#[local] Hint Extern 1 (returns (parseAssignment _ _) _ _) =>
  apply parseAssignment_advances; side : returns.
#[local] Hint Extern 1 (returns (parseListen _ _ _) _ _) =>
  apply parseListen_advances; side : returns.
#[local] Hint Extern 1 (returns (parseSet _ _) _ _) =>
  apply parseSet_advances; side : returns.
#[local] Hint Extern 1 (returns (parseAdd _ _) _ _) =>
  apply parseAdd_advances; side : returns.
#[local] Hint Extern 1 (returns (parseToggle _ _) _ _) =>
  apply parseToggle_advances; side : returns.
#[local] Hint Extern 1 (returns (parseSend _ _ _) _ _) =>
  apply parseSend_advances; side : returns.
#[local] Hint Extern 1 (returns (parseBind _ _) _ _) =>
  apply parseBind_advances; side : returns.
#[local] Hint Extern 1 (returns (parseCallJs _ _) _ _) =>
  apply parseCallJs_advances; side : returns.
#[local] Hint Extern 1 (returns (parseIf _ _ _ _) _ _) =>
  apply parseIf_advances; side : returns.
#[local] Hint Extern 1 (returns (parseFor _ _ _) _ _) =>
  apply parseFor_advances; side : returns.

Lemma parseStatement_body_advances pos :
  (pos < List.length tokens -> advancesFrom tokens parseExpression pos) ->
  (pos < List.length tokens -> advancesFrom tokens parseBlock (S pos)) ->
  (pos < List.length tokens -> advancesFrom tokens parseStatement (S pos)) ->
  advances tokens
    (parseStatement_body tokens parseExpression parseBlock parseStatement)
    pos.
Proof.
  unfold_returns. intros. unfold parseStatement_body. returns_auto.
Qed.

Lemma parseExpressionsLoop_advances n :
  forall items pos,
    List.length tokens - pos < n ->
    advancesFrom tokens parseExpression pos ->
    advances tokens (parseExpressionsLoop tokens parseExpression n items) pos.
Proof.
  unfold_returns.
  induction n as [|n IH]; intros items pos Hn Hexpression; [lia|].
  cbn [parseExpressionsLoop]. returns_auto. again IH.
Qed.

#[local] Hint Extern 1 (returns (parseExpressionsLoop _ _ _ _) _ _) =>
  apply parseExpressionsLoop_advances; side : returns.

Lemma parseList_advances pos :
  advancesFrom tokens parseExpression (S pos) ->
  advances tokens (parseList tokens parseExpression) pos.
Proof. unfold_returns. intros. unfold parseList. returns_auto. Qed.

Lemma parseMapEntriesLoop_advances n :
  forall entries pos,
    List.length tokens - pos < n ->
    advancesFrom tokens parseExpression (S pos) ->
    advances tokens (parseMapEntriesLoop tokens parseExpression n entries) pos.
Proof.
  unfold_returns.
  induction n as [|n IH]; intros entries pos Hn Hexpression; [lia|].
  cbn [parseMapEntriesLoop]. returns_auto. again IH.
Qed.

#[local] Hint Extern 1 (returns (parseMapEntriesLoop _ _ _ _) _ _) =>
  apply parseMapEntriesLoop_advances; side : returns.

Lemma parseMap_advances pos :
  advancesFrom tokens parseExpression (S pos) ->
  advances tokens (parseMap tokens parseExpression) pos.
Proof. unfold_returns. intros. unfold parseMap. returns_auto. Qed.

Lemma parseRender_advances pos :
  advancesFrom tokens parseExpression (S pos) ->
  advances tokens (parseRender tokens parseExpression) pos.
Proof. unfold_returns. intros. unfold parseRender. returns_auto. Qed.

Lemma parseGet_advances pos :
  advancesFrom tokens parseExpression (S pos) ->
  advances tokens (parseGet tokens parseExpression) pos.
Proof. unfold_returns. intros. unfold parseGet. returns_auto. Qed.

#[local] Hint Extern 1 (returns (parseList _ _) _ _) =>
  apply parseList_advances; side : returns.
#[local] Hint Extern 1 (returns (parseMap _ _) _ _) =>
  apply parseMap_advances; side : returns.
#[local] Hint Extern 1 (returns (parseRender _ _) _ _) =>
  apply parseRender_advances; side : returns.
#[local] Hint Extern 1 (returns (parseGet _ _) _ _) =>
  apply parseGet_advances; side : returns.

Lemma parsePrimaryExpression_advances pos :
  advancesFrom tokens parseExpression (S pos) ->
  advances tokens (parsePrimaryExpression tokens parseExpression) pos.
Proof.
  unfold_returns. intros. unfold parsePrimaryExpression. returns_auto.
Qed.

#[local] Hint Extern 1 (returns (parsePrimaryExpression _ _) _ _) =>
  apply parsePrimaryExpression_advances; side : returns.

Lemma parseCallMemberLoop_proceeds n :
  forall expression pos,
    List.length tokens - pos < n ->
    advancesFrom tokens parseExpression (S pos) ->
    proceeds tokens
      (parseCallMemberLoop tokens parseExpression n expression) pos.
Proof.
  unfold_returns.
  induction n as [|n IH]; intros expression pos Hn Hexpression; [lia|].
  cbn [parseCallMemberLoop]. returns_auto; again IH.
Qed.

#[local] Hint Extern 1 (returns (parseCallMemberLoop _ _ _ _) _ _) =>
  apply parseCallMemberLoop_proceeds; side : returns.

Lemma parseCallMemberExpression_advances pos :
  advancesFrom tokens parseExpression (S pos) ->
  advances tokens
    (parseCallMemberExpression tokens parseExpression) pos.
Proof.
  unfold_returns. intros. unfold parseCallMemberExpression. returns_auto.
Qed.

#[local] Hint Extern 1 (returns (parseCallMemberExpression _ _) _ _) =>
  apply parseCallMemberExpression_advances; side : returns.

Lemma parseUnaryExpression_advances n :
  forall pos,
    List.length tokens - pos < n ->
    advancesFrom tokens parseExpression (S pos) ->
    advances tokens (parseUnaryExpression tokens parseExpression n) pos.
Proof.
  unfold_returns.
  induction n as [|n IH]; intros pos Hn Hexpression; [lia|].
  cbn [parseUnaryExpression]. returns_auto.
  eapply returns_bind; [apply IH; side|].
  cbv beta. intros ? ? ?; facts. returns_auto.
Qed.

#[local] Hint Extern 1 (returns (parseUnaryExpression _ _ _) _ _) =>
  apply parseUnaryExpression_advances; side : returns.

Lemma parseMultiplicativeExpression_advances pos :
  advancesFrom tokens parseExpression (S pos) ->
  advances tokens
    (parseMultiplicativeExpression tokens parseExpression) pos.
Proof.
  unfold_returns. intros. unfold parseMultiplicativeExpression.
  returns_auto.
Qed.

#[local] Hint Extern 1 (returns (parseMultiplicativeExpression _ _) _ _) =>
  apply parseMultiplicativeExpression_advances; side : returns.

Lemma parseAdditiveExpression_advances pos :
  advancesFrom tokens parseExpression (S pos) ->
  advances tokens (parseAdditiveExpression tokens parseExpression) pos.
Proof.
  unfold_returns. intros. unfold parseAdditiveExpression. returns_auto.
Qed.

#[local] Hint Extern 1 (returns (parseAdditiveExpression _ _) _ _) =>
  apply parseAdditiveExpression_advances; side : returns.

Lemma parseRelationalExpression_advances pos :
  advancesFrom tokens parseExpression (S pos) ->
  advances tokens
    (parseRelationalExpression tokens parseExpression) pos.
Proof.
  unfold_returns. intros. unfold parseRelationalExpression. returns_auto.
Qed.

#[local] Hint Extern 1 (returns (parseRelationalExpression _ _) _ _) =>
  apply parseRelationalExpression_advances; side : returns.

Lemma parseEqualityExpression_advances pos :
  advancesFrom tokens parseExpression (S pos) ->
  advances tokens (parseEqualityExpression tokens parseExpression) pos.
Proof.
  unfold_returns. intros. unfold parseEqualityExpression. returns_auto.
Qed.

#[local] Hint Extern 1 (returns (parseEqualityExpression _ _) _ _) =>
  apply parseEqualityExpression_advances; side : returns.

Lemma parseLogicalExpression_advances pos :
  advancesFrom tokens parseExpression (S pos) ->
  advances tokens (parseLogicalExpression tokens parseExpression) pos.
Proof.
  unfold_returns. intros. unfold parseLogicalExpression. returns_auto.
Qed.

#[local] Hint Extern 1 (returns (parseLogicalExpression _ _) _ _) =>
  apply parseLogicalExpression_advances; side : returns.

Lemma parseLambdaBody_advances pos :
  advancesFrom tokens parseExpression pos ->
  advancesFrom tokens parseBlock pos ->
  advances tokens (parseLambdaBody tokens parseExpression parseBlock) pos.
Proof. unfold_returns. intros. unfold parseLambdaBody. returns_auto. Qed.

#[local] Hint Extern 1 (returns (parseLambdaBody _ _ _) _ _) =>
  apply parseLambdaBody_advances; side : returns.

Lemma parseLambdaExpression_advances pos :
  (pos < List.length tokens -> advancesFrom tokens parseExpression (S pos)) ->
  (pos < List.length tokens -> advancesFrom tokens parseBlock (S pos)) ->
  advances tokens
    (parseLambdaExpression tokens parseExpression parseBlock) pos.
Proof.
  unfold_returns. intros. unfold parseLambdaExpression. returns_auto.
  match goal with
  | |- returns (match ?e with Identifier _ => _ | _ => _ end) _ _ =>
      destruct e
  end; returns_auto.
Qed.

End Methods.

(** The three methods of the knot return when the fuel covers twice the
    tokens left. *)
Lemma parser_knot_advances fuel :
  (forall pos,
     2 * (List.length tokens - pos) + 1 <= fuel ->
     advances tokens (parseExpression tokens fuel) pos)
  /\ (forall pos,
        2 * (List.length tokens - pos) + 1 <= fuel ->
        advances tokens (parseBlock tokens fuel) pos)
  /\ (forall pos,
        2 * (List.length tokens - pos) + 2 <= fuel ->
        advances tokens (parseStatement tokens fuel) pos).
Proof.
  induction fuel as [|fuel (IHe & IHb & IHs)].
  - repeat split; intros; lia.
  - repeat split; intros pos Hfuel.
    + cbn [parseExpression].
      apply parseLambdaExpression_advances; intros Hpos p Hp;
        [apply IHe | apply IHb]; lia.
    + cbn [parseBlock].
      apply parseBlock_body_advances. intros Hpos p Hp. apply IHs. lia.
    + cbn [parseStatement].
      apply parseStatement_body_advances; intros Hpos p Hp;
        [apply IHe | apply IHb | apply IHs]; lia.
Qed.

Lemma parseLoop_returns fuel :
  forall body pos,
    2 * (List.length tokens - pos) + 3 <= fuel ->
    returns (parseLoop tokens fuel body) pos (fun _ _ => True).
Proof.
  induction fuel as [|fuel IH]; intros body pos Hfuel; [lia|].
  cbn [parseLoop]. returns_auto.
  eapply returns_bind;
    [apply (proj2 (proj2 (parser_knot_advances fuel))); lia|].
  cbv beta. intros ? ? ?; facts. returns_auto.
  apply IH. lia.
Qed.

End ParserTermination.

(** [parse] returns or throws on every source: the fuel of the model
    is never exhausted. *)
Lemma parse_total source : exists r, parse source = Some r.
Proof.
  unfold parse.
  destruct (tokenize_returns source) as (r & ->).
  destruct r as [tokens|e]; [|eauto].
  assert (Hfuel : 2 * (List.length tokens - 0) + 3 <= parserFuel tokens)
    by (unfold parserFuel; lia).
  destruct (@parseLoop_returns tokens (parserFuel tokens) [] 0 Hfuel)
    as (r & Er & _).
  unfold run. rewrite Er. destruct r as [[body pos]|e]; eauto.
Qed.

Lemma parseExpressionOf_total source :
  exists r, parseExpressionOf source = Some r.
Proof.
  unfold parseExpressionOf.
  destruct (tokenize_returns source) as (r & ->).
  destruct r as [tokens|e]; [|eauto].
  assert (Hfuel : 2 * (List.length tokens - 0) + 1 <= parserFuel tokens)
    by (unfold parserFuel; lia).
  destruct (proj1 (@parser_knot_advances tokens (parserFuel tokens)) 0 Hfuel)
    as (r & Er & _).
  unfold run. rewrite Er. destruct r as [[expression pos]|e]; eauto.
Qed.

Lemma compileSprout_total source : exists r, compileSprout source = Some r.
Proof.
  unfold compileSprout. destruct (parse_total source) as (r & ->).
  destruct r; eauto.
Qed.





(** X14. The parser terminates and makes progress: [parse] and
    [compileSprout] return or throw on every source, and from every
    position on every token list [parseExpression], [parseBlock] and
    [parseStatement] return or throw, a result having consumed at
    least one token and left the position within the tokens or just
    after them. *)
Theorem parser_terminates_with_progress :
  forall source tokens pos,
    (exists r, parse source = Some r)
    /\ (exists r, compileSprout source = Some r)
    /\ advances tokens (parseExpression tokens (parserFuel tokens)) pos
    /\ advances tokens (parseBlock tokens (parserFuel tokens)) pos
    /\ advances tokens (parseStatement tokens (parserFuel tokens)) pos.
Proof.
  intros source tokens pos.
  split; [apply parse_total|]. split; [apply compileSprout_total|].
  destruct (@parser_knot_advances tokens (parserFuel tokens))
    as (He & Hb & Hs).
  repeat split; [apply He | apply Hb | apply Hs]; unfold parserFuel; lia.
Qed.

(** *** The parser stays on the tokens and throws at a token *)

Section ParserSafety.

Variable tokens : list Token.

Hypothesis tokens_end : endsInEOF tokens.

Lemma sound_ret {A} (a : A) pos (Q : A -> nat -> Prop) :
  Q a pos -> sound tokens (ret a) pos Q.
Proof. intros H r [= <-]. exact H. Qed.

Lemma sound_outOfFuel {A} pos (Q : A -> nat -> Prop) :
  sound tokens outOfFuel pos Q.
Proof. intros r. discriminate. Qed.

Lemma sound_bind {A B} (m : Parser A) (k : A -> Parser B) pos
    (Q1 : A -> nat -> Prop) (Q : B -> nat -> Prop) :
  sound tokens m pos Q1 ->
  (forall a pos', Q1 a pos' -> sound tokens (k a) pos' Q) ->
  sound tokens (bind m k) pos Q.
Proof.
  intros Hm Hk r Hr. unfold bind in Hr.
  destruct (m pos) as [[[a pos']|e]|] eqn:E.
  - exact (Hk a pos' (Hm _ E) r Hr).
  - injection Hr as <-. exact (Hm _ E).
  - discriminate.
Qed.

Lemma sound_weaken {A} (p : Parser A) pos (Q Q' : A -> nat -> Prop) :
  sound tokens p pos Q -> (forall a pos', Q a pos' -> Q' a pos') ->
  sound tokens p pos Q'.
Proof.
  intros Hp H r Hr. specialize (Hp r Hr).
  destruct r as [[a pos']|e]; auto.
Qed.

Lemma sound_peek pos :
  pos < List.length tokens ->
  sound tokens (peek tokens) pos
    (fun token pos' => pos' = pos /\ nth_error tokens pos = Some token).
Proof.
  intros Hpos r. unfold peek.
  destruct (nth_error tokens pos) as [token|] eqn:E.
  - intros [= <-]. now split.
  - apply nth_error_None in E. lia.
Qed.

Lemma sound_errorAt {A} msg token pos (Q : A -> nat -> Prop) :
  In token tokens -> msg <> "Unexpected end of input" ->
  sound tokens (errorAt msg token) pos Q.
Proof.
  intros Hin Hmsg r [= <-]. split; [|exact Hmsg].
  exists token. now split.
Qed.

Lemma sound_errorHere {A} msg pos (Q : A -> nat -> Prop) :
  pos < List.length tokens -> msg <> "Unexpected end of input" ->
  sound tokens (errorHere tokens msg) pos Q.
Proof.
  intros Hpos Hmsg. unfold errorHere.
  eapply sound_bind; [now apply sound_peek|].
  cbv beta. intros token pos' [-> Hnth].
  apply sound_errorAt; [|exact Hmsg]. eapply nth_error_In. exact Hnth.
Qed.

Lemma sound_next pos token :
  nth_error tokens pos = Some token -> type token <> T_eof ->
  sound tokens next pos (fun _ pos' => pos' < List.length tokens).
Proof. intros Hnth Hty r [= <-]. exact (tokens_end _ Hnth Hty). Qed.

(** The token that a test has just accepted is not the end-of-input
    token. *)
Ltac tidy :=
  repeat match goal with
         | H : _ /\ _ |- _ => destruct H
         end;
  subst.

(** The token that a test has just accepted is not the end-of-input
    token. *)
Ltac noteof :=
  let H := fresh in
  intros H; unfold tokenIs in *; rewrite H in *; simpl in *;
  congruence.

Ltac message :=
  let H := fresh in
  intros H; cbn in H; discriminate H.

Ltac inside :=
  first [ assumption | lia | eapply nth_error_In; eassumption ].

Create HintDb sound.

Ltac sound_step :=
  lazymatch goal with
  | |- sound _ (bind (if _ then _ else _) _) _ _ =>
      eapply sound_bind
        with (Q1 := fun _ pos' => pos' < List.length tokens);
      [ | cbv beta; intros ? ? ? ]
  | |- sound _ (bind _ _) _ _ =>
      eapply sound_bind;
      [ solve [ eauto with sound ] | cbv beta; intros ? ? ?; tidy ]
  | |- sound _ (ret _) _ _ => apply sound_ret; cbv beta; try inside
  | |- sound _ (errorAt _ _) _ _ =>
      apply sound_errorAt; [ inside | message ]
  | |- sound _ (errorHere _ _) _ _ =>
      apply sound_errorHere; [ inside | message ]
  | |- sound _ outOfFuel _ _ => apply sound_outOfFuel
  | |- sound _ (if ?b then _ else _) _ _ => destruct b eqn:?
  | |- sound _ _ _ _ =>
      eapply sound_weaken;
      [ solve [ eauto with sound ] | cbv beta; intros; tidy; try inside ]
  end.

Ltac sound_auto := repeat sound_step.

Ltac enter := unfold keepsInside, staysInside in *; intros.

#[local] Hint Extern 1 (sound _ (peek _) _ _) =>
  apply sound_peek; inside : sound.
#[local] Hint Extern 1 (sound _ next _ _) =>
  eapply sound_next; [ eassumption | noteof ] : sound.
#[local] Hint Extern 2 (sound _ ?p _ _) =>
  match goal with
  | H : forall pos, _ -> sound _ p pos _ |- _ => apply H; inside
  end : sound.

Lemma isType_inside ty : keepsInside tokens (isType tokens ty).
Proof. enter. unfold isType. sound_auto. Qed.

Lemma peekIdentifier_inside v : keepsInside tokens (peekIdentifier tokens v).
Proof. enter. unfold peekIdentifier. sound_auto. Qed.

Lemma peekOperator_inside v : keepsInside tokens (peekOperator tokens v).
Proof. enter. unfold peekOperator. sound_auto. Qed.

Lemma peekPunctuation_inside v : keepsInside tokens (peekPunctuation tokens v).
Proof. enter. unfold peekPunctuation. sound_auto. Qed.

Lemma consumeIdentifierToken_inside pos :
  pos < List.length tokens ->
  sound tokens (consumeIdentifierToken tokens) pos
    (fun token pos' => pos' < List.length tokens /\ In token tokens).
Proof.
  intros. unfold consumeIdentifierToken. sound_auto.
  split; [assumption | inside].
Qed.

#[local] Hint Extern 1 (sound _ (isType _ _) _ _) =>
  apply isType_inside; inside : sound.
#[local] Hint Extern 1 (sound _ (peekIdentifier _ _) _ _) =>
  apply peekIdentifier_inside; inside : sound.
#[local] Hint Extern 1 (sound _ (peekOperator _ _) _ _) =>
  apply peekOperator_inside; inside : sound.
#[local] Hint Extern 1 (sound _ (peekPunctuation _ _) _ _) =>
  apply peekPunctuation_inside; inside : sound.
#[local] Hint Extern 1 (sound _ (consumeIdentifierToken _) _ _) =>
  apply consumeIdentifierToken_inside; inside : sound.

Lemma consumeIdentifier_inside v :
  keepsInside tokens (consumeIdentifier tokens v).
Proof. enter. unfold consumeIdentifier. sound_auto. Qed.

Lemma consumeIdentifierValue_inside :
  keepsInside tokens (consumeIdentifierValue tokens).
Proof. enter. unfold consumeIdentifierValue. sound_auto. Qed.

Lemma consumeOperator_inside v : keepsInside tokens (consumeOperator tokens v).
Proof. enter. unfold consumeOperator. sound_auto. Qed.

Lemma consumeType_inside ty pos :
  ty <> T_eof ->
  pos < List.length tokens ->
  sound tokens (consumeType tokens ty) pos
    (fun token pos' => pos' < List.length tokens /\ In token tokens).
Proof.
  intros Hty Hpos. unfold consumeType. sound_step. sound_step.
  - eapply sound_bind.
    + eapply sound_next; [eassumption|].
      intros Heof. rewrite Heof in *. destruct ty; try discriminate.
      now apply Hty.
    + cbv beta. intros _ pos' Hpos'. sound_auto.
      split; [assumption | inside].
  - sound_auto.
Qed.

Lemma consumePunctuation_inside v :
  keepsInside tokens (consumePunctuation tokens v).
Proof. enter. unfold consumePunctuation. sound_auto. Qed.

Lemma consumeIfPunctuation_inside v :
  keepsInside tokens (consumeIfPunctuation tokens v).
Proof. enter. unfold consumeIfPunctuation. sound_auto. Qed.

#[local] Hint Extern 1 (sound _ (consumeIdentifier _ _) _ _) =>
  apply consumeIdentifier_inside; inside : sound.
#[local] Hint Extern 1 (sound _ (consumeIdentifierValue _) _ _) =>
  apply consumeIdentifierValue_inside; inside : sound.
#[local] Hint Extern 1 (sound _ (consumeOperator _ _) _ _) =>
  apply consumeOperator_inside; inside : sound.
#[local] Hint Extern 1 (sound _ (consumeType _ _) _ _) =>
  apply consumeType_inside; [ discriminate | inside ] : sound.
#[local] Hint Extern 1 (sound _ (consumePunctuation _ _) _ _) =>
  apply consumePunctuation_inside; inside : sound.
#[local] Hint Extern 1 (sound _ (consumeIfPunctuation _ _) _ _) =>
  apply consumeIfPunctuation_inside; inside : sound.

Lemma skipNewlinesFrom_inside rest :
  forall pos,
    pos < List.length tokens ->
    rest = skipn pos tokens ->
    staysInside tokens (skipNewlinesFrom tokens rest) pos.
Proof.
  unfold staysInside.
  induction rest as [|token rest IH]; intros pos Hpos Hrest;
    cbn [skipNewlinesFrom].
  - sound_auto.
  - assert (Hnth : nth_error tokens pos = Some token).
    { rewrite <- (Nat.add_0_r pos), <- nth_error_skipn, <- Hrest.
      reflexivity. }
    destruct (TokenType_eqb (type token) T_newline) eqn:Hnl; [|sound_auto].
    assert (Hnext : S pos < List.length tokens).
    { apply (tokens_end _ Hnth). intros Heof. rewrite Heof in Hnl.
      discriminate. }
    eapply sound_bind with (Q1 := fun _ pos' => pos' = S pos).
    + intros r [= <-]. reflexivity.
    + cbv beta. intros _ pos' ->. apply IH; [exact Hnext|].
      replace (S pos) with (1 + pos) by reflexivity.
      rewrite <- skipn_skipn, <- Hrest. reflexivity.
Qed.

Lemma skipNewlines_inside : keepsInside tokens (skipNewlines tokens).
Proof.
  intros pos Hpos. unfold skipNewlines.
  now apply skipNewlinesFrom_inside.
Qed.

Lemma looksLikeAssignment_inside :
  keepsInside tokens (looksLikeAssignment tokens).
Proof. intros pos Hpos r [= <-]. exact Hpos. Qed.

#[local] Hint Extern 1 (sound _ (skipNewlines _) _ _) =>
  apply skipNewlines_inside; inside : sound.
#[local] Hint Extern 1 (sound _ (looksLikeAssignment _) _ _) =>
  apply looksLikeAssignment_inside; inside : sound.

Lemma identifierListLoop_inside n :
  forall params, keepsInside tokens (identifierListLoop tokens n params).
Proof.
  induction n as [|n IH]; intros params; enter; cbn [identifierListLoop];
    sound_auto.
Qed.

#[local] Hint Extern 1 (sound _ (identifierListLoop _ _ _) _ _) =>
  apply identifierListLoop_inside; inside : sound.

Lemma parseLambdaParameters_inside :
  keepsInside tokens (parseLambdaParameters tokens).
Proof. enter. unfold parseLambdaParameters. sound_auto. Qed.

Lemma extractParams_elements_inside (elements : list Expression) :
  keepsInside tokens
    (mapM (fun el =>
             match el with
             | Identifier name => ret name
             | _ => errorHere tokens "Lambda parameters must be identifiers"
             end) elements).
Proof.
  induction elements as [|el rest IH]; enter; cbn [mapM]; [sound_auto|].
  eapply sound_bind with (Q1 := fun _ pos' => pos' < List.length tokens).
  - destruct el; sound_auto.
  - cbv beta. intros name pos' Hpos'. sound_auto.
Qed.

Lemma extractParams_inside :
  forall inner, keepsInside tokens (extractParams tokens inner).
Proof.
  induction inner using Expression_nested_ind; enter;
    cbn [extractParams]; sound_auto.
  now apply extractParams_elements_inside.
Qed.

Lemma parseTemplate_inside : keepsInside tokens (parseTemplate tokens).
Proof. enter. unfold parseTemplate. sound_auto. Qed.

#[local] Hint Extern 1 (sound _ (parseLambdaParameters _) _ _) =>
  apply parseLambdaParameters_inside; inside : sound.
#[local] Hint Extern 1 (sound _ (extractParams _ _) _ _) =>
  apply extractParams_inside; inside : sound.
#[local] Hint Extern 1 (sound _ (parseTemplate _) _ _) =>
  apply parseTemplate_inside; inside : sound.

Lemma operatorLoop_inside ops operand node n :
  keepsInside tokens operand ->
  forall lhs, keepsInside tokens (operatorLoop tokens n ops operand node lhs).
Proof.
  intros Hoperand.
  induction n as [|n IH]; intros lhs; enter; cbn [operatorLoop]; sound_auto.
Qed.

#[local] Hint Extern 1 (sound _ (operatorLoop _ _ _ _ _ _) _ _) =>
  apply operatorLoop_inside; [ enter; sound_auto | inside ] : sound.

Section Methods.

Variable parseExpression : Parser Expression.
Variable parseBlock : Parser BlockStatement.
Variable parseStatement : Parser Statement.

Hypothesis parseExpression_inside : keepsInside tokens parseExpression.
Hypothesis parseBlock_inside : keepsInside tokens parseBlock.
Hypothesis parseStatement_inside : keepsInside tokens parseStatement.

#[local] Hint Extern 1 (sound _ parseExpression _ _) =>
  apply parseExpression_inside; inside : sound.
#[local] Hint Extern 1 (sound _ parseBlock _ _) =>
  apply parseBlock_inside; inside : sound.
#[local] Hint Extern 1 (sound _ parseStatement _ _) =>
  apply parseStatement_inside; inside : sound.

Lemma parseLet_inside : keepsInside tokens (parseLet tokens parseExpression).
Proof. enter. unfold parseLet. sound_auto. Qed.

Lemma parseAssignment_inside :
  keepsInside tokens (parseAssignment tokens parseExpression).
Proof. enter. unfold parseAssignment. sound_auto. Qed.

Lemma parseListen_inside :
  keepsInside tokens (parseListen tokens parseExpression parseBlock).
Proof. enter. unfold parseListen. sound_auto. Qed.

Lemma parseSet_inside : keepsInside tokens (parseSet tokens parseExpression).
Proof. enter. unfold parseSet. sound_auto. Qed.

Lemma parseAdd_inside : keepsInside tokens (parseAdd tokens parseExpression).
Proof. enter. unfold parseAdd. sound_auto. Qed.

Lemma parseToggle_inside :
  keepsInside tokens (parseToggle tokens parseExpression).
Proof. enter. unfold parseToggle. sound_auto. Qed.

Lemma parseBlockLoop_inside n :
  forall body, keepsInside tokens (parseBlockLoop tokens parseStatement n body).
Proof.
  induction n as [|n IH]; intros body; enter; cbn [parseBlockLoop];
    sound_auto.
Qed.

#[local] Hint Extern 1 (sound _ (parseBlockLoop _ _ _ _) _ _) =>
  apply parseBlockLoop_inside; inside : sound.

Lemma parseBlock_body_inside :
  keepsInside tokens (parseBlock_body tokens parseStatement).
Proof. enter. unfold parseBlock_body. sound_auto. Qed.

Lemma parseBlockBody_inside :
  keepsInside tokens (parseBlockBody tokens parseStatement).
Proof. enter. unfold parseBlockBody. sound_auto. Qed.

#[local] Hint Extern 1 (sound _ (parseBlockBody _ _) _ _) =>
  apply parseBlockBody_inside; inside : sound.

Lemma parseLambdaBlock_inside :
  keepsInside tokens (parseLambdaBlock tokens parseStatement).
Proof. enter. unfold parseLambdaBlock. sound_auto. Qed.

#[local] Hint Extern 1 (sound _ (parseLambdaBlock _ _) _ _) =>
  apply parseLambdaBlock_inside; inside : sound.

Lemma parseThenClause_inside :
  keepsInside tokens (parseThenClause tokens parseStatement).
Proof. enter. unfold parseThenClause. sound_auto. Qed.

#[local] Hint Extern 1 (sound _ (parseThenClause _ _) _ _) =>
  apply parseThenClause_inside; inside : sound.

Lemma parseSendChain_inside n :
  forall chain,
    keepsInside tokens (parseSendChain tokens parseStatement n chain).
Proof.
  induction n as [|n IH]; intros chain; enter; cbn [parseSendChain];
    sound_auto.
Qed.

#[local] Hint Extern 1 (sound _ (parseSendChain _ _ _ _) _ _) =>
  apply parseSendChain_inside; inside : sound.

Lemma parseSend_inside :
  keepsInside tokens (parseSend tokens parseExpression parseStatement).
Proof. enter. unfold parseSend. sound_auto. Qed.

Lemma parseBind_inside : keepsInside tokens (parseBind tokens parseExpression).
Proof. enter. unfold parseBind. sound_auto. Qed.

Lemma parseCallJs_inside :
  keepsInside tokens (parseCallJs tokens parseExpression).
Proof. enter. unfold parseCallJs. sound_auto. Qed.

Lemma parseIf_inside n :
  keepsInside tokens (parseIf tokens parseExpression parseBlock n).
Proof.
  induction n as [|n IH]; enter; cbn [parseIf]; sound_auto.
Qed.

Lemma parseFor_inside :
  keepsInside tokens (parseFor tokens parseExpression parseBlock).
Proof. enter. unfold parseFor. sound_auto. Qed.

#[local] Hint Extern 1 (sound _ (parseLet _ _) _ _) =>
  apply parseLet_inside; inside : sound.
#[local] Hint Extern 1 (sound _ (parseAssignment _ _) _ _) =>
  apply parseAssignment_inside; inside : sound.
#[local] Hint Extern 1 (sound _ (parseListen _ _ _) _ _) =>
  apply parseListen_inside; inside : sound.
#[local] Hint Extern 1 (sound _ (parseSet _ _) _ _) =>
  apply parseSet_inside; inside : sound.
#[local] Hint Extern 1 (sound _ (parseAdd _ _) _ _) =>
  apply parseAdd_inside; inside : sound.
#[local] Hint Extern 1 (sound _ (parseToggle _ _) _ _) =>
  apply parseToggle_inside; inside : sound.
#[local] Hint Extern 1 (sound _ (parseSend _ _ _) _ _) =>
  apply parseSend_inside; inside : sound.
#[local] Hint Extern 1 (sound _ (parseBind _ _) _ _) =>
  apply parseBind_inside; inside : sound.
#[local] Hint Extern 1 (sound _ (parseCallJs _ _) _ _) =>
  apply parseCallJs_inside; inside : sound.
#[local] Hint Extern 1 (sound _ (parseIf _ _ _ _) _ _) =>
  apply parseIf_inside; inside : sound.
#[local] Hint Extern 1 (sound _ (parseFor _ _ _) _ _) =>
  apply parseFor_inside; inside : sound.

Lemma parseStatement_body_inside :
  keepsInside tokens
    (parseStatement_body tokens parseExpression parseBlock parseStatement).
Proof. enter. unfold parseStatement_body. sound_auto. Qed.

Lemma parseExpressionsLoop_inside n :
  forall items,
    keepsInside tokens (parseExpressionsLoop tokens parseExpression n items).
Proof.
  induction n as [|n IH]; intros items; enter; cbn [parseExpressionsLoop];
    sound_auto.
Qed.

#[local] Hint Extern 1 (sound _ (parseExpressionsLoop _ _ _ _) _ _) =>
  apply parseExpressionsLoop_inside; inside : sound.

Lemma parseList_inside : keepsInside tokens (parseList tokens parseExpression).
Proof. enter. unfold parseList. sound_auto. Qed.

Lemma parseMapEntriesLoop_inside n :
  forall entries,
    keepsInside tokens (parseMapEntriesLoop tokens parseExpression n entries).
Proof.
  induction n as [|n IH]; intros entries; enter; cbn [parseMapEntriesLoop];
    sound_auto.
Qed.

#[local] Hint Extern 1 (sound _ (parseMapEntriesLoop _ _ _ _) _ _) =>
  apply parseMapEntriesLoop_inside; inside : sound.

Lemma parseMap_inside : keepsInside tokens (parseMap tokens parseExpression).
Proof. enter. unfold parseMap. sound_auto. Qed.

Lemma parseRender_inside :
  keepsInside tokens (parseRender tokens parseExpression).
Proof. enter. unfold parseRender. sound_auto. Qed.

Lemma parseGet_inside : keepsInside tokens (parseGet tokens parseExpression).
Proof. enter. unfold parseGet. sound_auto. Qed.

#[local] Hint Extern 1 (sound _ (parseList _ _) _ _) =>
  apply parseList_inside; inside : sound.
#[local] Hint Extern 1 (sound _ (parseMap _ _) _ _) =>
  apply parseMap_inside; inside : sound.
#[local] Hint Extern 1 (sound _ (parseRender _ _) _ _) =>
  apply parseRender_inside; inside : sound.
#[local] Hint Extern 1 (sound _ (parseGet _ _) _ _) =>
  apply parseGet_inside; inside : sound.

Lemma parsePrimaryExpression_inside :
  keepsInside tokens (parsePrimaryExpression tokens parseExpression).
Proof. enter. unfold parsePrimaryExpression. sound_auto. Qed.

#[local] Hint Extern 1 (sound _ (parsePrimaryExpression _ _) _ _) =>
  apply parsePrimaryExpression_inside; inside : sound.

Lemma parseCallMemberLoop_inside n :
  forall expression,
    keepsInside tokens
      (parseCallMemberLoop tokens parseExpression n expression).
Proof.
  induction n as [|n IH]; intros expression; enter;
    cbn [parseCallMemberLoop]; sound_auto.
Qed.

#[local] Hint Extern 1 (sound _ (parseCallMemberLoop _ _ _ _) _ _) =>
  apply parseCallMemberLoop_inside; inside : sound.

Lemma parseCallMemberExpression_inside :
  keepsInside tokens (parseCallMemberExpression tokens parseExpression).
Proof. enter. unfold parseCallMemberExpression. sound_auto. Qed.

#[local] Hint Extern 1 (sound _ (parseCallMemberExpression _ _) _ _) =>
  apply parseCallMemberExpression_inside; inside : sound.

Lemma parseUnaryExpression_inside n :
  keepsInside tokens (parseUnaryExpression tokens parseExpression n).
Proof.
  induction n as [|n IH]; enter; cbn [parseUnaryExpression]; sound_auto.
Qed.

#[local] Hint Extern 1 (sound _ (parseUnaryExpression _ _ _) _ _) =>
  apply parseUnaryExpression_inside; inside : sound.

Lemma parseMultiplicativeExpression_inside :
  keepsInside tokens (parseMultiplicativeExpression tokens parseExpression).
Proof. enter. unfold parseMultiplicativeExpression. sound_auto. Qed.

#[local] Hint Extern 1 (sound _ (parseMultiplicativeExpression _ _) _ _) =>
  apply parseMultiplicativeExpression_inside; inside : sound.

Lemma parseAdditiveExpression_inside :
  keepsInside tokens (parseAdditiveExpression tokens parseExpression).
Proof. enter. unfold parseAdditiveExpression. sound_auto. Qed.

#[local] Hint Extern 1 (sound _ (parseAdditiveExpression _ _) _ _) =>
  apply parseAdditiveExpression_inside; inside : sound.

Lemma parseRelationalExpression_inside :
  keepsInside tokens (parseRelationalExpression tokens parseExpression).
Proof. enter. unfold parseRelationalExpression. sound_auto. Qed.

#[local] Hint Extern 1 (sound _ (parseRelationalExpression _ _) _ _) =>
  apply parseRelationalExpression_inside; inside : sound.

Lemma parseEqualityExpression_inside :
  keepsInside tokens (parseEqualityExpression tokens parseExpression).
Proof. enter. unfold parseEqualityExpression. sound_auto. Qed.

#[local] Hint Extern 1 (sound _ (parseEqualityExpression _ _) _ _) =>
  apply parseEqualityExpression_inside; inside : sound.

Lemma parseLogicalExpression_inside :
  keepsInside tokens (parseLogicalExpression tokens parseExpression).
Proof. enter. unfold parseLogicalExpression. sound_auto. Qed.

#[local] Hint Extern 1 (sound _ (parseLogicalExpression _ _) _ _) =>
  apply parseLogicalExpression_inside; inside : sound.

Lemma parseLambdaBody_inside :
  keepsInside tokens (parseLambdaBody tokens parseExpression parseBlock).
Proof. enter. unfold parseLambdaBody. sound_auto. Qed.

#[local] Hint Extern 1 (sound _ (parseLambdaBody _ _ _) _ _) =>
  apply parseLambdaBody_inside; inside : sound.

Lemma parseLambdaExpression_inside :
  keepsInside tokens (parseLambdaExpression tokens parseExpression parseBlock).
Proof.
  enter. unfold parseLambdaExpression. sound_auto.
  match goal with
  | |- sound _ (match ?e with Identifier _ => _ | _ => _ end) _ _ =>
      destruct e
  end; sound_auto.
Qed.

End Methods.

(** The three methods of the knot, whatever the fuel. *)
Lemma parser_knot_inside fuel :
  keepsInside tokens (parseExpression tokens fuel)
  /\ keepsInside tokens (parseBlock tokens fuel)
  /\ keepsInside tokens (parseStatement tokens fuel).
Proof.
  induction fuel as [|fuel (IHe & IHb & IHs)].
  - repeat split; intros pos Hpos r; discriminate.
  - repeat split; intros pos Hpos.
    + cbn [parseExpression].
      apply parseLambdaExpression_inside; assumption.
    + cbn [parseBlock]. apply parseBlock_body_inside; assumption.
    + cbn [parseStatement]. apply parseStatement_body_inside; assumption.
Qed.

Lemma parseLoop_inside fuel :
  forall body, keepsInside tokens (parseLoop tokens fuel body).
Proof.
  induction fuel as [|fuel IH]; intros body; enter; cbn [parseLoop];
    sound_auto.
  eapply sound_bind;
    [apply (proj2 (proj2 (parser_knot_inside fuel))); assumption|].
  cbv beta. intros ? ? ?. sound_auto.
Qed.

End ParserSafety.

Lemma tokenize_endsInEOF source tokens :
  tokenize source = Some (Ok tokens) ->
  endsInEOF tokens /\ 0 < List.length tokens.
Proof.
  intros H. unfold tokenize in H.
  destruct (tokenizeLoop_spec (fuel := S (String.length source))
              (mkTokenizer source 1 1) []) as (r & Er & Hr);
    [simpl; lia|].
  rewrite H in Er. injection Er as <-.
  destruct Hr as (front & ln & col & -> & Hfront). cbn [app].
  split; [|rewrite length_app; cbn; lia].
  intros i token Hnth Hty. rewrite length_app. cbn [List.length].
  destruct (Nat.lt_ge_cases i (List.length front)) as [Hlt | Hge]; [lia|].
  exfalso. rewrite nth_error_app2 in Hnth by exact Hge.
  destruct (i - List.length front) as [|[|k]]; cbn in Hnth;
    try discriminate.
  injection Hnth as <-. now apply Hty.
Qed.

(** X15. When the parser throws on the tokens of a source, the error
    carries the line and column of one of these tokens, and it is never
    the error of reading past the last token: the parser leaves the
    end-of-input token where it is. *)
Theorem parse_errors_point_at_tokens :
  forall source tokens e,
    tokenize source = Some (Ok tokens) ->
    parse source = Some (Throw e) ->
    (exists token,
       In token tokens
       /\ errLine e = line token /\ errColumn e = column token)
    /\ message e <> "Unexpected end of input".
Proof.
  intros source tokens e Htokens. unfold parse. rewrite Htokens.
  destruct (tokenize_endsInEOF _ Htokens) as [Hend Hpos].
  pose proof (@parseLoop_inside tokens Hend (parserFuel tokens) [] 0 Hpos)
    as Hloop.
  unfold run.
  destruct (parseLoop tokens (parserFuel tokens) [] 0)
    as [[[body pos]|e']|] eqn:E; try discriminate.
  intros [= <-]. exact (Hloop _ E).
Qed.

(** *** Operators of one level associate to the left *)

Lemma bind_none {A B} (m : Parser A) (k : A -> Parser B) pos :
  m pos = None -> bind m k pos = None.
Proof. intros H. unfold bind. now rewrite H. Qed.

Lemma operatorLoop_chain tokens ops operand node n :
  forall lhs pos e pos',
    operatorLoop tokens n ops operand node lhs pos = Some (Ok (e, pos')) ->
    exists steps,
      operatorSteps tokens ops operand pos steps pos'
      /\ e = chainLeft node lhs steps.
Proof.
  induction n as [|n IH]; intros lhs pos e pos'; [discriminate|].
  cbn [operatorLoop].
  destruct (nth_error tokens pos) as [token|] eqn:Et.
  - assert (Hpeek : peek tokens pos = Some (Ok (token, pos)))
      by (unfold peek; now rewrite Et).
    erewrite bind_ok by exact Hpeek.
    destruct (TokenType_eqb (type token) T_operator
              && hasString ops (value token)) eqn:Hop.
    + apply andb_true_iff in Hop as [Hty Hin].
      assert (Hconsume : consumeType tokens T_operator pos
                         = Some (Ok (token, S pos))).
      { unfold consumeType. erewrite bind_ok by exact Hpeek.
        now rewrite Hty. }
      erewrite bind_ok by exact Hconsume.
      destruct (operand (S pos)) as [[[rhs pos1]|?]|] eqn:Eo.
      * erewrite bind_ok by exact Eo. intros H.
        apply IH in H as (steps & Hsteps & ->).
        exists ((value token, rhs) :: steps). split; [|reflexivity].
        cbn [operatorSteps]. split.
        -- exists token. repeat split; try assumption.
           ++ now destruct (type token).
           ++ now apply hasString_In.
        -- now exists pos1.
      * erewrite bind_throw by exact Eo. discriminate.
      * rewrite bind_none by exact Eo. discriminate.
    + intros [= <- <-]. exists []. split; [|reflexivity].
      split; [reflexivity|]. now exists token.
  - assert (Hpeek : exists e', peek tokens pos = Some (Throw e'))
      by (unfold peek; rewrite Et; eauto).
    destruct Hpeek as [e' Hpeek]. erewrite bind_throw by exact Hpeek.
    discriminate.
Qed.

Lemma operatorLevel_chain tokens ops (operand : Parser Expression)
    node n pos e pos' :
  bind operand (operatorLoop tokens n ops operand node) pos
  = Some (Ok (e, pos')) ->
  exists first next steps,
    operand pos = Some (Ok (first, next))
    /\ operatorSteps tokens ops operand next steps pos'
    /\ e = chainLeft node first steps.
Proof.
  destruct (operand pos) as [[[lhs pos1]|?]|] eqn:Ef.
  - erewrite bind_ok by exact Ef. intros H.
    apply operatorLoop_chain in H as (steps & Hsteps & ->).
    now exists lhs, pos1, steps.
  - erewrite bind_throw by exact Ef. discriminate.
  - rewrite bind_none by exact Ef. discriminate.
Qed.

(** X16. Each binary level of the expression grammar associates to the
    left over its own operators: when the method of a level returns, it
    has read an operand, then operators of the level each followed by
    an operand, up to a token that is no operator of the level, and the
    expression is [node opn (... (node op1 first r1) ...) rn].  The
    operands are what the method of the next tighter level returns;
    [&&] and [||] are one level. *)
Theorem binary_levels_associate_left :
  forall tokens (parseExpression : Parser Expression) level pos e pos',
    In level (binaryLevels tokens parseExpression) ->
    levelMethod level pos = Some (Ok (e, pos')) ->
    exists first next steps,
      levelOperand level pos = Some (Ok (first, next))
      /\ operatorSteps tokens (levelOperators level) (levelOperand level)
           next steps pos'
      /\ e = chainLeft (levelNode level) first steps.
Proof.
  intros tokens parseExpression level pos e pos' Hlevel.
  cbn [binaryLevels In] in Hlevel.
  repeat (destruct Hlevel as [<- | Hlevel];
          [cbn [levelMethod levelOperand levelOperators levelNode];
           apply operatorLevel_chain|]).
  contradiction.
Qed.

(** *** Parameters of a continuation clause *)

Lemma tokenIs_true ty v token :
  tokenIs ty v token = true -> type token = ty /\ value token = v.
Proof.
  unfold tokenIs. intros H. apply andb_true_iff in H as [Hty Hv].
  apply String.eqb_eq in Hv. split; [|exact Hv].
  destruct (type token), ty; try discriminate; reflexivity.
Qed.

Lemma skipn_cons {A} (l : list A) pos x rest :
  skipn pos l = x :: rest ->
  nth_error l pos = Some x /\ skipn (S pos) l = rest.
Proof.
  intros H. split.
  - rewrite <- (Nat.add_0_r pos), <- nth_error_skipn, H. reflexivity.
  - replace (S pos) with (1 + pos) by reflexivity.
    rewrite <- skipn_skipn, H. reflexivity.
Qed.

Lemma peek_at tokens pos token :
  nth_error tokens pos = Some token ->
  peek tokens pos = Some (Ok (token, pos)).
Proof. intros H. unfold peek. now rewrite H. Qed.

Lemma consumeIdentifierValue_at tokens pos token name :
  nth_error tokens pos = Some token ->
  tokenIs T_identifier name token = true ->
  consumeIdentifierValue tokens pos = Some (Ok (name, S pos)).
Proof.
  intros Hnth Hid. apply tokenIs_true in Hid as [Hty Hv].
  unfold consumeIdentifierValue, consumeIdentifierToken.
  erewrite bind_ok; [|erewrite bind_ok by (apply peek_at; exact Hnth);
                       rewrite Hty; reflexivity].
  unfold ret. now rewrite Hv.
Qed.

Lemma consumeIfPunctuation_at tokens pos token v :
  nth_error tokens pos = Some token ->
  consumeIfPunctuation tokens v pos
  = Some (Ok (tokenIs T_punctuation v token,
              if tokenIs T_punctuation v token then S pos else pos)).
Proof.
  intros Hnth. unfold consumeIfPunctuation.
  erewrite bind_ok by (apply peek_at; exact Hnth).
  now destruct (tokenIs T_punctuation v token).
Qed.

Lemma consumePunctuation_at tokens pos token v :
  nth_error tokens pos = Some token ->
  tokenIs T_punctuation v token = true ->
  consumePunctuation tokens v pos = Some (Ok (tt, S pos)).
Proof.
  intros Hnth Hv. unfold consumePunctuation.
  erewrite bind_ok by (apply peek_at; exact Hnth).
  now rewrite Hv.
Qed.

Lemma identifierListLoop_names tokens :
  forall names n params pos,
    List.length names <= n ->
    parameterList names (skipn pos tokens) = true ->
    exists close,
      identifierListLoop tokens n params pos
      = Some (Ok ((params ++ names)%list, pos + 2 * List.length names - 1))
      /\ nth_error tokens (pos + 2 * List.length names - 1) = Some close
      /\ tokenIs T_punctuation ")" close = true.
Proof.
  induction names as [|name names IH]; intros n params pos Hn Hlist;
    [discriminate|].
  destruct n as [|n]; [cbn in Hn; lia|].
  cbn [parameterList] in Hlist.
  destruct (skipn pos tokens) as [|identifier rest] eqn:Eskip;
    [now destruct names|].
  apply skipn_cons in Eskip as [Hid Eskip].
  destruct rest as [|separator rest]; [now destruct names|].
  apply skipn_cons in Eskip as [Hsep Eskip].
  cbn [identifierListLoop].
  destruct names as [|name' names].
  - apply andb_true_iff in Hlist as [Hname Hclose].
    erewrite bind_ok by (eapply consumeIdentifierValue_at; eassumption).
    erewrite bind_ok by (eapply consumeIfPunctuation_at; eassumption).
    apply tokenIs_true in Hclose as Hfacts. destruct Hfacts as [Hty Hv].
    assert (Hcomma : tokenIs T_punctuation "," separator = false).
    { unfold tokenIs. rewrite Hv. apply andb_false_r. }
    rewrite Hcomma. cbn [List.length].
    replace (pos + 2 * 1 - 1) with (S pos) by lia.
    exists separator. now repeat split.
  - apply andb_true_iff in Hlist as [Hlist Hrest].
    apply andb_true_iff in Hlist as [Hname Hcomma].
    erewrite bind_ok by (eapply consumeIdentifierValue_at; eassumption).
    erewrite bind_ok by (eapply consumeIfPunctuation_at; eassumption).
    rewrite Hcomma.
    destruct (IH n (params ++ [name])%list (S (S pos)))
      as (close & E & Hnth & Hclose).
    + cbn [List.length] in *. lia.
    + now rewrite Eskip.
    + exists close. rewrite <- app_assoc in E. cbn [app] in E.
      replace (pos + 2 * List.length (name :: name' :: names) - 1)
        with (S (S pos) + 2 * List.length (name' :: names) - 1)
        by (cbn [List.length]; lia).
      now repeat split.
Qed.

Lemma parameterList_length names :
  forall rest,
    parameterList names rest = true -> List.length names <= List.length rest.
Proof.
  induction names as [|name names IH]; intros rest H; [discriminate|].
  destruct rest as [|a [|b rest]]; try (now destruct names).
  destruct names as [|name' names]; [cbn; lia|].
  cbn [parameterList] in H. apply andb_true_iff in H as [_ H].
  apply IH in H. cbn [List.length] in *. lia.
Qed.

(** X17. The parameters of a continuation clause are written between
    parentheses and separated by commas: on an opening parenthesis
    followed by one or more identifiers with a comma between them and
    a closing parenthesis, [parseLambdaParameters] returns the
    identifiers in order and stops after the closing parenthesis. *)
Theorem then_clause_parameters :
  forall tokens pos open names,
    nth_error tokens pos = Some open ->
    tokenIs T_punctuation "(" open = true ->
    parameterList names (skipn (S pos) tokens) = true ->
    parseLambdaParameters tokens pos
    = Some (Ok (names, S pos + 2 * List.length names)).
Proof.
  intros tokens pos open names Hopen Hparen Hlist.
  assert (Hfuel : List.length names <= List.length tokens).
  { apply parameterList_length in Hlist. rewrite length_skipn in Hlist. lia. }
  destruct (@identifierListLoop_names tokens names (List.length tokens) []
              (S pos) Hfuel Hlist) as (close & Eloop & Hclose & Hclosing).
  assert (Hfirst : exists identifier,
            nth_error tokens (S pos) = Some identifier
            /\ type identifier = T_identifier).
  { destruct names as [|name names]; [discriminate|].
    cbn [parameterList] in Hlist.
    destruct (skipn (S pos) tokens) as [|identifier rest] eqn:Eskip;
      [now destruct names|].
    apply skipn_cons in Eskip as [Hid _]. exists identifier.
    split; [exact Hid|].
    destruct rest; [now destruct names|].
    destruct names.
    - apply andb_true_iff in Hlist as [Hlist _].
      now apply tokenIs_true in Hlist.
    - apply andb_true_iff in Hlist as [Hlist _].
      apply andb_true_iff in Hlist as [Hlist _].
      now apply tokenIs_true in Hlist. }
  destruct Hfirst as (identifier & Hid & Htype).
  apply tokenIs_true in Hparen as Hfacts. destruct Hfacts as [Hty Hv].
  unfold parseLambdaParameters.
  unfold peekOperator at 1.
  erewrite bind_ok;
    [|erewrite bind_ok by (apply peek_at; exact Hopen); reflexivity].
  unfold tokenIs at 1. rewrite Hty. cbn [TokenType_eqb andb].
  unfold peekPunctuation at 1.
  erewrite bind_ok;
    [|erewrite bind_ok by (apply peek_at; exact Hopen); reflexivity].
  rewrite Hparen.
  erewrite bind_ok by (eapply consumePunctuation_at; eassumption).
  unfold peekPunctuation at 1.
  erewrite bind_ok;
    [|erewrite bind_ok by (apply peek_at; exact Hid); reflexivity].
  unfold tokenIs at 1. rewrite Htype. cbn [TokenType_eqb andb].
  erewrite bind_ok by exact Eloop.
  erewrite bind_ok by (eapply consumePunctuation_at; eassumption).
  unfold ret. cbn [app]. do 3 f_equal.
  destruct names; [discriminate|]. cbn [List.length]. lia.
Qed.

(** *** What a parsed program is made of *)

Section ParsedShape.

Variable tokens : list Token.

Hypothesis tokens_shaped :
  Forall (fun token => tokenShape token = true) tokens.

Lemma yields_ret {A} (a : A) pos (Q : A -> nat -> Prop) :
  Q a pos -> yields (ret a) pos Q.
Proof. intros H a' pos' [= <- <-]. exact H. Qed.

Lemma yields_none {A} (p : Parser A) pos (Q : A -> nat -> Prop) :
  (forall a pos', p pos <> Some (Ok (a, pos'))) -> yields p pos Q.
Proof. intros H a pos' E. now apply H in E. Qed.

Lemma yields_errorAt {A} msg token pos (Q : A -> nat -> Prop) :
  yields (errorAt msg token) pos Q.
Proof. intros a pos'. discriminate. Qed.

Lemma yields_outOfFuel {A} pos (Q : A -> nat -> Prop) :
  yields outOfFuel pos Q.
Proof. intros a pos'. discriminate. Qed.

Lemma yields_errorHere {A} msg pos (Q : A -> nat -> Prop) :
  yields (errorHere tokens msg) pos Q.
Proof.
  intros a pos' E.
  destruct (@errorHere_throws A tokens msg pos) as [e He]. congruence.
Qed.

Lemma yields_bind {A B} (m : Parser A) (k : A -> Parser B) pos
    (Q1 : A -> nat -> Prop) (Q : B -> nat -> Prop) :
  yields m pos Q1 ->
  (forall a pos', Q1 a pos' -> yields (k a) pos' Q) ->
  yields (bind m k) pos Q.
Proof.
  intros Hm Hk b pos2 E. unfold bind in E.
  destruct (m pos) as [[[a pos1]|e]|] eqn:Em; try discriminate.
  exact (Hk a pos1 (Hm _ _ Em) b pos2 E).
Qed.

Lemma yields_weaken {A} (p : Parser A) pos (Q Q' : A -> nat -> Prop) :
  yields p pos Q -> (forall a pos', Q a pos' -> Q' a pos') ->
  yields p pos Q'.
Proof. intros Hp H a pos' E. apply H. now apply Hp. Qed.

Lemma yields_peek pos :
  yields (peek tokens) pos
    (fun token pos' => pos' = pos /\ nth_error tokens pos = Some token).
Proof.
  intros token pos'. unfold peek.
  destruct (nth_error tokens pos) as [token'|]; [|discriminate].
  intros [= <- <-]. now split.
Qed.

Lemma yields_next pos : yields next pos (fun _ pos' => pos' = S pos).
Proof. intros a pos' E. unfold next in E. congruence. Qed.

Lemma token_shaped pos token :
  nth_error tokens pos = Some token -> tokenShape token = true.
Proof.
  intros H. apply nth_error_In in H.
  exact (proj1 (Forall_forall _ _) tokens_shaped _ H).
Qed.

Lemma identifier_token_text pos token :
  nth_error tokens pos = Some token ->
  TokenType_eqb (type token) T_identifier = true ->
  identifierText (value token) = true.
Proof.
  intros Hnth Hty. apply token_shaped in Hnth.
  unfold tokenShape in Hnth. now destruct (type token).
Qed.

Lemma andb_intro (a b : bool) : a = true -> b = true -> a && b = true.
Proof. now intros -> ->. Qed.

Ltac tidy' :=
  repeat match goal with
         | H : _ /\ _ |- _ => destruct H
         | H1 : nth_error ?l ?p = Some ?a, H2 : nth_error ?l ?p = Some ?b
           |- _ =>
             assert (a = b) by congruence; clear H2
         end;
  subst.

(** A node is well formed when its parts are. *)
Ltac shaped :=
  cbv beta;
  rewrite ?forallb_app;
  cbn [wellFormedExpression wellFormedStatement wellFormedBlock wellFormedIf
       wellFormedThen wellFormedBody wellFormedExtra forallb fst snd];
  repeat apply andb_intro;
  first [ assumption | reflexivity | exact I
        | eapply identifier_token_text; eassumption
        | idtac ].

Create HintDb yields.

Ltac yields_step :=
  lazymatch goal with
  | |- yields (bind _ _) _ _ =>
      first
        [ eapply yields_bind;
          [ solve [ eauto with yields ] | cbv beta; intros ? ? ?; tidy' ]
        | eapply yields_bind with (Q1 := fun _ _ => True);
          [ solve [ repeat yields_step ] | cbv beta; intros ? ? _ ] ]
  | |- yields (ret _) _ _ => apply yields_ret; shaped
  | |- yields (errorAt _ _) _ _ => apply yields_errorAt
  | |- yields (errorHere _ _) _ _ => apply yields_errorHere
  | |- yields outOfFuel _ _ => apply yields_outOfFuel
  | |- yields (if ?b then _ else _) _ _ => destruct b eqn:?
  | |- yields _ _ _ =>
      eapply yields_weaken;
      [ solve [ eauto with yields ] | cbv beta; intros; tidy'; shaped ]
  end.

Ltac yields_auto := repeat yields_step.

#[local] Hint Resolve yields_peek yields_next : yields.

Lemma isType_yields ty pos : yields (isType tokens ty) pos (fun _ _ => True).
Proof. unfold isType. yields_auto. Qed.

Lemma peekIdentifier_yields v pos :
  yields (peekIdentifier tokens v) pos (fun _ pos' => pos' = pos).
Proof. unfold peekIdentifier. yields_auto. Qed.

Lemma peekOperator_yields v pos :
  yields (peekOperator tokens v) pos (fun _ pos' => pos' = pos).
Proof. unfold peekOperator. yields_auto. Qed.

Lemma peekPunctuation_yields v pos :
  yields (peekPunctuation tokens v) pos (fun _ pos' => pos' = pos).
Proof. unfold peekPunctuation. yields_auto. Qed.

Lemma consumeIdentifierToken_yields pos :
  yields (consumeIdentifierToken tokens) pos
    (fun token _ => identifierText (value token) = true).
Proof. unfold consumeIdentifierToken. yields_auto. Qed.

#[local] Hint Resolve isType_yields peekIdentifier_yields peekOperator_yields
  peekPunctuation_yields consumeIdentifierToken_yields : yields.

Lemma consumeIdentifier_yields v pos :
  yields (consumeIdentifier tokens v) pos (fun _ _ => True).
Proof. unfold consumeIdentifier. yields_auto. Qed.

Lemma consumeIdentifierValue_yields pos :
  yields (consumeIdentifierValue tokens) pos
    (fun name _ => identifierText name = true).
Proof. unfold consumeIdentifierValue. yields_auto. Qed.

Lemma consumeOperator_yields v pos :
  yields (consumeOperator tokens v) pos (fun _ _ => True).
Proof. unfold consumeOperator. yields_auto. Qed.

(** [consumeType] returns the token it stood on. *)
Lemma consumeType_yields ty pos :
  yields (consumeType tokens ty) pos
    (fun token _ => nth_error tokens pos = Some token).
Proof. unfold consumeType. yields_auto. Qed.

Lemma consumePunctuation_yields v pos :
  yields (consumePunctuation tokens v) pos (fun _ _ => True).
Proof. unfold consumePunctuation. yields_auto. Qed.

Lemma consumeIfPunctuation_yields v pos :
  yields (consumeIfPunctuation tokens v) pos (fun _ _ => True).
Proof. unfold consumeIfPunctuation. yields_auto. Qed.

Lemma skipNewlines_yields pos :
  yields (skipNewlines tokens) pos (fun _ _ => True).
Proof. intros a pos' _. exact I. Qed.

Lemma looksLikeAssignment_yields pos :
  yields (looksLikeAssignment tokens) pos (fun _ _ => True).
Proof. intros a pos' _. exact I. Qed.

#[local] Hint Resolve consumeIdentifier_yields consumeIdentifierValue_yields
  consumeOperator_yields consumePunctuation_yields
  consumeIfPunctuation_yields skipNewlines_yields looksLikeAssignment_yields
  : yields.
#[local] Hint Extern 1 (yields (consumeType _ _) _ _) =>
  apply consumeType_yields : yields.

Lemma identifierListLoop_shape n :
  forall params pos,
    forallb identifierText params = true ->
    yields (identifierListLoop tokens n params) pos
      (fun names _ => forallb identifierText names = true).
Proof.
  induction n as [|n IH]; intros params pos Hparams;
    cbn [identifierListLoop]; yields_auto.
  eapply yields_weaken; [apply IH; shaped | auto].
Qed.

Lemma parseLambdaParameters_shape pos :
  yields (parseLambdaParameters tokens) pos
    (fun names _ => forallb identifierText names = true).
Proof.
  unfold parseLambdaParameters. yields_auto.
  eapply yields_bind with
    (Q1 := fun names _ => forallb identifierText names = true).
  - yields_auto. apply identifierListLoop_shape. reflexivity.
  - cbv beta. intros names ? Hnames. yields_auto.
Qed.

Lemma extractParams_elements_shape (elements : list Expression) pos :
  forallb (fun el => wellFormedExpression el) elements = true ->
  yields
    (mapM (fun el =>
             match el with
             | Identifier name => ret name
             | _ => errorHere tokens "Lambda parameters must be identifiers"
             end) elements) pos
    (fun names _ => forallb identifierText names = true).
Proof.
  revert pos. induction elements as [|el rest IH]; intros pos Hall;
    cbn [mapM]; [yields_auto|].
  cbn [forallb] in Hall. apply andb_true_iff in Hall as [Hel Hrest].
  eapply yields_bind with (Q1 := fun name _ => identifierText name = true).
  - destruct el; yields_auto.
  - cbv beta. intros name ? Hname.
    eapply yields_bind; [apply IH; exact Hrest|].
    cbv beta. intros names ? Hnames. yields_auto.
Qed.

(** The parameters that [extractParams] takes out of a well-formed
    expression are identifier texts. *)
Lemma extractParams_shape :
  forall inner pos,
    wellFormedExpression inner = true ->
    yields (extractParams tokens inner) pos
      (fun names _ => forallb identifierText names = true).
Proof.
  induction inner using Expression_nested_ind; intros pos Hinner;
    cbn [extractParams]; yields_auto.
  apply extractParams_elements_shape. exact Hinner.
Qed.

Lemma parseTemplate_shape pos :
  yields (parseTemplate tokens) pos
    (fun statement _ => wellFormedStatement statement = true).
Proof. unfold parseTemplate. yields_auto. Qed.

#[local] Hint Resolve parseLambdaParameters_shape parseTemplate_shape
  : yields.

(** A level of binary operators builds well-formed nodes when its
    operand does and its node is well formed for the operators of the
    level. *)
Lemma operatorLoop_shape ops operand node n :
  (forall pos, yields operand pos
                 (fun e _ => wellFormedExpression e = true)) ->
  (forall operator lhs rhs,
     hasString ops operator = true ->
     wellFormedExpression lhs = true ->
     wellFormedExpression rhs = true ->
     wellFormedExpression (node operator lhs rhs) = true) ->
  forall lhs pos,
    wellFormedExpression lhs = true ->
    yields (operatorLoop tokens n ops operand node lhs) pos
      (fun e _ => wellFormedExpression e = true).
Proof.
  intros Hoperand Hnode.
  induction n as [|n IH]; intros lhs pos Hlhs; cbn [operatorLoop];
    yields_auto.
  eapply yields_weaken; [apply IH | auto].
  match goal with
  | H : _ && _ = true |- _ => apply andb_true_iff in H as [_ Hop]
  end.
  now apply Hnode.
Qed.

Lemma binaryNode_shape ops :
  incl ops binaryOperators ->
  forall operator lhs rhs,
    hasString ops operator = true ->
    wellFormedExpression lhs = true ->
    wellFormedExpression rhs = true ->
    wellFormedExpression (BinaryExpression operator lhs rhs) = true.
Proof.
  intros Hops operator lhs rhs Hop Hlhs Hrhs.
  cbn [wellFormedExpression]. rewrite Hlhs, Hrhs, !andb_true_r.
  apply hasString_In, Hops in Hop.
  unfold hasString. apply existsb_exists. exists operator.
  split; [exact Hop | apply String.eqb_refl].
Qed.

Lemma logicalNode_shape ops :
  forall operator lhs rhs,
    hasString ops operator = true ->
    wellFormedExpression lhs = true ->
    wellFormedExpression rhs = true ->
    wellFormedExpression (logicalNode operator lhs rhs) = true.
Proof.
  intros operator lhs rhs _ Hlhs Hrhs. unfold logicalNode.
  cbn [wellFormedExpression]. now rewrite Hlhs, Hrhs.
Qed.

Section Methods.

Variable parseExpression : Parser Expression.
Variable parseBlock : Parser BlockStatement.
Variable parseStatement : Parser Statement.

Hypothesis parseExpression_shape :
  forall pos, yields parseExpression pos
                (fun e _ => wellFormedExpression e = true).
Hypothesis parseBlock_shape :
  forall pos, yields parseBlock pos
                (fun block _ => wellFormedBlock block = true).
Hypothesis parseStatement_shape :
  forall pos, yields parseStatement pos
                (fun statement _ => wellFormedStatement statement = true).

Lemma parseLet_shape pos :
  yields (parseLet tokens parseExpression) pos
    (fun statement _ => wellFormedStatement statement = true).
Proof. unfold parseLet. yields_auto. Qed.

Lemma parseAssignment_shape pos :
  yields (parseAssignment tokens parseExpression) pos
    (fun statement _ => wellFormedStatement statement = true).
Proof. unfold parseAssignment. yields_auto. Qed.

Lemma parseListen_shape pos :
  yields (parseListen tokens parseExpression parseBlock) pos
    (fun statement _ => wellFormedStatement statement = true).
Proof. unfold parseListen. yields_auto. Qed.

(** The extra expression is read exactly for [attr], [css] and
    [data]. *)
Lemma extra_shape property pos :
  yields
    (if hasExtra property
     then bind parseExpression (fun e => ret (Some e))
     else ret None) pos
    (fun extra _ => wellFormedExtra property extra = true).
Proof.
  unfold wellFormedExtra.
  destruct (hasExtra property); yields_auto.
Qed.

#[local] Hint Resolve extra_shape : yields.

Lemma parseSet_shape pos :
  yields (parseSet tokens parseExpression) pos
    (fun statement _ => wellFormedStatement statement = true).
Proof. unfold parseSet. yields_auto. Qed.

Lemma parseAdd_shape pos :
  yields (parseAdd tokens parseExpression) pos
    (fun statement _ => wellFormedStatement statement = true).
Proof. unfold parseAdd. yields_auto. Qed.

Lemma parseToggle_shape pos :
  yields (parseToggle tokens parseExpression) pos
    (fun statement _ => wellFormedStatement statement = true).
Proof. unfold parseToggle. yields_auto. Qed.

Lemma parseBlockLoop_shape n :
  forall body pos,
    forallb (fun statement => wellFormedStatement statement) body = true ->
    yields (parseBlockLoop tokens parseStatement n body) pos
      (fun statements _ =>
         forallb (fun statement => wellFormedStatement statement) statements
         = true).
Proof.
  induction n as [|n IH]; intros body pos Hbody; cbn [parseBlockLoop];
    yields_auto.
  eapply yields_weaken; [apply IH; shaped | auto].
Qed.

Lemma parseBlock_body_shape pos :
  yields (parseBlock_body tokens parseStatement) pos
    (fun block _ => wellFormedBlock block = true).
Proof.
  unfold parseBlock_body. yields_auto.
  eapply yields_bind; [apply parseBlockLoop_shape; reflexivity|].
  cbv beta. intros body ? Hbody. yields_auto.
Qed.

Lemma parseBlockBody_shape pos :
  yields (parseBlockBody tokens parseStatement) pos
    (fun block _ => wellFormedBlock block = true).
Proof.
  unfold parseBlockBody. yields_auto.
  eapply yields_bind; [apply parseBlockLoop_shape; reflexivity|].
  cbv beta. intros body ? Hbody. yields_auto.
Qed.

#[local] Hint Resolve parseBlockBody_shape : yields.

Lemma parseLambdaBlock_shape pos :
  yields (parseLambdaBlock tokens parseStatement) pos
    (fun lambda _ =>
       forallb identifierText (fst lambda) = true
       /\ wellFormedBlock (snd lambda) = true).
Proof. unfold parseLambdaBlock. yields_auto. split; shaped. Qed.

#[local] Hint Resolve parseLambdaBlock_shape : yields.

Lemma parseThenClause_shape pos :
  yields (parseThenClause tokens parseStatement) pos
    (fun clause _ => wellFormedThen clause = true).
Proof. unfold parseThenClause. yields_auto. Qed.

#[local] Hint Resolve parseThenClause_shape : yields.

Lemma parseSendChain_shape n :
  forall chain pos,
    forallb wellFormedThen chain = true ->
    yields (parseSendChain tokens parseStatement n chain) pos
      (fun clauses _ => forallb wellFormedThen clauses = true).
Proof.
  induction n as [|n IH]; intros chain pos Hchain; cbn [parseSendChain];
    yields_auto.
  eapply yields_weaken; [apply IH; shaped | auto].
Qed.

Lemma parseSend_shape pos :
  yields (parseSend tokens parseExpression parseStatement) pos
    (fun statement _ => wellFormedStatement statement = true).
Proof.
  unfold parseSend. yields_auto.
  eapply yields_bind; [apply parseSendChain_shape; reflexivity|].
  cbv beta. intros chain ? Hchain. yields_auto.
Qed.

Lemma parseBind_shape pos :
  yields (parseBind tokens parseExpression) pos
    (fun statement _ => wellFormedStatement statement = true).
Proof. unfold parseBind. yields_auto. Qed.

Lemma parseCallJs_shape pos :
  yields (parseCallJs tokens parseExpression) pos
    (fun statement _ => wellFormedStatement statement = true).
Proof. unfold parseCallJs. yields_auto. Qed.

Lemma parseIf_shape n :
  forall pos,
    yields (parseIf tokens parseExpression parseBlock n) pos
      (fun node _ => wellFormedIf node = true).
Proof.
  induction n as [|n IH]; intros pos; cbn [parseIf]; yields_auto.
Qed.

Lemma parseFor_shape pos :
  yields (parseFor tokens parseExpression parseBlock) pos
    (fun statement _ => wellFormedStatement statement = true).
Proof. unfold parseFor. yields_auto. Qed.

#[local] Hint Resolve parseLet_shape parseAssignment_shape parseListen_shape
  parseSet_shape parseAdd_shape parseToggle_shape parseSend_shape
  parseBind_shape parseCallJs_shape parseIf_shape parseFor_shape : yields.

Lemma parseStatement_body_shape pos :
  yields (parseStatement_body tokens parseExpression parseBlock parseStatement)
    pos (fun statement _ => wellFormedStatement statement = true).
Proof. unfold parseStatement_body. yields_auto. Qed.

Lemma parseExpressionsLoop_shape n :
  forall items pos,
    forallb (fun item => wellFormedExpression item) items = true ->
    yields (parseExpressionsLoop tokens parseExpression n items) pos
      (fun expressions _ =>
         forallb (fun item => wellFormedExpression item) expressions = true).
Proof.
  induction n as [|n IH]; intros items pos Hitems;
    cbn [parseExpressionsLoop]; yields_auto.
  eapply yields_weaken; [apply IH; shaped | auto].
Qed.

(** The elements of a list and the arguments of a call. *)
Lemma expressions_shape (close : bool) pos :
  yields
    (if close then ret []
     else parseExpressionsLoop tokens parseExpression (loopFuel tokens) [])
    pos
    (fun expressions _ =>
       forallb (fun item => wellFormedExpression item) expressions = true).
Proof.
  destruct close; yields_auto.
  apply parseExpressionsLoop_shape. reflexivity.
Qed.

#[local] Hint Resolve expressions_shape : yields.

Lemma parseList_shape pos :
  yields (parseList tokens parseExpression) pos
    (fun e _ => wellFormedExpression e = true).
Proof. unfold parseList. yields_auto. Qed.

Lemma parseMapEntriesLoop_shape n :
  forall entries pos,
    forallb (fun entry : string * Expression =>
               let (_, val) := entry in wellFormedExpression val) entries
    = true ->
    yields (parseMapEntriesLoop tokens parseExpression n entries) pos
      (fun result _ =>
         forallb (fun entry : string * Expression =>
                    let (_, val) := entry in wellFormedExpression val) result
         = true).
Proof.
  induction n as [|n IH]; intros entries pos Hentries;
    cbn [parseMapEntriesLoop]; yields_auto.
  eapply yields_weaken; [apply IH; shaped | auto].
Qed.

Lemma entries_shape (close : bool) pos :
  yields
    (if close then ret []
     else parseMapEntriesLoop tokens parseExpression (loopFuel tokens) [])
    pos
    (fun result _ =>
       forallb (fun entry : string * Expression =>
                  let (_, val) := entry in wellFormedExpression val) result
       = true).
Proof.
  destruct close; yields_auto.
  apply parseMapEntriesLoop_shape. reflexivity.
Qed.

#[local] Hint Resolve entries_shape : yields.

Lemma parseMap_shape pos :
  yields (parseMap tokens parseExpression) pos
    (fun e _ => wellFormedExpression e = true).
Proof. unfold parseMap. yields_auto. Qed.

Lemma parseRender_shape pos :
  yields (parseRender tokens parseExpression) pos
    (fun e _ => wellFormedExpression e = true).
Proof. unfold parseRender. yields_auto. Qed.

Lemma parseGet_shape pos :
  yields (parseGet tokens parseExpression) pos
    (fun e _ => wellFormedExpression e = true).
Proof. unfold parseGet. yields_auto. Qed.

#[local] Hint Resolve parseList_shape parseMap_shape parseRender_shape
  parseGet_shape : yields.

Lemma parsePrimaryExpression_shape pos :
  yields (parsePrimaryExpression tokens parseExpression) pos
    (fun e _ => wellFormedExpression e = true).
Proof. unfold parsePrimaryExpression. yields_auto. Qed.

Lemma parseCallMemberLoop_shape n :
  forall expression pos,
    wellFormedExpression expression = true ->
    yields (parseCallMemberLoop tokens parseExpression n expression) pos
      (fun e _ => wellFormedExpression e = true).
Proof.
  induction n as [|n IH]; intros expression pos Hexpression;
    cbn [parseCallMemberLoop]; yields_auto.
  - eapply yields_weaken; [apply IH; shaped | auto].
  - eapply yields_weaken; [apply IH; shaped | auto].
Qed.

Lemma parseCallMemberExpression_shape pos :
  yields (parseCallMemberExpression tokens parseExpression) pos
    (fun e _ => wellFormedExpression e = true).
Proof.
  unfold parseCallMemberExpression.
  eapply yields_bind; [apply parsePrimaryExpression_shape|].
  cbv beta. intros e ? He. now apply parseCallMemberLoop_shape.
Qed.

#[local] Hint Resolve parseCallMemberExpression_shape : yields.

(** A prefix operator of the tree is the [!] or [-] that was read. *)
Lemma parseUnaryExpression_shape n :
  forall pos,
    yields (parseUnaryExpression tokens parseExpression n) pos
      (fun e _ => wellFormedExpression e = true).
Proof.
  induction n as [|n IH]; intros pos; cbn [parseUnaryExpression];
    yields_auto.
  match goal with
  | H : _ || _ = true |- _ =>
      apply orb_true_iff in H as [H | H];
      apply tokenIs_true in H as [_ ->]; reflexivity
  end.
Qed.

#[local] Hint Resolve parseUnaryExpression_shape : yields.

Ltac level ops :=
  eapply yields_bind; [solve [eauto with yields]|];
  cbv beta; intros lhs ? Hlhs;
  apply operatorLoop_shape;
  [ solve [eauto with yields]
  | apply binaryNode_shape; intros operator Hin; cbn in Hin |- *; tauto
  | exact Hlhs ].

Lemma parseMultiplicativeExpression_shape pos :
  yields (parseMultiplicativeExpression tokens parseExpression) pos
    (fun e _ => wellFormedExpression e = true).
Proof. unfold parseMultiplicativeExpression. level 0. Qed.

#[local] Hint Resolve parseMultiplicativeExpression_shape : yields.

Lemma parseAdditiveExpression_shape pos :
  yields (parseAdditiveExpression tokens parseExpression) pos
    (fun e _ => wellFormedExpression e = true).
Proof. unfold parseAdditiveExpression. level 0. Qed.

#[local] Hint Resolve parseAdditiveExpression_shape : yields.

Lemma parseRelationalExpression_shape pos :
  yields (parseRelationalExpression tokens parseExpression) pos
    (fun e _ => wellFormedExpression e = true).
Proof. unfold parseRelationalExpression. level 0. Qed.

#[local] Hint Resolve parseRelationalExpression_shape : yields.

Lemma parseEqualityExpression_shape pos :
  yields (parseEqualityExpression tokens parseExpression) pos
    (fun e _ => wellFormedExpression e = true).
Proof. unfold parseEqualityExpression. level 0. Qed.

#[local] Hint Resolve parseEqualityExpression_shape : yields.

Lemma parseLogicalExpression_shape pos :
  yields (parseLogicalExpression tokens parseExpression) pos
    (fun e _ => wellFormedExpression e = true).
Proof.
  unfold parseLogicalExpression.
  eapply yields_bind; [solve [eauto with yields]|].
  cbv beta. intros lhs ? Hlhs.
  apply operatorLoop_shape;
    [solve [eauto with yields] | apply logicalNode_shape | exact Hlhs].
Qed.

Lemma parseLambdaBody_shape pos :
  yields (parseLambdaBody tokens parseExpression parseBlock) pos
    (fun body _ => wellFormedBody body = true).
Proof. unfold parseLambdaBody. yields_auto. Qed.

#[local] Hint Resolve parseLogicalExpression_shape parseLambdaBody_shape
  : yields.

Lemma parseLambdaExpression_shape pos :
  yields (parseLambdaExpression tokens parseExpression parseBlock) pos
    (fun e _ => wellFormedExpression e = true).
Proof.
  unfold parseLambdaExpression. yields_auto.
  match goal with
  | |- yields (match ?e with _ => _ end) _ _ => destruct e
  end; yields_auto.
  eapply yields_bind; [apply extractParams_shape; assumption|].
  cbv beta. intros names ? Hnames. yields_auto.
Qed.

End Methods.

(** The three methods of the knot, whatever the fuel. *)
Lemma parser_knot_shape fuel :
  (forall pos, yields (parseExpression tokens fuel) pos
                 (fun e _ => wellFormedExpression e = true))
  /\ (forall pos, yields (parseBlock tokens fuel) pos
                    (fun block _ => wellFormedBlock block = true))
  /\ (forall pos, yields (parseStatement tokens fuel) pos
                    (fun statement _ => wellFormedStatement statement = true)).
Proof.
  induction fuel as [|fuel (IHe & IHb & IHs)].
  - repeat split; intros pos a pos'; discriminate.
  - repeat split; intros pos.
    + cbn [parseExpression].
      apply parseLambdaExpression_shape; assumption.
    + cbn [parseBlock]. apply parseBlock_body_shape; assumption.
    + cbn [parseStatement]. apply parseStatement_body_shape; assumption.
Qed.

Lemma parseLoop_shape fuel :
  forall body pos,
    forallb (fun statement => wellFormedStatement statement) body = true ->
    yields (parseLoop tokens fuel body) pos
      (fun statements _ =>
         forallb (fun statement => wellFormedStatement statement) statements
         = true).
Proof.
  induction fuel as [|fuel IH]; intros body pos Hbody; cbn [parseLoop];
    yields_auto.
  eapply yields_bind; [apply (proj2 (proj2 (parser_knot_shape fuel)))|].
  cbv beta. intros statement ? Hstatement. yields_auto.
  eapply yields_weaken; [apply IH; shaped | auto].
Qed.

(** [this.is(type)] looks at the token of the position. *)
Lemma isType_at ty pos :
  yields (isType tokens ty) pos
    (fun answer pos' =>
       pos' = pos
       /\ exists token,
            nth_error tokens pos = Some token
            /\ answer = TokenType_eqb (type token) ty).
Proof.
  unfold isType. eapply yields_bind; [apply yields_peek|].
  cbv beta. intros token ? [-> Hnth]. apply yields_ret. eauto.
Qed.

(** The loop of [parse] returns on the end-of-input token only. *)
Lemma parseLoop_stops_at_eof fuel :
  forall body pos,
    yields (parseLoop tokens fuel body) pos
      (fun _ pos' =>
         exists token,
           nth_error tokens pos' = Some token /\ type token = T_eof).
Proof.
  induction fuel as [|fuel IH]; intros body pos; cbn [parseLoop];
    [apply yields_outOfFuel|].
  eapply yields_bind; [apply isType_at|].
  cbv beta. intros eof ? (-> & token & Hnth & ->).
  destruct (TokenType_eqb (type token) T_eof) eqn:Heof.
  { apply yields_ret. exists token. split; [exact Hnth|].
    now destruct (type token). }
  eapply yields_bind; [apply skipNewlines_yields|].
  cbv beta. intros _ pos1 _.
  eapply yields_bind; [apply isType_at|].
  cbv beta. intros eof ? (-> & token1 & Hnth1 & ->).
  destruct (TokenType_eqb (type token1) T_eof) eqn:Heof1.
  { apply yields_ret. exists token1. split; [exact Hnth1|].
    now destruct (type token1). }
  eapply yields_bind with (Q1 := fun _ _ => True);
    [intros ? ? ?; exact I|].
  cbv beta. intros statement pos2 _.
  eapply yields_bind; [apply skipNewlines_yields|].
  cbv beta. intros _ pos3 _. apply IH.
Qed.

End ParsedShape.

(** The end-of-input token is the last token. *)
Lemma tokenize_eof_last source tokens i token :
  tokenize source = Some (Ok tokens) ->
  nth_error tokens i = Some token -> type token = T_eof ->
  S i = List.length tokens.
Proof.
  intros H Hnth Hty. unfold tokenize in H.
  destruct (tokenizeLoop_spec (fuel := S (String.length source))
              (mkTokenizer source 1 1) []) as (r & Er & Hr);
    [simpl; lia|].
  rewrite H in Er. injection Er as <-.
  destruct Hr as (front & ln & col & -> & Hfront). cbn [app] in *.
  rewrite length_app. cbn [List.length].
  destruct (Nat.lt_ge_cases i (List.length front)) as [Hlt | Hge].
  - exfalso. rewrite nth_error_app1 in Hnth by exact Hlt.
    apply nth_error_In in Hnth.
    apply (proj1 (Forall_forall _ _) Hfront) in Hnth.
    now apply Hnth.
  - assert (Hlen : i < List.length (front ++ [mkToken T_eof "" ln col])).
    { apply nth_error_Some. congruence. }
    rewrite length_app in Hlen. cbn [List.length] in Hlen. lia.
Qed.

(** X18. What a parsed program is made of.  In every program that
    [parse] returns, at any depth: a variable, a member property, a
    declared name, an event, a method, a loop variable and a lambda or
    continuation parameter is the text of an identifier token; the
    operator of a binary expression is one of [* / % + - > >= < <= == !=]
    and that of a unary expression is [!] or [-]; a [get] and a [set]
    carry the extra expression exactly when the property is [attr],
    [css] or [data]; a [toggle] carries an argument exactly in mode
    [class]. *)
Theorem parsed_program_is_well_formed :
  forall source program,
    parse source = Some (Ok program) ->
    forallb wellFormedStatement (programBody program) = true.
Proof.
  intros source program H. unfold parse in H.
  destruct (tokenize source) as [[tokens|e]|] eqn:Htokens; try discriminate.
  pose proof (tokenize_shapes _ Htokens) as Hshapes.
  unfold run in H.
  destruct (parseLoop tokens (parserFuel tokens) [] 0)
    as [[[body pos]|e]|] eqn:E; try discriminate.
  injection H as <-. cbn [programBody].
  exact (@parseLoop_shape tokens Hshapes (parserFuel tokens) [] 0 eq_refl
           _ _ E).
Qed.

(** X19. A program is returned only when every token has been read:
    the loop of [parse] on the tokens of a source ends on the last
    token, the end-of-input token, so no text after the last statement
    is left out of the program. *)
Theorem parse_reads_every_token :
  forall source tokens body pos,
    tokenize source = Some (Ok tokens) ->
    parseLoop tokens (parserFuel tokens) [] 0 = Some (Ok (body, pos)) ->
    S pos = List.length tokens
    /\ parse source = Some (Ok (mkProgram body)).
Proof.
  intros source tokens body pos Htokens Hloop.
  split.
  - destruct (@parseLoop_stops_at_eof tokens (parserFuel tokens) [] 0
                _ _ Hloop) as (token & Hnth & Hty).
    eapply tokenize_eof_last; eassumption.
  - unfold parse, run. now rewrite Htokens, Hloop.
Qed.
(** ** Driver *)

Lemma prelude_text : prelude = unlines preludeLines.
Proof. reflexivity. Qed.

Lemma noNewline_cons c (s : string) :
  noNewline (String c s) -> c <> "010"%char /\ noNewline s.
Proof. unfold noNewline. simpl. tauto. Qed.

Lemma splitLines_line (ln rest : string) :
  noNewline ln -> splitLines (ln ++ LF ++ rest) = ln :: splitLines rest.
Proof.
  induction ln as [|c ln IH]; intros H; [reflexivity|].
  apply noNewline_cons in H as [Hc Hln].
  cbn [append splitLines].
  apply Ascii.eqb_neq in Hc. rewrite Hc, (IH Hln). reflexivity.
Qed.

Lemma splitLines_unlines (lines : list string) :
  Forall noNewline lines ->
  splitLines (unlines lines) = (lines ++ [""])%list.
Proof.
  induction 1 as [|ln rest Hln _ IH]; [reflexivity|].
  cbn [unlines]. rewrite splitLines_line by exact Hln. now rewrite IH.
Qed.

Lemma dropTrailingEmpty_snoc (lines : list string) :
  dropTrailingEmpty (lines ++ [""]) = lines.
Proof.
  induction lines as [|ln rest IH]; [reflexivity|].
  cbn [app dropTrailingEmpty]. rewrite IH.
  destruct rest; reflexivity.
Qed.

Lemma join_LF_unlines (lines : list string) :
  lines <> [] -> join LF lines ++ LF = unlines lines.
Proof.
  induction lines as [|ln rest IH]; [congruence|]. intros _.
  destruct rest as [|ln' rest].
  - reflexivity.
  - change (join LF (ln :: ln' :: rest))
      with (ln ++ LF ++ join LF (ln' :: rest)).
    change (unlines (ln :: ln' :: rest))
      with (ln ++ LF ++ unlines (ln' :: rest)).
    rewrite !append_assoc. now rewrite IH by discriminate.
Qed.

(** [indentLines] at level 1 indents every line that is not empty by
    two blanks. *)
Lemma indentLines_unlines (lines : list string) :
  Forall noNewline lines ->
  indentLines (unlines lines) 1 = unlines (map indentLine lines).
Proof.
  intros H. destruct lines as [|ln rest]; [reflexivity|].
  unfold indentLines.
  assert (Hne : String.eqb (unlines (ln :: rest)) "" = false).
  { apply String.eqb_neq. cbn [unlines]. destruct ln; discriminate. }
  rewrite Hne, splitLines_unlines, dropTrailingEmpty_snoc by exact H.
  apply join_LF_unlines. discriminate.
Qed.

(** C8. When [compileSprout] returns, its code is the prelude, then
    the generated body with its lines indented one level, then the
    epilogue: the four fixed lines, the lines of the body with two
    blanks before each one that is not empty, and the closing line.
    The prelude and the epilogue do not depend on the program. *)
Theorem compileSprout_wraps_body :
  forall source result,
    compileSprout source = Some (Ok result) ->
    exists program lines,
      parse source = Some (Ok program)
      /\ Forall noNewline lines
      /\ generate program = unlines lines
      /\ code result
         = unlines preludeLines ++ indentLines (generate program) 1
           ++ epilogue
      /\ code result
         = unlines (preludeLines ++ map indentLine lines ++ ["});"]).
Proof.
  intros source result H. unfold compileSprout in H.
  destruct (parse source) as [[program|e]|]; try discriminate.
  injection H as <-.
  destruct (generate_lines program) as (lines & Hlines & E).
  exists program, lines.
  split; [reflexivity|]. split; [exact Hlines|]. split; [exact E|].
  split; [reflexivity|].
  change (prelude ++ indentLines (generate program) 1 ++ unlines ["});"]
          = unlines (preludeLines ++ map indentLine lines ++ ["});"])).
  rewrite prelude_text, E, indentLines_unlines by exact Hlines.
  now rewrite !unlines_app.
Qed.

(** *** [indentLines] at any level *)

Lemma noNewline_empty : noNewline "".
Proof. intros []. Qed.

Lemma noNewline_String c (s : string) :
  c <> "010"%char -> noNewline s -> noNewline (String c s).
Proof. unfold noNewline. simpl. intros Hc Hs [H | H]; auto. Qed.

Lemma noNewline_app (a b : string) :
  noNewline a -> noNewline b -> noNewline (a ++ b).
Proof.
  induction a as [|c a IH]; intros Ha Hb; [exact Hb|].
  apply noNewline_cons in Ha as [Hc Ha]. cbn [append].
  apply noNewline_String; auto.
Qed.

(** Every text is lines that end in a newline, then a last line that
    does not; [split] gives them back. *)
Lemma splitLines_spec (text : string) :
  exists lines final,
    splitLines text = (lines ++ [final])%list
    /\ Forall noNewline lines /\ noNewline final
    /\ text = unlines lines ++ final.
Proof.
  induction text as [|c text (lines & final & Hsplit & Hlines & Hfinal & E)].
  - exists [], "". repeat split; [constructor | apply noNewline_empty].
  - cbn [splitLines]. destruct (Ascii.eqb c "010") eqn:Ec.
    + apply Ascii.eqb_eq in Ec. subst c.
      exists ("" :: lines), final. rewrite Hsplit.
      split; [reflexivity|].
      split; [constructor; [apply noNewline_empty | exact Hlines]|].
      split; [exact Hfinal|].
      cbn [unlines]. rewrite !append_assoc, <- E. reflexivity.
    + apply Ascii.eqb_neq in Ec. rewrite Hsplit.
      destruct lines as [|ln lines].
      * exists [], (String c final). cbn [app].
        split; [reflexivity|]. split; [constructor|].
        split; [now apply noNewline_String|].
        cbn [unlines append] in *. now rewrite E.
      * exists (String c ln :: lines), final. cbn [app].
        split; [reflexivity|]. split.
        { inversion Hlines as [|? ? Hln Hrest].
          constructor; [now apply noNewline_String | exact Hrest]. }
        split; [exact Hfinal|].
        rewrite E. cbn [unlines]. now rewrite !append_assoc.
Qed.

Lemma dropTrailingEmpty_last (lines : list string) final :
  dropTrailingEmpty (lines ++ [final])
  = if String.eqb final "" then lines else (lines ++ [final])%list.
Proof.
  induction lines as [|ln rest IH]; [reflexivity|].
  cbn [app dropTrailingEmpty]. rewrite IH.
  destruct rest; cbn [app]; destruct (String.eqb final ""); reflexivity.
Qed.

Lemma unlines_snoc (lines : list string) final :
  unlines (lines ++ [final]) = unlines lines ++ final ++ LF.
Proof. rewrite unlines_app. cbn [unlines]. now rewrite append_nil_r. Qed.

Lemma endsWith_open (a final : string) :
  noNewline final -> final <> "" -> endsWith "010" (a ++ final) = false.
Proof.
  intros Hfinal Hne. induction a as [|c a IH].
  - cbn [append]. induction final as [|c final IH]; [congruence|].
    apply noNewline_cons in Hfinal as [Hc Hfinal].
    cbn [endsWith]. destruct final.
    + now apply Ascii.eqb_neq.
    + apply IH; [exact Hfinal | discriminate].
  - cbn [append endsWith]. destruct (a ++ final) eqn:Es; [|exact IH].
    destruct a; [|discriminate]. cbn in Es. congruence.
Qed.

(** The lines that [indentLines] indents. *)
Lemma indentLines_lines (text : string) :
  exists lines,
    Forall noNewline lines
    /\ (String.eqb text "" = false -> lines <> [])
    /\ unlines lines
       = (if String.eqb text "" || endsWith "010" text then text
          else text ++ LF)
    /\ forall level,
         indentLines text level = unlines (map (indentBy level) lines).
Proof.
  destruct (splitLines_spec text)
    as (lines & final & Hsplit & Hlines & Hfinal & E).
  exists (dropTrailingEmpty (splitLines text)).
  rewrite Hsplit, dropTrailingEmpty_last.
  assert (Hends : forall ls : list string,
            ls <> [] -> endsWith "010" (unlines ls) = true).
  { intros ls Hne. destruct ls as [|x ls _] using rev_ind; [congruence|].
    rewrite unlines_snoc, <- append_assoc. apply endsWith_snoc. }
  assert (Hlevel : forall ls : list string, ls <> [] -> forall level,
            join LF (map (indentBy level) ls) ++ LF
            = unlines (map (indentBy level) ls)).
  { intros ls Hne level. apply join_LF_unlines. now destruct ls. }
  destruct (String.eqb final "") eqn:Ef.
  - apply String.eqb_eq in Ef. subst final. rewrite append_nil_r in E.
    split; [exact Hlines|]. destruct lines as [|ln lines].
    + subst text. split; [discriminate|]. split; reflexivity.
    + assert (Hne : String.eqb text "" = false).
      { apply String.eqb_neq. subst text. cbn [unlines].
        destruct ln; discriminate. }
      split; [discriminate|]. split.
      * rewrite Hne, E at 1. rewrite E at 1.
        rewrite Hends by discriminate. now rewrite <- E.
      * intros level. unfold indentLines.
        rewrite Hne, Hsplit, dropTrailingEmpty_snoc.
        apply Hlevel. discriminate.
  - assert (Hne : String.eqb text "" = false).
    { apply String.eqb_neq. subst text. intros H.
      destruct lines; [|destruct s; discriminate H].
      cbn in H. subst final. discriminate Ef. }
    split; [apply Forall_app; split; [exact Hlines | now constructor]|].
    split; [intros _; now destruct lines|]. split.
    + rewrite Hne. cbn [orb].
      assert (Hend : endsWith "010" text = false).
      { rewrite E. apply endsWith_open; [exact Hfinal|].
        intros ->. discriminate Ef. }
      rewrite Hend, unlines_snoc, E. now rewrite append_assoc.
    + intros level. unfold indentLines.
      rewrite Hne, Hsplit, dropTrailingEmpty_last, Ef.
      apply Hlevel. now destruct lines.
Qed.

Lemma indentLines_unlines_level (lines : list string) level :
  Forall noNewline lines ->
  indentLines (unlines lines) level = unlines (map (indentBy level) lines).
Proof.
  intros H. destruct lines as [|ln rest]; [reflexivity|].
  unfold indentLines.
  assert (Hne : String.eqb (unlines (ln :: rest)) "" = false).
  { apply String.eqb_neq. cbn [unlines]. destruct ln; discriminate. }
  rewrite Hne, splitLines_unlines, dropTrailingEmpty_snoc by exact H.
  apply join_LF_unlines. discriminate.
Qed.

Lemma repeatString_add (s : string) (m n : nat) :
  repeatString s (m + n) = repeatString s m ++ repeatString s n.
Proof.
  induction m as [|m IH]; [reflexivity|].
  cbn [Nat.add repeatString]. now rewrite IH, append_assoc.
Qed.

Lemma noNewline_indentBy level (ln : string) :
  noNewline ln -> noNewline (indentBy level ln).
Proof.
  intros H. unfold indentBy. destruct (String.eqb ln ""); [exact H|].
  apply noNewline_app; [|exact H].
  induction level as [|level IH]; [apply noNewline_empty|].
  cbn [repeatString]. apply noNewline_app; [|exact IH].
  intros [Hc | [Hc | []]]; discriminate Hc.
Qed.

Lemma indentBy_indentBy (a b : nat) (ln : string) :
  indentBy b (indentBy a ln) = indentBy (a + b) ln.
Proof.
  unfold indentBy. destruct (String.eqb ln "") eqn:E; [now rewrite E|].
  assert (Hne : String.eqb (repeatString "  " a ++ ln) "" = false).
  { apply String.eqb_neq. apply String.eqb_neq in E.
    destruct (repeatString "  " a); [exact E | discriminate]. }
  rewrite Hne, Nat.add_comm, repeatString_add. now rewrite append_assoc.
Qed.

(** X20. Indenting twice is indenting once by the sum of the levels,
    on every text. *)
Theorem indentLines_compose :
  forall text a b,
    indentLines (indentLines text a) b = indentLines text (a + b).
Proof.
  intros text a b.
  destruct (indentLines_lines text) as (lines & Hlines & _ & _ & Hlevel).
  rewrite !Hlevel, indentLines_unlines_level, map_map.
  - f_equal. apply map_ext. intros ln. apply indentBy_indentBy.
  - apply Forall_map. eapply Forall_impl; [|exact Hlines].
    intros ln. apply noNewline_indentBy.
Qed.

(** X21. At level 0 [indentLines] leaves a text that is empty or ends
    in a newline as it is, and ends any other text with a newline: a
    final newline is not doubled, and a missing one is added. *)
Theorem indentLines_level_zero :
  forall text,
    indentLines text 0
    = if String.eqb text "" || endsWith "010" text then text
      else text ++ LF.
Proof.
  intros text.
  destruct (indentLines_lines text) as (lines & _ & _ & Htext & Hlevel).
  rewrite Hlevel, <- Htext. f_equal.
  rewrite <- (map_id lines) at 2. apply map_ext.
  intros ln. unfold indentBy. now destruct (String.eqb ln "").
Qed.

(** *** A source of blanks and newlines *)

Lemma skipNewlinesFrom_newlines tokens (front : list Token) final rest :
  Forall (fun token => isNewlineToken token = true) front ->
  isNewlineToken final = false ->
  forall pos,
    skipNewlinesFrom tokens (front ++ final :: rest) pos
    = Some (Ok (tt, pos + List.length front)).
Proof.
  intros Hfront Hfinal.
  induction Hfront as [|token front Htoken _ IH]; intros pos;
    cbn [app skipNewlinesFrom List.length].
  - unfold isNewlineToken in Hfinal. rewrite Hfinal.
    unfold ret. now rewrite Nat.add_0_r.
  - unfold isNewlineToken in Htoken. rewrite Htoken.
    unfold bind, next. rewrite IH. do 3 f_equal. lia.
Qed.

Lemma parseLoop_blank (front : list Token) ln col fuel :
  Forall (fun token => isNewlineToken token = true) front ->
  exists pos,
    parseLoop (front ++ [mkToken T_eof "" ln col]) (S fuel) [] 0
    = Some (Ok ([], pos)).
Proof.
  intros Hfront. set (tokens := (front ++ [mkToken T_eof "" ln col])%list).
  assert (Hend : isType tokens T_eof (List.length front)
                 = Some (Ok (true, List.length front))).
  { unfold isType, bind, peek, ret. subst tokens.
    rewrite nth_error_app2 by apply Nat.le_refl.
    now rewrite Nat.sub_diag. }
  cbn [parseLoop]. destruct front as [|token front].
  - exists 0. erewrite bind_ok by exact Hend. reflexivity.
  - exists (List.length (token :: front)).
    assert (Hfirst : isType tokens T_eof 0 = Some (Ok (false, 0))).
    { unfold isType, bind, peek, ret. subst tokens. cbn [app nth_error].
      inversion Hfront as [|? ? Htoken _]. unfold isNewlineToken in Htoken.
      now destruct (type token). }
    erewrite bind_ok by exact Hfirst. cbv iota.
    assert (Hskip : skipNewlines tokens 0
                    = Some (Ok (tt, List.length (token :: front)))).
    { unfold skipNewlines. cbn [skipn]. subst tokens.
      now rewrite skipNewlinesFrom_newlines. }
    erewrite bind_ok by exact Hskip.
    erewrite bind_ok by exact Hend. reflexivity.
Qed.

(** X22. A source of blanks, tabs, carriage returns and newlines only,
    the empty source included, is the empty program, and it compiles to
    the prelude followed by the epilogue. *)
Theorem blank_source_compiles_to_scaffold :
  forall source,
    allChars blankChar source = true ->
    parse source = Some (Ok (mkProgram []))
    /\ compileSprout source
       = Some (Ok (mkCompileResult (prelude ++ epilogue))).
Proof.
  intros source Hblank.
  assert (Hparse : parse source = Some (Ok (mkProgram []))).
  { unfold parse, tokenize.
    destruct (@tokenizeLoop_blank (S (String.length source))
                (mkTokenizer source 1 1) [] (Nat.lt_succ_diag_r _) Hblank)
      as (front & ln & col & -> & Hfront).
    cbn [app]. unfold run, parserFuel.
    replace (3 * (List.length (front ++ [mkToken T_eof "" ln col]) + 1))
      with (S (3 * List.length (front ++ [mkToken T_eof "" ln col]) + 2))
      by lia.
    destruct (parseLoop_blank ln col
                (3 * List.length (front ++ [mkToken T_eof "" ln col]) + 2)
                Hfront) as (pos & ->).
    reflexivity. }
  split; [exact Hparse|].
  unfold compileSprout. rewrite Hparse. reflexivity.
Qed.
End Compiler.

(** * Instances on concrete inputs

    The inputs below hold no numeric literal, or only print it back; a
    number is kept as its lexeme. *)

Lemma tokenize_ends_with_single_eof_witness :
  (exists front ln col,
     [mkToken T_identifier "x" 1 1; mkToken T_eof "" 1 2]
     = (front ++ [mkToken T_eof "" ln col])%list
     /\ Forall notEOF front)
  /\ [mkToken T_identifier "x" 1 1; mkToken T_eof "" 1 2] <> []
  /\ tokenize "" = Some (Ok [mkToken T_eof "" 1 1]).
Proof.
  exact (@tokenize_ends_with_single_eof "x" _ eq_refl).
Defined.

(** An unrecognized character after an identifier and a blank; the
    blank has not advanced the column counter. *)
Lemma tokenize_total_two_failures_witness :
  tokenize "a @" = Some (Throw (mkError "Unexpected character '@'" 1 2)).
Proof.
  apply (proj1 (proj2 tokenize_total_two_failures)).
  exists "a ", "@"%char, "",
    [mkToken T_identifier "a" 1 1; mkToken T_eof "" 1 2].
  split; [reflexivity|]. split; [reflexivity|]. right. split; reflexivity.
Defined.


Lemma compileSprout_wraps_body_witness :
  exists program lines,
    parse (fun lexeme : string => lexeme) "let n = 0" = Some (Ok program)
    /\ Forall noNewline lines
    /\ generate (fun lexeme : string => lexeme) program = unlines lines
    /\ code (mkCompileResult
               (unlines (preludeLines ++ ["  let n = 0;"; "});"])))
       = unlines preludeLines
         ++ indentLines (generate (fun lexeme : string => lexeme) program) 1
         ++ epilogue
    /\ code (mkCompileResult
               (unlines (preludeLines ++ ["  let n = 0;"; "});"])))
       = unlines (preludeLines ++ map indentLine lines ++ ["});"]).
Proof.
  exact (@compileSprout_wraps_body string (fun lexeme => lexeme)
           (fun lexeme => lexeme) "let n = 0"
           (mkCompileResult
              (unlines (preludeLines ++ ["  let n = 0;"; "});"])))
           eq_refl).
Defined.

Lemma toggle_grammar_witness :
  let tokens :=
    [mkToken T_identifier "toggle" 1 1;
     mkToken T_string (DQ ++ "#panel" ++ DQ) 1 7;
     mkToken T_identifier "show" 1 14;
     mkToken T_eof "" 1 18] in
  parseToggle tokens
    (parseExpression (fun lexeme : string => lexeme) tokens
       (parserFuel tokens)) 0
  = Some (Ok (ToggleStatement (Literal (LText "#panel")) ModeShow None, 3)).
Proof.
  exact (proj1
    (@toggle_grammar string (fun lexeme => lexeme)
       [mkToken T_identifier "toggle" 1 1;
        mkToken T_string (DQ ++ "#panel" ++ DQ) 1 7;
        mkToken T_identifier "show" 1 14;
        mkToken T_eof "" 1 18]
       (parseExpression (fun lexeme : string => lexeme)
          [mkToken T_identifier "toggle" 1 1;
           mkToken T_string (DQ ++ "#panel" ++ DQ) 1 7;
           mkToken T_identifier "show" 1 14;
           mkToken T_eof "" 1 18]
          (parserFuel
             [mkToken T_identifier "toggle" 1 1;
              mkToken T_string (DQ ++ "#panel" ++ DQ) 1 7;
              mkToken T_identifier "show" 1 14;
              mkToken T_eof "" 1 18]))
       0 (mkToken T_identifier "toggle" 1 1)
       (Literal (LText "#panel")) 2 (mkToken T_identifier "show" 1 14)
       eq_refl eq_refl eq_refl eq_refl eq_refl)).
Defined.

(** [(x, y) -> x + y] does not parse: the group ends at the comma. *)
Lemma lambda_pair_counterexample :
  parseExpressionOf (fun lexeme : string => lexeme) "(x, y) -> x + y"
  = Some (Throw (mkError "Expected ')'" 1 3)).
Proof. vm_compute. reflexivity. Qed.

(** An expression after [show] is not the argument of the [toggle]
    statement: it is the next statement. *)
Lemma toggle_show_argument_counterexample :
  parse (fun lexeme : string => lexeme)
    ("toggle " ++ DQ ++ "#panel" ++ DQ ++ " show visible")
  = Some (Ok (mkProgram
                [ToggleStatement (Literal (LText "#panel")) ModeShow None;
                 ExpressionStatement (Identifier "visible")])).
Proof. vm_compute. reflexivity. Qed.

(** Two identifiers with two blanks between them: the gaps are the
    empty text, the two blanks and the empty text. *)
Lemma tokenize_keeps_source_witness :
  exists gaps,
    List.length gaps
    = List.length [mkToken T_identifier "x" 1 1; mkToken T_identifier "y" 1 2;
                   mkToken T_eof "" 1 3]
    /\ Forall (fun gap => blank gap = true) gaps
    /\ "x  y"
       = weave gaps [mkToken T_identifier "x" 1 1;
                     mkToken T_identifier "y" 1 2; mkToken T_eof "" 1 3].
Proof.
  exact (@tokenize_keeps_source "x  y" _ eq_refl).
Defined.

Lemma token_line_counts_newline_tokens_witness :
  line (mkToken T_identifier "b" 2 1)
  = 1 + newlinesIn [mkToken T_identifier "a" 1 1;
                    mkToken T_newline (char "010") 1 2].
Proof.
  exact (@token_line_counts_newline_tokens ("a" ++ char "010" ++ "b") _
           [mkToken T_identifier "a" 1 1; mkToken T_newline (char "010") 1 2]
           (mkToken T_identifier "b" 2 1) [mkToken T_eof "" 2 2]
           eq_refl eq_refl).
Defined.

(** A string literal of four characters advances the column by
    three. *)
Lemma token_positions_count_tokens_only_witness :
  (line (mkToken T_eof "" 1 6), column (mkToken T_eof "" 1 6))
  = positionAfter [mkToken T_identifier "s" 1 1; mkToken T_operator "=" 1 2;
                   mkToken T_string "'hi'" 1 3].
Proof.
  exact (@token_positions_count_tokens_only "s = 'hi'" _
           [mkToken T_identifier "s" 1 1; mkToken T_operator "=" 1 2;
            mkToken T_string "'hi'" 1 3]
           (mkToken T_eof "" 1 6) [] eq_refl eq_refl).
Defined.

Lemma tokens_are_well_formed_witness :
  let tokens :=
    [mkToken T_identifier "s" 1 1; mkToken T_operator "=" 1 2;
     mkToken T_string "'hi'" 1 3; mkToken T_eof "" 1 6] in
  Forall (fun token => tokenShape token = true) tokens
  /\ Forall (fun token =>
               type token = T_string ->
               exists quote,
                 isQuote quote = true
                 /\ value token
                    = char quote ++ slice_1_m1 (value token) ++ char quote)
       tokens.
Proof.
  exact (@tokens_are_well_formed "s = 'hi'" _ eq_refl).
Defined.

Lemma token_positions_exact_witness :
  "a+b"
  = tokenText [mkToken T_identifier "a" 1 1; mkToken T_operator "+" 1 2;
               mkToken T_identifier "b" 1 3; mkToken T_eof "" 1 4]
  /\ (line (mkToken T_identifier "b" 1 3),
      column (mkToken T_identifier "b" 1 3))
     = lineColumnAt "a+b"
         (String.length
            (tokenText [mkToken T_identifier "a" 1 1;
                        mkToken T_operator "+" 1 2])).
Proof.
  exact (@token_positions_exact "a+b" _
           [mkToken T_identifier "a" 1 1; mkToken T_operator "+" 1 2]
           (mkToken T_identifier "b" 1 3) [mkToken T_eof "" 1 4]
           eq_refl eq_refl eq_refl).
Defined.

Lemma unexpected_character_position_exact_witness :
  let e := mkError "Unexpected character '@'" 1 2 in
  exists prefix c rest,
    "a@b" = prefix ++ String c rest
    /\ recognized c rest = false
    /\ message e = "Unexpected character '" ++ char c ++ "'"
    /\ (errLine e, errColumn e) = lineColumnAt "a@b" (String.length prefix).
Proof.
  exact (@unexpected_character_position_exact "a@b" _ eq_refl eq_refl).
Defined.

(** [x->y]: the identifier token is [x-]. *)
Lemma arrow_after_identifier_is_split_witness :
  exists next others,
    [mkToken T_identifier "x-" 1 1; mkToken T_operator ">" 1 3;
     mkToken T_identifier "y" 1 4; mkToken T_eof "" 1 5]
    = mkToken T_identifier ("x" ++ "-") 1 1 :: next :: others
    /\ type next = T_operator
    /\ (value next = ">" \/ value next = ">=").
Proof.
  exact (@arrow_after_identifier_is_split "x" "" "y" _ eq_refl eq_refl
           eq_refl).
Defined.

Lemma bind_property_unchanged_witness :
  generateStatement (fun lexeme : string => lexeme)
    (BindStatement (Identifier "count") (Literal (LText "#out")) "text")
    (mkCodeGenerator [] 1)
  = (tt,
     mkCodeGenerator
       ["  sprout.bind(() => count, " ++ DQ ++ "#out" ++ DQ ++ ", "
        ++ DQ ++ "text" ++ DQ ++ ");" ++ LF] 1).
Proof.
  exact (@bind_property_unchanged string (fun lexeme => lexeme)
           (Identifier "count") (Literal (LText "#out")) "text"
           (mkCodeGenerator [] 1) eq_refl).
Defined.

(** [let = 1]: the name is missing, and the error is at the token [=]. *)
Lemma parse_errors_point_at_tokens_witness :
  let tokens :=
    [mkToken T_identifier "let" 1 1; mkToken T_operator "=" 1 4;
     mkToken T_number "1" 1 5; mkToken T_eof "" 1 6] in
  let e := mkError "Expected identifier" 1 4 in
  (exists token,
     In token tokens
     /\ errLine e = line token /\ errColumn e = column token)
  /\ message e <> "Unexpected end of input".
Proof.
  exact (@parse_errors_point_at_tokens string (fun lexeme => lexeme)
           "let = 1" _ _ eq_refl eq_refl).
Defined.

(** [a - b + c] is [(a - b) + c]. *)
Lemma binary_levels_associate_left_witness :
  let tokens :=
    [mkToken T_identifier "a" 1 1; mkToken T_operator "-" 1 2;
     mkToken T_identifier "b" 1 3; mkToken T_operator "+" 1 4;
     mkToken T_identifier "c" 1 5; mkToken T_eof "" 1 6] in
  let parseExpression :=
    parseExpression (fun lexeme : string => lexeme) tokens
      (parserFuel tokens) in
  let operand :=
    parseMultiplicativeExpression (fun lexeme : string => lexeme) tokens
      parseExpression in
  exists first next steps,
    operand 0 = Some (Ok (first, next))
    /\ operatorSteps tokens ["+"; "-"] operand next steps 5
    /\ BinaryExpression "+"
         (BinaryExpression "-" (Identifier "a") (Identifier "b"))
         (Identifier "c")
       = chainLeft BinaryExpression first steps.
Proof.
  exact (@binary_levels_associate_left string (fun lexeme => lexeme)
           [mkToken T_identifier "a" 1 1; mkToken T_operator "-" 1 2;
            mkToken T_identifier "b" 1 3; mkToken T_operator "+" 1 4;
            mkToken T_identifier "c" 1 5; mkToken T_eof "" 1 6]
           (parseExpression (fun lexeme : string => lexeme)
              [mkToken T_identifier "a" 1 1; mkToken T_operator "-" 1 2;
               mkToken T_identifier "b" 1 3; mkToken T_operator "+" 1 4;
               mkToken T_identifier "c" 1 5; mkToken T_eof "" 1 6]
              (parserFuel
                 [mkToken T_identifier "a" 1 1; mkToken T_operator "-" 1 2;
                  mkToken T_identifier "b" 1 3; mkToken T_operator "+" 1 4;
                  mkToken T_identifier "c" 1 5; mkToken T_eof "" 1 6]))
           _ 0
           (BinaryExpression "+"
              (BinaryExpression "-" (Identifier "a") (Identifier "b"))
              (Identifier "c"))
           5 (or_intror (or_introl eq_refl)) eq_refl).
Defined.

(** [(a, b)] at the start of a continuation clause. *)
Lemma then_clause_parameters_witness :
  parseLambdaParameters
    [mkToken T_punctuation "(" 1 1; mkToken T_identifier "a" 1 2;
     mkToken T_punctuation "," 1 3; mkToken T_identifier "b" 1 4;
     mkToken T_punctuation ")" 1 5; mkToken T_operator "->" 1 6;
     mkToken T_eof "" 1 8] 0
  = Some (Ok (["a"; "b"], 5)).
Proof.
  exact (@then_clause_parameters
           [mkToken T_punctuation "(" 1 1; mkToken T_identifier "a" 1 2;
            mkToken T_punctuation "," 1 3; mkToken T_identifier "b" 1 4;
            mkToken T_punctuation ")" 1 5; mkToken T_operator "->" 1 6;
            mkToken T_eof "" 1 8] 0 _ ["a"; "b"] eq_refl eq_refl eq_refl).
Defined.

(** A [set] with an extra expression, a prefix and a binary operator. *)
Lemma parsed_program_is_well_formed_witness :
  let source := "set #box attr 'title' to -x * 2" in
  let program :=
    mkProgram
      [SetStatement (Identifier "#box") "attr"
         (BinaryExpression "*" (UnaryExpression "-" (Identifier "x"))
            (Literal (LNumber "2")))
         (Some (Literal (LText "title")))] in
  parse (fun lexeme : string => lexeme) source = Some (Ok program)
  /\ forallb wellFormedStatement (programBody program) = true.
Proof.
  split; [reflexivity|].
  exact (@parsed_program_is_well_formed string (fun lexeme => lexeme)
           (fun lexeme => lexeme) "set #box attr 'title' to -x * 2" _ eq_refl).
Defined.

(** Two statements on two lines: nine tokens, the last at index 8. *)
Lemma parse_reads_every_token_witness :
  let source := "let a = 1" ++ char "010" ++ "a = 2" in
  let body :=
    [LetStatement "a" (Literal (LNumber "1"));
     AssignmentStatement (Identifier "a") (Literal (LNumber "2"))] in
  exists tokens,
    tokenize source = Some (Ok tokens)
    /\ parseLoop (fun lexeme : string => lexeme) tokens (parserFuel tokens)
         [] 0
       = Some (Ok (body, 8))
    /\ S 8 = List.length tokens
    /\ parse (fun lexeme : string => lexeme) source
       = Some (Ok (mkProgram body)).
Proof.
  eexists. split; [reflexivity|]. split; [reflexivity|].
  exact (@parse_reads_every_token string (fun lexeme => lexeme)
           ("let a = 1" ++ char "010" ++ "a = 2") _ _ 8 eq_refl eq_refl).
Defined.

(** Two blanks, a newline and a tab. *)
Lemma blank_source_compiles_to_scaffold_witness :
  let source := "  " ++ char "010" ++ char "009" in
  parse (fun lexeme : string => lexeme) source = Some (Ok (mkProgram []))
  /\ compileSprout (fun lexeme : string => lexeme)
       (fun lexeme : string => lexeme) source
     = Some (Ok (mkCompileResult (prelude ++ epilogue))).
Proof.
  exact (@blank_source_compiles_to_scaffold string (fun lexeme => lexeme)
           (fun lexeme => lexeme) ("  " ++ char "010" ++ char "009")
           eq_refl).
Defined.
